(** * pelilauta-crawler: a shallow embedding of the crawl-and-transform engine

    The repository holds two crawler programs that share most of their text:
    - [src/webCrawler.ts] (and its compiled twin [webCrawler.js]), the
      simple pipeline, embedded in [Module Simple];
    - a second program, the richer pipeline (root-scoped Markdown, link
      rewriting, ignore patterns, page ceiling), embedded in [Module Rich].

    Both are asynchronous.  An async function is embedded piece by piece:
    one definition for what it does up to an [await] on the network, one
    for what it does from there on, in a monad of state and exceptions.
    What waits is kept in the state as a list of continuations, and a
    schedule tells which of them resumes next and with which response, so
    that a statement about every schedule is a statement about every
    interleaving and every behaviour of the network.  A request is
    answered or rejected, the write stream of an image finishes or fails,
    and a response stream ends or never does; the [error] event of a
    response stream, for which neither program registers a listener, is
    not part of the embedding.

    Strings are Rocq strings whose characters are read as code points
    0..255.  [URL.pathname] is ASCII only, so every path that reaches the
    URL normalizer is covered.

    The file has the embedding first, then the facts about it and the
    claims of the specification, then further facts, with the claims on
    failed requests and on the rewrite of the links that rest on them,
    then further properties of the two programs: the normalizers
    character by character, the image-title pass, and what holds of every
    run (where requests go, where files go, how often a page and an image
    are requested). *)

From Stdlib Require Import ZArith NArith Ascii String List Lia Bool.
From stdpp Require Import base gmap strings list.

(** ** JavaScript string primitives used by the crawler *)

Module JS.

(** [s.startsWith(p)] *)
Fixpoint startsWith (s p : string) {struct p} : bool :=
  match p with
  | EmptyString => true
  | String a p' =>
      match s with
      | EmptyString => false
      | String b s' => Ascii.eqb b a && startsWith s' p'
      end
  end.

(** [s.includes(p)] *)
Fixpoint includes (s p : string) : bool :=
  startsWith s p ||
  match s with
  | EmptyString => false
  | String _ t => includes t p
  end.

(** the last character of [s], if any *)
Fixpoint lastChar (s : string) : option ascii :=
  match s with
  | EmptyString => None
  | String c EmptyString => Some c
  | String _ t => lastChar t
  end.

(** [s.slice(0, -1)], also [s.substring(0, s.length - 1)] on a non-empty [s] *)
Fixpoint dropLast (s : string) : string :=
  match s with
  | EmptyString => EmptyString
  | String _ EmptyString => EmptyString
  | String c t => String c (dropLast t)
  end.

(** [s.substring(1)] *)
Definition substring1 (s : string) : string :=
  match s with
  | EmptyString => EmptyString
  | String _ t => t
  end.

(** [s.endsWith(p)] *)
Fixpoint endsWith (s p : string) : bool :=
  String.eqb s p ||
  match s with
  | EmptyString => false
  | String _ t => endsWith t p
  end.

(** [s.replace(/[class]/g, '-')] for a character class given by its
    complement [keep] *)
Fixpoint replaceOutside (keep : ascii -> bool) (s : string) : string :=
  match s with
  | EmptyString => EmptyString
  | String c t => String (if keep c then c else "-"%char) (replaceOutside keep t)
  end.

Definition isDash (c : ascii) : bool := Ascii.eqb c "-"%char.

(** [r.split('--').join('-')]: every occurrence of two dashes, found left
    to right without overlap, becomes one dash *)
Fixpoint splitJoinDashes (r : string) : string :=
  match r with
  | EmptyString => EmptyString
  | String a t =>
      match t with
      | EmptyString => String a EmptyString
      | String b u =>
          if isDash a && isDash b then String "-"%char (splitJoinDashes u)
          else String a (splitJoinDashes t)
      end
  end.

(** the leading run of dashes removed: the [^-+] branch of [/(^-+|-+$)/g] *)
Fixpoint stripLeadingDashes (s : string) : string :=
  match s with
  | EmptyString => EmptyString
  | String c t => if isDash c then stripLeadingDashes t else s
  end.

Fixpoint allDashes (s : string) : bool :=
  match s with
  | EmptyString => true
  | String c t => isDash c && allDashes t
  end.

(** the trailing run of dashes removed: the [-+$] branch of [/(^-+|-+$)/g] *)
Fixpoint stripTrailingDashes (s : string) : string :=
  match s with
  | EmptyString => EmptyString
  | String c t => if allDashes s then EmptyString else String c (stripTrailingDashes t)
  end.

(** [s.replace(/-+/g, '-')]: of every run of dashes only the last one is
    kept *)
Fixpoint collapseDashRuns (s : string) : string :=
  match s with
  | EmptyString => EmptyString
  | String c t =>
      if isDash c && startsWith t "-" then collapseDashRuns t
      else String c (collapseDashRuns t)
  end.

End JS.

Import JS.

(** ** More string primitives: [String.prototype.replace] and [split] *)

Module JSReplace.

(** the text before and after the first occurrence of [pat] in [s] *)
Fixpoint splitFirst (s pat : string) : option (string * string) :=
  if startsWith s pat
  then Some (EmptyString, string_of_list_ascii
                            (List.skipn (String.length pat) (list_ascii_of_string s)))
  else match s with
       | EmptyString => None
       | String c t =>
           match splitFirst t pat with
           | Some (before, rest) => Some (String c before, rest)
           | None => None
           end
       end.

(** GetSubstitution for a string pattern (no captures): [$$], [$&], [$`]
    and [$'] are expanded in the replacement text, anything else is literal *)
Fixpoint getSubstitution (matched before rest replacement : string) : string :=
  match replacement with
  | EmptyString => EmptyString
  | String c t =>
      if Ascii.eqb c "$"%char then
        match t with
        | String d u =>
            if Ascii.eqb d "$"%char then
              String "$"%char (getSubstitution matched before rest u)
            else if Ascii.eqb d "&"%char then
              matched +:+ getSubstitution matched before rest u
            else if Ascii.eqb d "`"%char then
              before +:+ getSubstitution matched before rest u
            else if Ascii.eqb d "'"%char then
              rest +:+ getSubstitution matched before rest u
            else String c (getSubstitution matched before rest t)
        | EmptyString => String c EmptyString
        end
      else String c (getSubstitution matched before rest t)
  end.

(** [s.replace(pat, replacement)] with a string pattern: the first
    occurrence only *)
Definition replace (s pat replacement : string) : string :=
  match splitFirst s pat with
  | Some (before, rest) =>
      before +:+ getSubstitution pat before rest replacement +:+ rest
  | None => s
  end.

(** [s.split(' ')] *)
Fixpoint splitSpaces (s : string) : list string :=
  match s with
  | EmptyString => [EmptyString]
  | String c t =>
      if Ascii.eqb c " "%char then EmptyString :: splitSpaces t
      else match splitSpaces t with
           | w :: ws => String c w :: ws
           | [] => [String c EmptyString]
           end
  end.

(** a defined, non-empty string: what [if (x)] accepts *)
Definition truthy (x : option string) : option string :=
  match x with
  | Some EmptyString => None
  | other => other
  end.

End JSReplace.

Import JSReplace.

(** ** The image-title pass of [elementToMDX]

    The regular expression of [elementToMDX] (flags gmu) reads: an
    exclamation mark and an opening bracket; group 1, any run without a
    closing bracket; a closing bracket and an opening parenthesis; group 2,
    any run without a closing parenthesis; one white space and a quote;
    group 3, any run without a closing parenthesis; a quote and a closing
    parenthesis.  Every match is replaced by the image syntax made of
    group 1 and group 2 alone.  No group can hold its own closing
    character, so a match that starts at a given exclamation mark is fixed
    by the first closing bracket and the first closing parenthesis after
    it; the greedy second group ends at the last white space that is
    followed by a quote. *)

Module ImageTitle.

(** [\s] on code points 0..255 *)
Definition isSpace (c : ascii) : bool :=
  let n := N_of_ascii c in
  ((9 <=? n) && (n <=? 13) || (n =? 32) || (n =? 160))%N.

Definition isQuote (c : ascii) : bool := Ascii.eqb c "034"%char.

(** the characters before the first [stop], and those after it *)
Fixpoint breakAt (stop : ascii) (l : list ascii) : option (list ascii * list ascii) :=
  match l with
  | [] => None
  | c :: t =>
      if Ascii.eqb c stop then Some ([], t)
      else match breakAt stop t with
           | Some (before, rest) => Some (c :: before, rest)
           | None => None
           end
  end.

(** group 2 against the whole of [l]: the text before the last white
    space that is followed by a quote *)
Fixpoint lastTitleSplit (l : list ascii) : option (list ascii) :=
  match l with
  | [] => None
  | c :: t =>
      match lastTitleSplit t with
      | Some g => Some (c :: g)
      | None =>
          match t with
          | d :: _ => if isSpace c && isQuote d then Some [] else None
          | [] => None
          end
      end
  end.

(** a match of the expression at the head of [l]: the replacement text and the
    number of characters matched *)
Definition matchAt (l : list ascii) : option (list ascii * nat) :=
  match l with
  | bang :: bracket :: l1 =>
      if Ascii.eqb bang "!"%char && Ascii.eqb bracket "["%char then
        match breakAt "]"%char l1 with
        | Some (alt, paren :: l2) =>
            if Ascii.eqb paren "("%char then
              match breakAt ")"%char l2 with
              | Some (inner, _) =>
                  match List.rev inner with
                  | closing :: body =>
                      if isQuote closing then
                        match lastTitleSplit (List.rev body) with
                        | Some target =>
                            Some ((list_ascii_of_string "![" ++ alt ++
                                   list_ascii_of_string "](" ++ target ++
                                   list_ascii_of_string ")")%list,
                                  (2 + length alt + 2 + length inner + 1)%nat)
                        | None => None
                        end
                      else None
                  | [] => None
                  end
              | None => None
              end
            else None
        | _ => None
        end
      else None
  | _ => None
  end.

(** the global replace: [skip] counts the characters of the last match that
    are still to be passed over *)
Fixpoint replaceAll (skip : nat) (l : list ascii) : list ascii :=
  match l with
  | [] => []
  | c :: t =>
      match skip with
      | S skip' => replaceAll skip' t
      | O =>
          match matchAt l with
          | Some (replacement, len) =>
              (replacement ++ replaceAll (Nat.pred len) t)%list
          | None => c :: replaceAll O t
          end
      end
  end.

Definition stripImageTitles (rawMD : string) : string :=
  string_of_list_ascii (replaceAll O (list_ascii_of_string rawMD)).

End ImageTitle.

Import ImageTitle.

(** ** External collaborators

    The libraries the crawler calls are not part of the repository; the
    embedding reaches them through two interfaces. *)

(** cheerio: [dollar] is the loaded document [$], updated in place by the
    source and threaded as a value here; [elem] is an element handle. *)
Class Cheerio := {
  doc : Type;
  elem : Type;
  (** [cheerio.load(html)] *)
  load : string -> doc;
  (** [$.html()] *)
  html : doc -> string;
  (** [$(selector)], in document order *)
  select : doc -> string -> list elem;
  (** [$(element).attr(name)] *)
  attr : doc -> elem -> string -> option string;
  (** [$(element).prop('outerHTML')] *)
  outerHTML : doc -> elem -> string;
  (** [$(element).replaceWith(markup)] *)
  replaceWith : doc -> elem -> string -> doc;
  (** [$(element).after(markup)] *)
  after : doc -> elem -> string -> doc;
  (** [$(selector).html()], [None] for [null] *)
  selectHtml : doc -> string -> option string
}.

(** Node's [path] and [URL], the regular-expression engine and turndown *)
Class Platform := {
  (** [new URL(url).pathname], [None] when the constructor throws *)
  url_pathname : string -> option string;
  path_join : string -> string -> string;
  path_dirname : string -> string;
  path_basename : string -> string;
  (** [new RegExp(`^https?://(www\\.)?${domain}`)]: [None] when the source
      text is not a regular expression, else the test [link.match(re)] *)
  domainRegExp : string -> option (string -> bool);
  (** [turndownService.turndown(html)] *)
  turndown : string -> string
}.

(** ** The state of one crawl run *)

(** what an awaited [axios.get] settles to *)
Inductive response :=
| Ok (body : string)
| Failed (message : string).

(** what the run does to the outside world, newest first in [trace]; the
    page events also carry the page's computed filename *)
Inductive effect :=
| GetPage (url pageFileName fileName : string)
| GetImage (url filename : string)
| GetLinks (url : string)
| WritePage (pageFileName fileName content : string)
| WriteImage (filename bytes : string)
| ConsoleLog (line : string)
| ConsoleError (line : string).

(** [pending] holds the suspended continuations, one per awaited request
    or stream; [uncaught] collects exceptions that no handler caught *)
Record state {task : Type} := State {
  visitedPages : gset string;
  imageDownloads : gset string;
  files : gmap string string;
  trace : list effect;
  pending : list task;
  uncaught : list string
}.
Arguments state task : clear implicits.
Arguments State {task}.

(** the result of running a piece of code: it returns or it throws *)
Inductive outcome (A : Type) :=
| Returned (a : A)
| Thrown (message : string).
Arguments Returned {A} a.
Arguments Thrown {A} message.

Section Monad.
Context {task : Type}.

Definition M (A : Type) : Type := state task -> outcome A * state task.

Definition ret {A} (a : A) : M A := fun s => (Returned a, s).

Definition bind {A B} (m : M A) (k : A -> M B) : M B :=
  fun s =>
    match m s with
    | (Returned a, s') => k a s'
    | (Thrown message, s') => (Thrown message, s')
    end.

Definition throw {A} (message : string) : M A := fun s => (Thrown message, s).

(** [try { body } catch (error) { handler(error.message) }] *)
Definition tryCatch {A} (body : M A) (handler : string -> M A) : M A :=
  fun s =>
    match body s with
    | (Returned a, s') => (Returned a, s')
    | (Thrown message, s') => handler message s'
    end.

(** a call of an async function whose promise nobody awaits: a throw
    inside is an unhandled rejection *)
Definition asyncCall (m : M unit) : M unit :=
  fun s =>
    match m s with
    | (Returned _, s') => (Returned tt, s')
    | (Thrown message, s') =>
        (Returned tt,
         State (visitedPages s') (imageDownloads s') (files s') (trace s')
               (pending s') (message :: uncaught s'))
    end.

Definition emit (e : effect) : M unit :=
  fun s =>
    (Returned tt,
     State (visitedPages s) (imageDownloads s) (files s) (e :: trace s)
           (pending s) (uncaught s)).

Definition consoleLog (line : string) : M unit := emit (ConsoleLog line).
Definition consoleError (line : string) : M unit := emit (ConsoleError line).

(** a file write that has completed *)
Definition writeFile (e : effect) (filename content : string) : M unit :=
  fun s =>
    (Returned tt,
     State (visitedPages s) (imageDownloads s) (<[filename := content]> (files s))
           (e :: trace s) (pending s) (uncaught s)).

(** the current task stops at an [await]; [t] is its continuation *)
Definition suspend (t : task) : M unit :=
  fun s =>
    (Returned tt,
     State (visitedPages s) (imageDownloads s) (files s) (trace s)
           (pending s ++ [t]) (uncaught s)).

(** [visitedPages.size] *)
Definition visitedSize : M Z :=
  fun s => (Returned (Z.of_nat (size (visitedPages s))), s).

(** [visitedPages.has(name)] *)
Definition visitedHas (name : string) : M bool :=
  fun s => (Returned (bool_decide (name ∈ visitedPages s)), s).

(** [visitedPages.add(name)] *)
Definition visitedAdd (name : string) : M unit :=
  fun s =>
    (Returned tt,
     State ({[name]} ∪ visitedPages s) (imageDownloads s) (files s) (trace s)
           (pending s) (uncaught s)).

(** [imageDownloads.has(src)] *)
Definition imageHas (src : string) : M bool :=
  fun s => (Returned (bool_decide (src ∈ imageDownloads s)), s).

(** [imageDownloads.add(src)] *)
Definition imageAdd (src : string) : M unit :=
  fun s =>
    (Returned tt,
     State (visitedPages s) ({[src]} ∪ imageDownloads s) (files s) (trace s)
           (pending s) (uncaught s)).

(** [await axios.get(...)] once the request has settled to [r] *)
Definition settled (r : response) : M string :=
  match r with
  | Ok body => ret body
  | Failed message => throw message
  end.

(** [collection.each(async (index, element) => ...)]: the callbacks run
    one after the other, each as an un-awaited async call *)
Fixpoint eachAsync {A} (l : list A) (callback : nat -> A -> M unit)
    (index : nat) : M unit :=
  match l with
  | [] => ret tt
  | element :: rest =>
      bind (asyncCall (callback index element))
           (fun _ => eachAsync rest callback (S index))
  end.

(** the state after the continuation [pending !! i] has been taken out *)
Definition take (i : nat) (s : state task) : state task :=
  State (visitedPages s) (imageDownloads s) (files s) (trace s)
        (delete i (pending s)) (uncaught s).

End Monad.

Declare Scope crawl_scope.
Delimit Scope crawl_scope with crawl.
Notation "'let*' x ':=' m 'in' k" :=
  (bind m (fun x => k))
  (at level 10, x name, m at level 100, k at level 200) : crawl_scope.
Notation "m '>>' k" :=
  (bind m (fun _ => k))
  (at level 100, k at level 200, right associativity) : crawl_scope.
Open Scope crawl_scope.

(** ** Reading a run *)

Definition pageFetched (e : effect) : option string :=
  match e with
  | GetPage _ pageFileName _ => Some pageFileName
  | _ => None
  end.

Definition pageWritten (e : effect) : option string :=
  match e with
  | WritePage pageFileName _ _ => Some pageFileName
  | _ => None
  end.

Definition imageRequested (e : effect) : option string :=
  match e with
  | GetImage url _ => Some url
  | _ => None
  end.

Definition urlRequested (e : effect) : option string :=
  match e with
  | GetPage url _ _ | GetImage url _ | GetLinks url => Some url
  | _ => None
  end.

Definition isConsole (e : effect) : bool :=
  match e with
  | ConsoleLog _ | ConsoleError _ => true
  | _ => false
  end.

(** the computed filenames of the pages for which [downloadAndSavePage]
    sent its request, newest first *)
Definition fetched (tr : list effect) : list string := omap pageFetched tr.

(** the computed filenames of the page files written, newest first *)
Definition written (tr : list effect) : list string := omap pageWritten tr.

(** the image sources for which [downloadImage] sent its request *)
Definition imageRequests (tr : list effect) : list string := omap imageRequested tr.

(** every URL a request was sent to *)
Definition requests (tr : list effect) : list string := omap urlRequested tr.

Definition pageWrite (e : effect) : option (string * string) :=
  match e with
  | WritePage _ fileName content => Some (fileName, content)
  | _ => None
  end.

(** the page files written, with what was written, newest first *)
Definition pageWrites (tr : list effect) : list (string * string) :=
  omap pageWrite tr.

(** how often [x] occurs in [l] *)
Definition occurrences (x : string) (l : list string) : nat :=
  length (filter (λ y, y = x) l).

Section Logic.
Context {task : Type}.

(** [s] with the lines [l] on top of its trace *)
Definition logTo (l : list effect) (s : state task) : state task :=
  State (visitedPages s) (imageDownloads s) (files s) (l ++ trace s)
        (pending s) (uncaught s).

(** [m] returns: it does not throw *)
Definition returns {A} (m : M (task := task) A) : Prop :=
  ∀ s, ∃ a, fst (m s) = Returned a.

(** [closed] tells the sets of visited pages at which the program admits
    no further page (the page ceiling; never, in the simple pipeline) *)
Variable closed : gset string → Prop.

(** What every piece of either program does to the state, whatever else
    it does: the two sets and the set of files on disk only grow, the
    trace only grows, no exception escapes, the pages newly fetched are
    distinct pages that were not visited before and are visited now, and
    where no page is admitted any more none is fetched and none becomes
    visited. *)
Definition advances (s s' : state task) : Prop :=
  visitedPages s ⊆ visitedPages s' ∧
  imageDownloads s ⊆ imageDownloads s' ∧
  dom (files s) ⊆ dom (files s') ∧
  uncaught s' = uncaught s ∧
  (closed (visitedPages s) → visitedPages s' = visitedPages s) ∧
  ∃ l, trace s' = l ++ trace s ∧
       NoDup (fetched l) ∧
       (∀ p, p ∈ fetched l →
             ¬ closed (visitedPages s) ∧
             (p ∉ visitedPages s) ∧ p ∈ visitedPages s').

Definition advancing {A} (m : M (task := task) A) : Prop :=
  ∀ s, advances s (snd (m s)).

(** every page fetched is a visited page, and none was fetched twice *)
Definition fetchedOnce (s : state task) : Prop :=
  NoDup (fetched (trace s)) ∧
  ∀ p, p ∈ fetched (trace s) → p ∈ visitedPages s.

(** [pageOf] tells the page a continuation works for *)
Variable pageOf : task → option string.

Definition inFlight (ts : list task) : list string := omap pageOf ts.

(** a page is being fetched and transformed, or its file is written,
    never two of these and none of them twice; and only fetched pages
    get there *)
Definition oneStage (s : state task) : Prop :=
  NoDup (inFlight (pending s) ++ written (trace s)) ∧
  ∀ p, p ∈ inFlight (pending s) ++ written (trace s) → p ∈ fetched (trace s).

(** the invariant of a run *)
Definition sound (s : state task) : Prop :=
  fetchedOnce s ∧ oneStage s ∧ uncaught s = [].

(** [sound], while the continuation of page [p] is running *)
Definition soundBut (p : string) (s : state task) : Prop :=
  sound s ∧
  (p ∉ inFlight (pending s) ++ written (trace s)) ∧
  p ∈ fetched (trace s).

(** [s'] has the pages of [s] at the stages they have in [s] *)
Definition sameStages (s s' : state task) : Prop :=
  visitedPages s' = visitedPages s ∧
  fetched (trace s') = fetched (trace s) ∧
  written (trace s') = written (trace s) ∧
  inFlight (pending s') = inFlight (pending s) ∧
  uncaught s' = uncaught s.

Definition quiet {A} (m : M (task := task) A) : Prop :=
  ∀ s, sameStages s (snd (m s)).

(** [s'] is [s] but for lines on the console: no request was sent, no
    file written, no continuation added and no page marked visited *)
Definition skipped (s s' : state task) : Prop :=
  visitedPages s' = visitedPages s ∧
  imageDownloads s' = imageDownloads s ∧
  files s' = files s ∧
  pending s' = pending s ∧
  uncaught s' = uncaught s ∧
  requests (trace s') = requests (trace s) ∧
  written (trace s') = written (trace s).

(** [m], started where [P] holds, returns in a state where [Q] holds *)
Definition hoare {A} (P : state task → Prop) (m : M (task := task) A)
    (Q : state task → Prop) : Prop :=
  ∀ s, P s → (∃ a, fst (m s) = Returned a) ∧ Q (snd (m s)).

End Logic.

(** ** Functions that both programs share, word for word *)

Section Shared.
Context `{Platform} {task : Type}.

(** [new URL(url).pathname] *)
Definition newURL_pathname (url : string) : M (task := task) string :=
  match url_pathname url with
  | Some pathname => ret pathname
  | None => throw "Invalid URL"
  end.

Definition extractLocalPathFromUrl (url : string) : M (task := task) (option string) :=
  tryCatch
    (let* pathname := newURL_pathname url in ret (Some pathname))
    (fun _ => consoleError ("Invalid URL: " +:+ url) >> ret None).

(** [downloadImage(url, filename)] up to its [await axios.get(...)] *)
Definition downloadImage_request (url filename : string) : M (task := task) unit :=
  emit (GetImage url filename).

(** [downloadImage] from [await axios.get(...)] to its second [await],
    the request settled to [r]: with a response, the write stream is
    created, the response is piped into it and the function waits for the
    write stream, which is [Some data], [data] being what is piped; a
    rejected request is caught and logged, and the function has returned,
    which is [None] *)
Definition downloadImage_responded (url filename : string) (r : response)
    : M (task := task) (option string) :=
  tryCatch
    (let* data := settled r in ret (Some data))
    (fun message =>
       consoleError ("Failed to download image " +:+ url +:+ ": " +:+ message) >>
       ret None).

(** [downloadImage] from [await new Promise(...)] on: the write stream
    has emitted [finish], which is [w = Ok _] and resolves the promise, or
    [error], which is [w = Failed message] and rejects it, into the same
    [catch].  The file map holds the writes that have completed, so a
    write stream that fails leaves it as it is. *)
Definition downloadImage_settled (url filename data : string) (w : response)
    : M (task := task) unit :=
  tryCatch
    (let* _ := settled w in
     writeFile (WriteImage filename data) filename data >>
     consoleLog ("Downloaded and saved image " +:+ url +:+ " as " +:+ filename))
    (fun message =>
       consoleError ("Failed to download image " +:+ url +:+ ": " +:+ message)).

(** the state after [extractLocalPathFromUrl(url)]: an unparsable URL
    leaves a line on the console *)
Definition afterUrlCheck (url : string) (s : state task) : state task :=
  match url_pathname url with
  | Some _ => s
  | None => logTo [ConsoleError ("Invalid URL: " +:+ url)] s
  end.

(** [link.startsWith('http') ? link : `https://${link}`] *)
Definition absoluteUrlOf (link : string) : string :=
  if startsWith link "http" then link else "https://" +:+ link.

End Shared.

(** ** The richer pipeline *)

Module Rich.

Definition maxPages : Z := 1000000.

(** Ignore any files that contain these strings in their path. *)
Definition ignorePatterns : list string :=
  ["Admin"; "MyPages"; "PassWord"; "MyChanges"; "SandBox"; "Search";
   "-revisions"; "-showcode"; "-raw"; "Spam"; "MySQL"; "-edit"; "-history";
   "-backlinks"].

(** the character class of [new RegExp('[^a-öA-Ö0-9]', 'gmu')], by code
    point: a..ö is 97..246, A..Ö is 65..214, 0..9 is 48..57 *)
Definition mekanismiChar (c : ascii) : bool :=
  let n := N_of_ascii c in
  ((97 <=? n) && (n <=? 246) || (65 <=? n) && (n <=? 214) ||
   (48 <=? n) && (n <=? 57))%N.

(** [while (r.includes('--')) r = r.split('--').join('-')]; every round
    shortens [r], so [String.length r] rounds of fuel are never used up
    (lemma [collapseLoop_done]) *)
Fixpoint collapseLoop (fuel : nat) (r : string) : string :=
  match fuel with
  | O => r
  | S fuel' =>
      if includes r "--" then collapseLoop fuel' (splitJoinDashes r) else r
  end.

Definition toMekanismiURI (s : string) : string :=
  let r := replaceOutside mekanismiChar s in
  let r := collapseLoop (String.length r) r in
  if endsWith r "-" then dropLast r else r.

Definition pathSegmentToFilename (pathSegment : string) : string :=
  let sanitizedPath := toMekanismiURI pathSegment in
  if (String.length sanitizedPath =? 0)%nat || String.eqb sanitizedPath "-"
  then "index"
  else
    let sanitizedPath :=
      if startsWith sanitizedPath "-" then substring1 sanitizedPath
      else sanitizedPath in
    let sanitizedPath :=
      if endsWith sanitizedPath "-" then dropLast sanitizedPath
      else sanitizedPath in
    sanitizedPath.

Section Crawler.
Context `{Cheerio} `{Platform}.

(** the command line: [--domain] and [--root] *)
Variable domain : string.
Variable root : option string.

(** The continuations of the program, one constructor per [await] that
    waits for the network or for a stream:
    - [PageGet]: [downloadAndSavePage] waits for its streamed request,
      [crawl] waits for [downloadAndSavePage];
    - [StreamEnd]: the stream's [end] event has not fired yet;
    - [ImageGet]: the [end] handler waits for [downloadImage] at image
      [element], with the images [rest] still to do, and [downloadImage]
      waits for its request;
    - [ImageWrite]: the same, [downloadImage] now waiting for the write
      stream into which the response [data] is piped;
    - [LinksGet]: [crawl] waits for its second request.
    [pageFileName] is a local of [crawl]; the [end] handler does not see
    it, its continuations carry it along to tell whose page they work
    for. *)
Inductive task :=
| PageGet (url pageFileName fileName : string)
| StreamEnd (url pageFileName filename htmlContent : string)
| ImageGet (url pageFileName filename : string) (dollar : doc)
           (element : elem) (rest : list elem) (imgSrc localImgPath : string)
| ImageWrite (url pageFileName filename : string) (dollar : doc)
             (element : elem) (rest : list elem)
             (imgSrc localImgPath data : string)
| LinksGet (url : string).

#[local] Abbreviation M := (M (task := task)).

Definition elementToMDX (htmlContent : string) (rootElement : option string)
    : string :=
  let rootElement := default "body" rootElement in
  let dollar := load htmlContent in
  match truthy (selectHtml dollar rootElement) with
  | None => EmptyString
  | Some rootElementContent =>
      let rawMD := turndown rootElementContent in
      stripImageTitles rawMD
  end.

(** the [end] handler of [downloadAndSavePage]: what it does to an image
    once [downloadImage] is through or was not needed *)
Definition updateImage (dollar : doc) (element : elem) (imgSrc : string) : doc :=
  let imgFilename := path_basename imgSrc in
  let imgTag := outerHTML dollar element in
  let updatedImgTag := replace imgTag imgSrc imgFilename in
  let dollar := replaceWith dollar element updatedImgTag in
  match truthy (attr dollar element "class") with
  | Some imgClasses =>
      let imgClassList := splitSpaces imgClasses in
      let imgClassText :=
        String.concat EmptyString (map (fun c => "{." +:+ c +:+ "}") imgClassList) in
      let imgClassTextTag := "<p>" +:+ imgClassText +:+ "</p>" in
      after dollar element imgClassTextTag
  | None => dollar
  end.

(** the loop over [links = $('a')] *)
Fixpoint linksLoop (dollar : doc) (links : list elem) : M doc :=
  match links with
  | [] => ret dollar
  | element :: rest =>
      match truthy (attr dollar element "href") with
      | Some link =>
          if includes link domain then
            let* linkPath := extractLocalPathFromUrl link in
            match truthy linkPath with
            | Some linkPath =>
                let linkFilename := pathSegmentToFilename linkPath +:+ ".md" in
                let linkTag := outerHTML dollar element in
                let updatedLinkTag := replace linkTag link linkFilename in
                linksLoop (replaceWith dollar element updatedLinkTag) rest
            | None => linksLoop dollar rest
            end
          else linksLoop dollar rest
      | None => linksLoop dollar rest
      end
  end.

(** the [end] handler after its loop over the images *)
Definition savePage (dollar : doc) (url pageFileName filename : string) : M unit :=
  let* dollar := linksLoop dollar (select dollar "a") in
  consoleLog ("Downloaded and saved " +:+ url +:+ " as " +:+ filename) >>
  let markdownContent := elementToMDX (html dollar) root in
  writeFile (WritePage pageFileName filename markdownContent)
            filename markdownContent.

(** the loop over [images = $('img')], from the image at the head of
    [images] on; it stops where [downloadImage] has to be awaited *)
Fixpoint imagesLoop (dollar : doc) (images : list elem)
    (url pageFileName filename : string) : M unit :=
  match images with
  | [] => savePage dollar url pageFileName filename
  | element :: rest =>
      match truthy (attr dollar element "src") with
      | Some imgSrc =>
          let imgFilename := path_basename imgSrc in
          let localImgPath := path_join (path_dirname filename) imgFilename in
          let* downloaded := imageHas imgSrc in
          if negb downloaded then
            downloadImage_request imgSrc localImgPath >>
            suspend (ImageGet url pageFileName filename dollar element rest
                              imgSrc localImgPath)
          else
            imagesLoop (updateImage dollar element imgSrc) rest
                       url pageFileName filename
      | None => imagesLoop dollar rest url pageFileName filename
      end
  end.

(** [stream.on('end', async () => ...)] *)
Definition onEnd (url pageFileName filename htmlContent : string) : M unit :=
  let dollar := load htmlContent in
  let images := select dollar "img" in
  imagesLoop dollar images url pageFileName filename.

(** the request of [downloadImage] has settled: the [end] handler goes on
    waiting while [downloadImage] waits for the write stream, and resumes
    after [await downloadImage(...)] when [downloadImage] has returned *)
Definition onImageResponded (url pageFileName filename : string) (dollar : doc)
    (element : elem) (rest : list elem) (imgSrc localImgPath : string)
    (r : response) : M unit :=
  let* piped := downloadImage_responded imgSrc localImgPath r in
  match piped with
  | Some data =>
      suspend (ImageWrite url pageFileName filename dollar element rest
                          imgSrc localImgPath data)
  | None =>
      imageAdd imgSrc >>
      imagesLoop (updateImage dollar element imgSrc) rest url pageFileName filename
  end.

(** the write stream of [downloadImage] has settled: the [end] handler
    resumes after [await downloadImage(...)] *)
Definition onImageSettled (url pageFileName filename : string) (dollar : doc)
    (element : elem) (rest : list elem) (imgSrc localImgPath data : string)
    (w : response) : M unit :=
  downloadImage_settled imgSrc localImgPath data w >>
  imageAdd imgSrc >>
  imagesLoop (updateImage dollar element imgSrc) rest url pageFileName filename.

(** [downloadAndSavePage(url, filename)] up to its [await axios.get(...)] *)
Definition downloadAndSavePage_request (url pageFileName filename : string)
    : M unit :=
  emit (GetPage url pageFileName filename).

(** [downloadAndSavePage] from that [await] on: the handlers are
    registered and the function returns; the stream ends later *)
Definition downloadAndSavePage_settled (url pageFileName filename : string)
    (r : response) : M unit :=
  tryCatch
    (let* htmlContent := settled r in
     suspend (StreamEnd url pageFileName filename htmlContent))
    (fun message =>
       consoleError ("Failed to download and save " +:+ url +:+ ": " +:+ message)).

(** [crawl(url, baseFolder)] up to [await downloadAndSavePage(...)] *)
Definition crawl (url baseFolder : string) : M unit :=
  let* size := visitedSize in
  if (maxPages <=? size)%Z then ret tt
  else
    let* pagePath := extractLocalPathFromUrl url in
    let pageFileName :=
      pathSegmentToFilename (default EmptyString pagePath) +:+ ".md" in
    let* visited := visitedHas pageFileName in
    if negb visited then
      visitedAdd pageFileName >>
      if existsb (fun pattern => includes pageFileName pattern) ignorePatterns
      then consoleLog ("Ignoring " +:+ url)
      else
        let fileName := path_join baseFolder pageFileName in
        downloadAndSavePage_request url pageFileName fileName >>
        suspend (PageGet url pageFileName fileName)
    else ret tt.

(** [crawl] resumes after [await downloadAndSavePage(...)] and stops at
    [await axios.get(url)] *)
Definition onPageSettled (url pageFileName fileName : string) (r : response)
    : M unit :=
  downloadAndSavePage_settled url pageFileName fileName r >>
  emit (GetLinks url) >>
  suspend (LinksGet url).

(** [crawl] from [await axios.get(url)] on, inside its [try] *)
Definition onLinksSettled (url : string) (r : response) : M unit :=
  tryCatch
    (let* data := settled r in
     let dollar := load data in
     match domainRegExp domain with
     | None => throw "Invalid regular expression"
     | Some domainRegex =>
         let folderName := path_join "results" domain in
         eachAsync (select dollar "a")
           (fun index element =>
              match truthy (attr dollar element "href") with
              | Some link =>
                  if domainRegex link
                  then crawl (absoluteUrlOf link) folderName
                  else ret tt
              | None => ret tt
              end) O
     end)
    (fun message =>
       consoleError ("Failed to crawl " +:+ url +:+ ": " +:+ message)).

(** a continuation resumes with what its request or its write stream
    settled to (the [end] event carries nothing) *)
Definition resume (t : task) (r : response) : M unit :=
  match t with
  | PageGet url pageFileName fileName =>
      onPageSettled url pageFileName fileName r
  | StreamEnd url pageFileName filename htmlContent =>
      onEnd url pageFileName filename htmlContent
  | ImageGet url pageFileName filename dollar element rest imgSrc localImgPath =>
      onImageResponded url pageFileName filename dollar element rest
                       imgSrc localImgPath r
  | ImageWrite url pageFileName filename dollar element rest imgSrc localImgPath
               data =>
      onImageSettled url pageFileName filename dollar element rest
                     imgSrc localImgPath data r
  | LinksGet url => onLinksSettled url r
  end.

(** one turn of the event loop: the [i]-th pending continuation runs to
    its next [await] *)
Definition deliver (i : nat) (r : response) (s : state task) : state task :=
  match pending s !! i with
  | Some t => snd (asyncCall (resume t r) (take i s))
  | None => s
  end.

(** the event loop under a schedule: which continuation resumes next, and
    with what *)
Fixpoint run (schedule : list (nat * response)) (s : state task) : state task :=
  match schedule with
  | [] => s
  | (i, r) :: later => run later (deliver i r s)
  end.

(** the program's last line,
    [crawl(`https://${domain}`, path.join('results', domain))], on a disk
    that holds [disk] *)
Definition main : M unit :=
  crawl ("https://" +:+ domain) (path_join "results" domain).

Definition start (disk : gmap string string) : state task :=
  snd (asyncCall main (State ∅ ∅ disk [] [] [])).

Definition reachable (s : state task) : Prop :=
  ∃ disk schedule, s = run schedule (start disk).

(** the page a continuation works for *)
Definition pageOf (t : task) : option string :=
  match t with
  | PageGet _ pageFileName _ => Some pageFileName
  | StreamEnd _ pageFileName _ _ => Some pageFileName
  | ImageGet _ pageFileName _ _ _ _ _ _ => Some pageFileName
  | ImageWrite _ pageFileName _ _ _ _ _ _ _ => Some pageFileName
  | LinksGet _ => None
  end.

(** the image whose [downloadImage] a continuation waits for *)
Definition imageOf (t : task) : option string :=
  match t with
  | ImageGet _ _ _ _ _ _ imgSrc _ => Some imgSrc
  | ImageWrite _ _ _ _ _ _ imgSrc _ _ => Some imgSrc
  | _ => None
  end.

(** [visitedPages.size >= maxPages] *)
Definition ceiling (visited : gset string) : Prop :=
  (maxPages <= Z.of_nat (size visited))%Z.

Definition ceilingReached (s : state task) : Prop :=
  ceiling (visitedPages s).

(** the filename [crawl] computes for [url] *)
Definition pageFileNameOf (url : string) : string :=
  pathSegmentToFilename (default EmptyString (url_pathname url)) +:+ ".md".

Definition ignored (pageFileName : string) : bool :=
  existsb (fun pattern => includes pageFileName pattern) ignorePatterns.

End Crawler.

End Rich.

(** ** The simple pipeline *)

Module Simple.

(** the character class of [/[^a-zA-Z]/g] *)
Definition letterChar (c : ascii) : bool :=
  let n := N_of_ascii c in
  ((97 <=? n) && (n <=? 122) || (65 <=? n) && (n <=? 90))%N.

Definition pathSegmentToFilename (pathSegment : string) : string :=
  let cleanedPath :=
    collapseDashRuns (stripTrailingDashes (stripLeadingDashes pathSegment)) in
  let sanitizedPath := replaceOutside letterChar cleanedPath in
  if (String.length sanitizedPath =? 0)%nat then "index"
  else
    let sanitizedPath :=
      if startsWith sanitizedPath "-" then substring1 sanitizedPath
      else sanitizedPath in
    let sanitizedPath :=
      if endsWith sanitizedPath "-" then dropLast sanitizedPath
      else sanitizedPath in
    sanitizedPath.

Section Crawler.
Context `{Cheerio} `{Platform}.

(** the command line: [--domain] *)
Variable domain : string.

(** The continuations of the program:
    - [PageGet], [StreamEnd], [LinksGet]: as in the richer pipeline;
    - [FirstWrite]: the [end] handler waits for its first
      [fs.writeFile];
    - [ImageGet]: one callback of [$('img').each] waits for
      [downloadImage], which waits for its request.  What the callback
      does to [$] afterwards is never read again, the handler having
      passed [$.html()] to its last [fs.writeFile] before any callback
      resumes, so the continuation keeps the image source only;
    - [ImageWrite]: the same, [downloadImage] now waiting for the write
      stream into which the response [data] is piped. *)
Inductive task :=
| PageGet (url pageFileName fileName : string)
| StreamEnd (url pageFileName filename htmlContent : string)
| FirstWrite (url pageFileName filename : string) (dollar : doc)
| ImageGet (imgSrc localImgPath : string)
| ImageWrite (imgSrc localImgPath data : string)
| LinksGet (url : string).

#[local] Abbreviation M := (M (task := task)).

(** [stream.on('end', async () => ...)] up to its first [fs.writeFile] *)
Definition onEnd (url pageFileName filename htmlContent : string) : M unit :=
  let dollar := load htmlContent in
  let markdownContent := turndown (html dollar) in
  writeFile (WritePage pageFileName filename markdownContent)
            filename markdownContent >>
  suspend (FirstWrite url pageFileName filename dollar).

(** the synchronous part of an [each] callback for an image that is
    already in [imageDownloads] *)
Definition updateImage (dollar : doc) (element : elem) (index : nat)
    (imgSrc : string) : doc :=
  let imgFilename := path_basename imgSrc in
  let imgTag := outerHTML dollar element in
  let updatedImgTag := replace imgTag imgSrc imgFilename in
  match select dollar "img" !! index with
  | Some target => replaceWith dollar target updatedImgTag
  | None => dollar
  end.

(** [$('img').each(async (index, element) => ...)]: every callback runs
    until its first [await]; [each] does not wait for it *)
Fixpoint eachImage (dollar : doc) (images : list elem) (index : nat)
    (filename : string) : M doc :=
  match images with
  | [] => ret dollar
  | element :: rest =>
      match truthy (attr dollar element "src") with
      | Some imgSrc =>
          let imgFilename := path_basename imgSrc in
          let localImgPath := path_join (path_dirname filename) imgFilename in
          let* downloaded := imageHas imgSrc in
          if negb downloaded then
            downloadImage_request imgSrc localImgPath >>
            suspend (ImageGet imgSrc localImgPath) >>
            eachImage dollar rest (S index) filename
          else
            eachImage (updateImage dollar element index imgSrc) rest
                      (S index) filename
      | None => eachImage dollar rest (S index) filename
      end
  end.

(** the [end] handler from its first [fs.writeFile] on *)
Definition onFirstWrite (url pageFileName filename : string) (dollar : doc)
    : M unit :=
  consoleLog ("Downloaded and saved " +:+ url +:+ " as " +:+ filename) >>
  let* dollar := eachImage dollar (select dollar "img") O filename in
  writeFile (WritePage pageFileName filename (html dollar))
            filename (html dollar).

(** the request of [downloadImage] has settled: the [each] callback goes
    on waiting while [downloadImage] waits for the write stream, and
    resumes after [await downloadImage(...)] when [downloadImage] has
    returned *)
Definition onImageResponded (imgSrc localImgPath : string) (r : response)
    : M unit :=
  let* piped := downloadImage_responded imgSrc localImgPath r in
  match piped with
  | Some data => suspend (ImageWrite imgSrc localImgPath data)
  | None => imageAdd imgSrc
  end.

(** the write stream of [downloadImage] has settled: the [each] callback
    resumes after [await downloadImage(...)] *)
Definition onImageSettled (imgSrc localImgPath data : string) (w : response)
    : M unit :=
  downloadImage_settled imgSrc localImgPath data w >>
  imageAdd imgSrc.

(** [downloadAndSavePage(url, filename)] up to its [await axios.get(...)] *)
Definition downloadAndSavePage_request (url pageFileName filename : string)
    : M unit :=
  emit (GetPage url pageFileName filename).

(** [downloadAndSavePage] from that [await] on *)
Definition downloadAndSavePage_settled (url pageFileName filename : string)
    (r : response) : M unit :=
  tryCatch
    (let* htmlContent := settled r in
     suspend (StreamEnd url pageFileName filename htmlContent))
    (fun message =>
       consoleError ("Failed to download and save " +:+ url +:+ ": " +:+ message)).

(** [crawl(url, baseFolder)] up to [await downloadAndSavePage(...)] *)
Definition crawl (url baseFolder : string) : M unit :=
  let* pagePath := extractLocalPathFromUrl url in
  let pageFileName :=
    pathSegmentToFilename (default EmptyString pagePath) +:+ ".mdx" in
  let* visited := visitedHas pageFileName in
  if negb visited then
    visitedAdd pageFileName >>
    let fileName := path_join baseFolder pageFileName in
    downloadAndSavePage_request url pageFileName fileName >>
    suspend (PageGet url pageFileName fileName)
  else ret tt.

(** [crawl] resumes after [await downloadAndSavePage(...)] and stops at
    [await axios.get(url)] *)
Definition onPageSettled (url pageFileName fileName : string) (r : response)
    : M unit :=
  downloadAndSavePage_settled url pageFileName fileName r >>
  emit (GetLinks url) >>
  suspend (LinksGet url).

(** [crawl] from [await axios.get(url)] on, inside its [try] *)
Definition onLinksSettled (url : string) (r : response) : M unit :=
  tryCatch
    (let* data := settled r in
     let dollar := load data in
     match domainRegExp domain with
     | None => throw "Invalid regular expression"
     | Some domainRegex =>
         let folderName := path_join "results" domain in
         eachAsync (select dollar "a")
           (fun index element =>
              match truthy (attr dollar element "href") with
              | Some link =>
                  if domainRegex link
                  then crawl (absoluteUrlOf link) folderName
                  else ret tt
              | None => ret tt
              end) O
     end)
    (fun message =>
       consoleError ("Failed to crawl " +:+ url +:+ ": " +:+ message)).

Definition resume (t : task) (r : response) : M unit :=
  match t with
  | PageGet url pageFileName fileName =>
      onPageSettled url pageFileName fileName r
  | StreamEnd url pageFileName filename htmlContent =>
      onEnd url pageFileName filename htmlContent
  | FirstWrite url pageFileName filename dollar =>
      onFirstWrite url pageFileName filename dollar
  | ImageGet imgSrc localImgPath => onImageResponded imgSrc localImgPath r
  | ImageWrite imgSrc localImgPath data =>
      onImageSettled imgSrc localImgPath data r
  | LinksGet url => onLinksSettled url r
  end.

Definition deliver (i : nat) (r : response) (s : state task) : state task :=
  match pending s !! i with
  | Some t => snd (asyncCall (resume t r) (take i s))
  | None => s
  end.

Fixpoint run (schedule : list (nat * response)) (s : state task) : state task :=
  match schedule with
  | [] => s
  | (i, r) :: later => run later (deliver i r s)
  end.

Definition main : M unit :=
  crawl ("https://" +:+ domain) (path_join "results" domain).

Definition start (disk : gmap string string) : state task :=
  snd (asyncCall main (State ∅ ∅ disk [] [] [])).

Definition reachable (s : state task) : Prop :=
  ∃ disk schedule, s = run schedule (start disk).

Definition pageFileNameOf (url : string) : string :=
  pathSegmentToFilename (default EmptyString (url_pathname url)) +:+ ".mdx".

(** the image whose [downloadImage] a continuation waits for *)
Definition imageOf (t : task) : option string :=
  match t with
  | ImageGet imgSrc _ => Some imgSrc
  | ImageWrite imgSrc _ _ => Some imgSrc
  | _ => None
  end.

End Crawler.

End Simple.

(** ** A small executable environment

    A miniature of the collaborators, for running the two programs on
    concrete pages.  It follows cheerio, turndown, [URL] and [path] on
    entity-free body fragments with double-quoted attribute values, on
    [http] and [https] URLs, on relative paths without dot segments and on
    domains made of letters, digits, dots and dashes; outside of that it
    is not meant to agree with them. *)

Module Mini.

Definition dq : string := String "034"%char EmptyString.

(** [s] between double quotes *)
Definition quoted (s : string) : string := dq +:+ s +:+ dq.

#[warnings="-register-all"]
Inductive node :=
| Text (text : string)
| Element (id : nat) (tag : string) (attrs : list (string * string))
          (children : list node).

Record document := Document { body : list node; nextId : nat }.

Inductive token :=
| TOpen (tag : string) (attrs : list (string * string))
| TClose (tag : string)
| TText (text : string).

Inductive lexState :=
| InText (acc : string)
| InTagName (acc : string)
| InCloseName (acc : string)
| InTag (tag : string) (attrs : list (string * string))
| InAttrName (tag : string) (attrs : list (string * string)) (name : string)
| AfterEq (tag : string) (attrs : list (string * string)) (name : string)
| InAttrValue (tag : string) (attrs : list (string * string)) (name acc : string).

Definition snoc (s : string) (c : ascii) : string := s +:+ String c EmptyString.

Definition flushText (acc : string) (out : list token) : list token :=
  match acc with
  | EmptyString => out
  | _ => TText acc :: out
  end.

(** one character of markup; [out] is in reverse *)
Definition lexStep (st : lexState) (out : list token) (c : ascii)
    : lexState * list token :=
  match st with
  | InText acc =>
      if Ascii.eqb c "<"%char then (InTagName EmptyString, flushText acc out)
      else (InText (snoc acc c), out)
  | InTagName acc =>
      if Ascii.eqb c "/"%char then (InCloseName EmptyString, out)
      else if Ascii.eqb c " "%char then (InTag acc [], out)
      else if Ascii.eqb c ">"%char then (InText EmptyString, TOpen acc [] :: out)
      else (InTagName (snoc acc c), out)
  | InCloseName acc =>
      if Ascii.eqb c ">"%char then (InText EmptyString, TClose acc :: out)
      else (InCloseName (snoc acc c), out)
  | InTag tag attrs =>
      if Ascii.eqb c " "%char || Ascii.eqb c "/"%char then (InTag tag attrs, out)
      else if Ascii.eqb c ">"%char then (InText EmptyString, TOpen tag attrs :: out)
      else (InAttrName tag attrs (String c EmptyString), out)
  | InAttrName tag attrs name =>
      if Ascii.eqb c "="%char then (AfterEq tag attrs name, out)
      else if Ascii.eqb c " "%char
      then (InTag tag (attrs ++ [(name, EmptyString)]), out)
      else if Ascii.eqb c ">"%char
      then (InText EmptyString, TOpen tag (attrs ++ [(name, EmptyString)]) :: out)
      else (InAttrName tag attrs (snoc name c), out)
  | AfterEq tag attrs name =>
      if Ascii.eqb c "034"%char then (InAttrValue tag attrs name EmptyString, out)
      else (AfterEq tag attrs name, out)
  | InAttrValue tag attrs name acc =>
      if Ascii.eqb c "034"%char then (InTag tag (attrs ++ [(name, acc)]), out)
      else (InAttrValue tag attrs name (snoc acc c), out)
  end.

Fixpoint lex (st : lexState) (out : list token) (s : string) : list token :=
  match s with
  | EmptyString =>
      List.rev match st with InText acc => flushText acc out | _ => out end
  | String c t => let '(st', out') := lexStep st out c in lex st' out' t
  end.

Definition isVoid (tag : string) : bool :=
  String.eqb tag "img" || String.eqb tag "br" || String.eqb tag "hr".

(** the tags [cheerio.load] supplies by itself *)
Definition isWrapper (tag : string) : bool :=
  String.eqb tag "html" || String.eqb tag "head" || String.eqb tag "body".

(** an element that is still open: its id, tag and attributes, and its
    children so far, in reverse *)
Definition frame : Type := nat * string * list (string * string) * list node.

Definition addNode (n : node) (stack : list frame) (top : list node)
    : list frame * list node :=
  match stack with
  | (i, tag, attrs, children) :: below => ((i, tag, attrs, n :: children) :: below, top)
  | [] => ([], n :: top)
  end.

(** the end of the markup closes every open element; [child] is the
    element closed last *)
Fixpoint closeInto (child : option node) (stack : list frame) (top : list node)
    : list node :=
  let adopt (l : list node) :=
    match child with Some n => n :: l | None => l end in
  match stack with
  | (i, tag, attrs, children) :: below =>
      closeInto (Some (Element i tag attrs (List.rev (adopt children)))) below top
  | [] => List.rev (adopt top)
  end.

Definition closeAll (stack : list frame) (top : list node) : list node :=
  closeInto None stack top.

Fixpoint build (tokens : list token) (stack : list frame) (top : list node)
    (next : nat) : list node * nat :=
  match tokens with
  | [] => (closeAll stack top, next)
  | TText text :: later =>
      let '(stack', top') := addNode (Text text) stack top in
      build later stack' top' next
  | TOpen tag attrs :: later =>
      if isWrapper tag then build later stack top next
      else if isVoid tag then
        let '(stack', top') := addNode (Element next tag attrs []) stack top in
        build later stack' top' (S next)
      else build later ((next, tag, attrs, []) :: stack) top (S next)
  | TClose tag :: later =>
      if isWrapper tag then build later stack top next
      else
        match stack with
        | (i, tag', attrs, children) :: below =>
            let '(stack', top') :=
              addNode (Element i tag' attrs (List.rev children)) below top in
            build later stack' top' next
        | [] => build later stack top next
        end
  end.

(** markup to nodes, with ids from [next] on *)
Definition parse (markup : string) (next : nat) : list node * nat :=
  build (lex (InText EmptyString) [] markup) [] [] next.

Definition serializeAttrs (attrs : list (string * string)) : string :=
  String.concat EmptyString
    (map (fun kv => " " +:+ fst kv +:+ "=" +:+ quoted (snd kv)) attrs).

Fixpoint serialize (n : node) : string :=
  match n with
  | Text text => text
  | Element _ tag attrs children =>
      "<" +:+ tag +:+ serializeAttrs attrs +:+ ">" +:+
      (if isVoid tag then EmptyString
       else String.concat EmptyString (map serialize children) +:+ "</" +:+ tag +:+ ">")
  end.

Definition serializeAll (l : list node) : string :=
  String.concat EmptyString (map serialize l).

(** the elements with tag [tag] below and at [n], in document order *)
Fixpoint elementsOf (tag : string) (n : node) : list node :=
  match n with
  | Text _ => []
  | Element _ tag' _ children =>
      (if String.eqb tag tag' then [n] else []) ++
      flat_map (elementsOf tag) children
  end.

Definition idOf (n : node) : option nat :=
  match n with
  | Element i _ _ _ => Some i
  | Text _ => None
  end.

(** the node with id [target] becomes the nodes [new]; [keepOld] says
    whether it stays in front of them *)
Fixpoint splice (target : nat) (keepOld : bool) (new : list node) (n : node)
    : list node :=
  match n with
  | Text _ => [n]
  | Element i tag attrs children =>
      if (i =? target)%nat then (if keepOld then [n] else []) ++ new
      else [Element i tag attrs (flat_map (splice target keepOld new) children)]
  end.

Fixpoint findNode (target : nat) (n : node) : option node :=
  match n with
  | Text _ => None
  | Element i _ _ children =>
      if (i =? target)%nat then Some n
      else
        (fix firstIn (l : list node) : option node :=
           match l with
           | [] => None
           | m :: l' =>
               match findNode target m with
               | Some found => Some found
               | None => firstIn l'
               end
           end) children
  end.

Definition findInBody (d : document) (target : nat) : option node :=
  findNode target (Element 0 "body" [] (body d)).

Definition lookupAttr (name : string) (attrs : list (string * string))
    : option string :=
  match List.find (fun kv => String.eqb (fst kv) name) attrs with
  | Some kv => Some (snd kv)
  | None => None
  end.

(** [element.replaceWith] and [element.after]: nothing happens when the
    element is not in the document any more *)
Definition spliceIn (d : document) (e : node) (keepOld : bool) (markup : string)
    : document :=
  match idOf e with
  | Some i =>
      match findInBody d i with
      | Some _ =>
          let '(nodes, next) := parse markup (nextId d) in
          Document (flat_map (splice i keepOld nodes) (body d)) next
      | None => d
      end
  | None => d
  end.

#[export] Instance cheerio : Cheerio := {|
  doc := document;
  elem := node;
  load markup := let '(nodes, next) := parse markup 1 in Document nodes next;
  html d := "<html><head></head><body>" +:+ serializeAll (body d) +:+ "</body></html>";
  select d selector :=
    if String.eqb selector "body" then [Element 0 "body" [] (body d)]
    else flat_map (elementsOf selector) (body d);
  attr d e name :=
    match e with
    | Element _ _ attrs _ => lookupAttr name attrs
    | Text _ => None
    end;
  outerHTML d e :=
    match idOf e with
    | Some i => serialize (default e (findInBody d i))
    | None => serialize e
    end;
  replaceWith d e markup := spliceIn d e false markup;
  after d e markup := spliceIn d e true markup;
  selectHtml d selector :=
    if String.eqb selector "body" then Some (serializeAll (body d))
    else
      match flat_map (elementsOf selector) (body d) with
      | Element _ _ _ children :: _ => Some (serializeAll children)
      | _ => None
      end
|}.

(** turndown on inline content: links and images become Markdown, other
    tags fall away *)
Fixpoint render (n : node) : string :=
  match n with
  | Text text => text
  | Element _ tag attrs children =>
      let inner := String.concat EmptyString (map render children) in
      if String.eqb tag "a" then
        match lookupAttr "href" attrs with
        | Some href => "[" +:+ inner +:+ "](" +:+ href +:+ ")"
        | None => inner
        end
      else if String.eqb tag "img" then
        "![" +:+ default EmptyString (lookupAttr "alt" attrs) +:+ "](" +:+
        default EmptyString (lookupAttr "src" attrs) +:+
        match lookupAttr "title" attrs with
        | Some title => " " +:+ quoted title
        | None => EmptyString
        end +:+ ")"
      else inner
  end.

Fixpoint takeUntil (stop : ascii -> bool) (s : string) : string * string :=
  match s with
  | EmptyString => (EmptyString, EmptyString)
  | String c t =>
      if stop c then (EmptyString, s)
      else let '(before, rest) := takeUntil stop t in (String c before, rest)
  end.

Fixpoint dropChars (n : nat) (s : string) : string :=
  match n, s with
  | S n', String _ t => dropChars n' t
  | _, _ => s
  end.

(** what follows [http://] or [https://] *)
Definition afterScheme (url : string) : option string :=
  if startsWith url "https://" then Some (dropChars 8 url)
  else if startsWith url "http://" then Some (dropChars 7 url)
  else None.

Definition isPathEnd (c : ascii) : bool :=
  Ascii.eqb c "?"%char || Ascii.eqb c "#"%char.

Definition pathname (url : string) : option string :=
  match afterScheme url with
  | Some rest =>
      let '(host, tail) :=
        takeUntil (fun c => Ascii.eqb c "/"%char || isPathEnd c) rest in
      match host with
      | EmptyString => None
      | _ =>
          if startsWith tail "/" then Some (fst (takeUntil isPathEnd tail))
          else Some "/"
      end
  | None => None
  end.

(** the text after the last slash, and the text before it *)
Fixpoint lastSegment (s : string) : string :=
  match s with
  | EmptyString => EmptyString
  | String c t =>
      if includes t "/" then lastSegment t
      else if Ascii.eqb c "/"%char then t else s
  end.

Fixpoint beforeLastSlash (s : string) : string :=
  match s with
  | EmptyString => EmptyString
  | String c t =>
      if includes t "/" then String c (beforeLastSlash t)
      else if Ascii.eqb c "/"%char then EmptyString else "."
  end.

(** the pattern text of a plain domain: a dot matches any character *)
Fixpoint matchesPrefix (pattern text : string) : bool :=
  match pattern, text with
  | EmptyString, _ => true
  | String p pattern', String c text' =>
      (Ascii.eqb p "."%char || Ascii.eqb p c) && matchesPrefix pattern' text'
  | String _ _, EmptyString => false
  end.

#[export] Instance platform : Platform := {|
  url_pathname := pathname;
  path_join a b := a +:+ "/" +:+ b;
  path_dirname := beforeLastSlash;
  path_basename := lastSegment;
  domainRegExp domain :=
    Some (fun link =>
            match afterScheme link with
            | Some rest =>
                (startsWith rest "www." && matchesPrefix domain (dropChars 4 rest))
                || matchesPrefix domain rest
            | None => false
            end);
  turndown markup := String.concat EmptyString (map render (fst (parse markup 1)))
|}.

End Mini.

(** ** Pages and states to run the programs on *)

Module Examples.
Import Mini.

Definition domain : string := "example.com".

(** the anchor of the link-rewriting example *)
Definition fooBarPage : string :=
  "<a href=" +:+ quoted "https://example.com/Foo-Bar" +:+ ">x</a>".

(** the same anchor with the URL in its title as well *)
Definition titledLinkPage : string :=
  "<a title=" +:+ quoted "https://example.com/Foo-Bar" +:+
  " href=" +:+ quoted "https://example.com/Foo-Bar" +:+ ">x</a>".

Definition helloPage : string := "<p>Hello</p>".

Definition image : string :=
  "<img src=" +:+ quoted "https://example.com/a.png" +:+ ">".

(** a page that shows one image twice *)
Definition imageTwicePage : string := image +:+ image.

(** a page with the image and a link to a page [A] *)
Definition imageAndLinkPage : string :=
  image +:+ "<a href=" +:+ quoted "https://example.com/A" +:+ ">A</a>".

(** what an absolute same-domain URL starts with: a scheme, then the
    domain, with or without [www.]; as in the crawler's own expression
    for an internal link, the domain is read as the beginning of the
    host *)
Definition absoluteSameDomain : list string :=
  ["https://" +:+ domain; "http://" +:+ domain;
   "https://www." +:+ domain; "http://www." +:+ domain].

(** the output guarantee of the specification, in its words: the text
    contains no absolute same-domain URL, be the text Markdown or HTML *)
Definition sameDomainFree (text : string) : bool :=
  forallb (fun absolute => negb (includes text absolute)) absoluteSameDomain.

(** the document of [page] after the richer pipeline's loop over its
    links, as HTML *)
Definition linksRewritten (page : string) : string :=
  let dollar := load page in
  match fst (Rich.linksLoop domain dollar (select dollar "a")
               (Rich.start domain ∅)) with
  | Returned dollar' => html dollar'
  | Thrown _ => EmptyString
  end.

(** a filename stem for every positive number, over the letters a and b *)
Fixpoint posName (p : positive) : string :=
  match p with
  | xH => EmptyString
  | xO q => String "a"%char (posName q)
  | xI q => String "b"%char (posName q)
  end.

Definition pageName (n : nat) : string := posName (Pos.of_succ_nat n) +:+ ".md".

(** [k] visited pages *)
Definition manyPages (k : nat) : gset string :=
  list_to_set (map pageName (seq 0 k)).

(** a crawl that has visited as many pages as the ceiling allows; nothing
    else matters here *)
Definition fullState : state Rich.task :=
  State (manyPages (Z.to_nat Rich.maxPages)) ∅ ∅ [] [] [].

(** the richer pipeline on [page] as the root page: the streamed request
    settles, the stream ends, the second request settles *)
Definition richRun (page : string) : state Rich.task :=
  Rich.run domain None [(0, Ok page); (0, Ok EmptyString); (0, Ok page)]%nat
           (Rich.start domain ∅).

(** the simple pipeline on [page] as the root page, up to the end of the
    [end] handler *)
Definition simpleRun (page : string) : state Simple.task :=
  Simple.run domain [(0, Ok page); (0, Ok EmptyString); (1, Ok EmptyString)]%nat
             (Simple.start domain ∅).

(** the richer pipeline when the image of the root page is still being
    downloaded while page [A], which shows it too, ends its stream *)
Definition overlappingRun : state Rich.task :=
  Rich.run domain None
    [(0, Ok imageAndLinkPage); (0, Ok EmptyString); (0, Ok imageAndLinkPage);
     (1, Ok image); (1, Ok EmptyString)]%nat
    (Rich.start domain ∅).

(** the richer pipeline when the root page's streamed request fails and
    its second request succeeds *)
Definition failedThenFound : list (nat * response) :=
  [(0, Failed "Request failed with status code 500"); (0, Ok fooBarPage)]%nat.

End Examples.

(** what the URL Normalizer promises of a filename stem *)
Definition cleanName (f : string) : Prop :=
  f ≠ EmptyString ∧ includes f "--" = false ∧
  startsWith f "-" = false ∧ endsWith f "-" = false.

(** no character of [s] is in the class [keep] *)
Fixpoint allOutside (keep : ascii -> bool) (s : string) : bool :=
  match s with
  | EmptyString => true
  | String c t => negb (keep c) && allOutside keep t
  end.

(** the simple pipeline has no page ceiling *)
Definition never (visited : gset string) : Prop := False.


(** ** Character classes of whole strings *)

(** every character of [s] is in the class [p] *)
Fixpoint allChars (p : ascii -> bool) (s : string) : bool :=
  match s with
  | EmptyString => true
  | String c t => p c && allChars p t
  end.

(** any character but [stop] *)
Definition notChar (stop : ascii) (c : ascii) : bool := negb (Ascii.eqb c stop).

Definition notDash (c : ascii) : bool := negb (isDash c).

(** what the richer pipeline lets into a filename stem *)
Definition richNameChar (c : ascii) : bool := Rich.mekanismiChar c || isDash c.

(** what the simple pipeline lets into a filename stem *)
Definition simpleNameChar (c : ascii) : bool := Simple.letterChar c || isDash c.

(** ** Relations between the states before and after a piece of code *)

Section Keeping.
Context {task : Type}.

(** [m] takes every state to one that [R] relates to it *)
Definition keeps (R : state task → state task → Prop) {A}
    (m : M (task := task) A) : Prop :=
  ∀ s, R s (snd (m s)).

(** [s] with one more unhandled rejection *)
Definition rejected (message : string) (s : state task) : state task :=
  State (visitedPages s) (imageDownloads s) (files s) (trace s)
        (pending s) (message :: uncaught s).

(** a relation that sequences of steps keep, rejected promises included *)
Class Stepwise (R : state task → state task → Prop) := {
  step_refl : ∀ s, R s s;
  step_trans : ∀ s1 s2 s3, R s1 s2 → R s2 s3 → R s1 s3;
  step_rejected : ∀ s message, R s (rejected message s)
}.

(** [I] holds afterwards if it held before *)
Definition preserving (I : state task → Prop) (s s' : state task) : Prop :=
  I s → I s'.

(** Once [src] is in [imageDownloads] it stays there, and no further
    request is sent for it. *)
Definition imageSettled (src : string) (s s' : state task) : Prop :=
  src ∈ imageDownloads s →
  src ∈ imageDownloads s' ∧
  occurrences src (imageRequests (trace s')) =
  occurrences src (imageRequests (trace s)).

(** The continuations that wait in [s] wait in [s'] too, in their order;
    what [s'] has more stands behind them. *)
Definition appended (s s' : state task) : Prop :=
  ∃ new, pending s' = pending s ++ new.

(** [s] after a [downloadImage] that failed: its [catch] has logged
    [message], and the caller has added [imgSrc] to [imageDownloads] *)
Definition imageFailed (imgSrc message : string) (s : state task) : state task :=
  State (visitedPages s) ({[imgSrc]} ∪ imageDownloads s) (files s)
        (ConsoleError ("Failed to download image " +:+ imgSrc +:+ ": " +:+ message) ::
         trace s)
        (pending s) (uncaught s).

(** [s] after a [downloadAndSavePage] whose request failed: its [catch]
    has logged [message], and [crawl] has sent its second request to the
    same URL and waits for it in [waiting] *)
Definition pageFailed (waiting : task) (url message : string) (s : state task)
    : state task :=
  State (visitedPages s) (imageDownloads s) (files s)
        (GetLinks url ::
         ConsoleError ("Failed to download and save " +:+ url +:+ ": " +:+ message) ::
         trace s)
        (pending s ++ [waiting]) (uncaught s).

End Keeping.

(** the URLs to which [crawl] sent its second request, the one for the
    links of a page *)
Definition linksRequested (e : effect) : option string :=
  match e with
  | GetLinks url => Some url
  | _ => None
  end.

Definition linkRequests (tr : list effect) : list string := omap linksRequested tr.

(** the URLs to which [downloadAndSavePage] sent its request *)
Definition pageRequested (e : effect) : option string :=
  match e with
  | GetPage url _ _ => Some url
  | _ => None
  end.

Definition pageRequests (tr : list effect) : list string := omap pageRequested tr.

(** ** Where a crawl goes and what it leaves *)

Section Reach.
Context `{Platform}.
Variable domain : string.

(** the folder the program's last line passes to [crawl] *)
Definition folder : string := path_join "results" domain.

(** the URLs that [crawl] is called with: the root, and the links that
    passed the test against the domain's regular expression *)
Definition crawled (url : string) : Prop :=
  url = "https://" +:+ domain ∨
  ∃ domainRegex link,
    domainRegExp domain = Some domainRegex ∧ domainRegex link = true ∧
    url = absoluteUrlOf link.

End Reach.

Module RichRun.

(** [visitedPages.size <= maxPages] *)
Definition withinCeiling {task} (s : state task) : Prop :=
  (Z.of_nat (size (visitedPages s)) <= Rich.maxPages)%Z.

Section Shape.
Context `{Cheerio} `{Platform}.
Variable domain : string.

(** [pageFileName] and [fileName] are what [crawl] computes for [url],
    a URL it is called with, and the page is not an ignored one *)
Definition pageFile (url pageFileName fileName : string) : Prop :=
  crawled domain url ∧ pageFileName = Rich.pageFileNameOf url ∧
  Rich.ignored pageFileName = false ∧
  fileName = path_join (folder domain) pageFileName.

(** where a page goes *)
Definition pagePath (fileName : string) : Prop :=
  ∃ url pageFileName, pageFile url pageFileName fileName.

(** where an image goes: beside the file of a page, under the last
    segment of its source *)
Definition imagePath (filename : string) : Prop :=
  ∃ fileName imgSrc,
    pagePath fileName ∧
    filename = path_join (path_dirname fileName) (path_basename imgSrc).

Definition goodEvent (e : effect) : Prop :=
  match e with
  | GetPage url pageFileName fileName => pageFile url pageFileName fileName
  | GetLinks url => crawled domain url
  | WritePage pageFileName fileName _ =>
      ∃ url, pageFile url pageFileName fileName
  | GetImage _ filename => imagePath filename
  | WriteImage filename _ => imagePath filename
  | ConsoleLog _ | ConsoleError _ => True
  end.

Definition goodTask (t : Rich.task) : Prop :=
  match t with
  | Rich.PageGet url pageFileName fileName => pageFile url pageFileName fileName
  | Rich.StreamEnd url pageFileName filename _ =>
      pageFile url pageFileName filename
  | Rich.ImageGet url pageFileName filename _ _ _ imgSrc localImgPath
  | Rich.ImageWrite url pageFileName filename _ _ _ imgSrc localImgPath _ =>
      pageFile url pageFileName filename ∧
      localImgPath = path_join (path_dirname filename) (path_basename imgSrc)
  | Rich.LinksGet url => crawled domain url
  end.

(** what holds of every event, of every waiting continuation and of every
    file of a run that started on [disk] *)
Definition wellFormed (disk : gmap string string) (s : state Rich.task) : Prop :=
  Forall goodEvent (trace s) ∧
  Forall goodTask (pending s) ∧
  ∀ f, f ∈ dom (files s) → f ∈ dom disk ∨ pagePath f ∨ imagePath f.

(** the page requests that wait for their response *)
Definition pageAwaited (t : Rich.task) : option string :=
  match t with
  | Rich.PageGet url _ _ => Some url
  | _ => None
  end.

Definition pagesAwaited (ts : list Rich.task) : list string := omap pageAwaited ts.

(** both sides of the balance grow by the same URLs: the second requests
    sent and the page requests still awaited on one side, the page
    requests sent on the other *)
Definition balanced (s s' : state Rich.task) : Prop :=
  ∃ l, linkRequests (trace s') ++ pagesAwaited (pending s') ≡ₚ
       l ++ linkRequests (trace s) ++ pagesAwaited (pending s) ∧
       pageRequests (trace s') ≡ₚ l ++ pageRequests (trace s).

End Shape.

End RichRun.

Module SimpleRun.

Section Shape.
Context `{Cheerio} `{Platform}.
Variable domain : string.

(** [pageFileName] and [fileName] are what [crawl] computes for [url],
    a URL it is called with *)
Definition pageFile (url pageFileName fileName : string) : Prop :=
  crawled domain url ∧ pageFileName = Simple.pageFileNameOf url ∧
  fileName = path_join (folder domain) pageFileName.

(** where a page goes *)
Definition pagePath (fileName : string) : Prop :=
  ∃ url pageFileName, pageFile url pageFileName fileName.

(** where an image goes: beside the file of a page, under the last
    segment of its source *)
Definition imagePath (filename : string) : Prop :=
  ∃ fileName imgSrc,
    pagePath fileName ∧
    filename = path_join (path_dirname fileName) (path_basename imgSrc).

Definition goodEvent (e : effect) : Prop :=
  match e with
  | GetPage url pageFileName fileName => pageFile url pageFileName fileName
  | GetLinks url => crawled domain url
  | WritePage pageFileName fileName _ =>
      ∃ url, pageFile url pageFileName fileName
  | GetImage _ filename => imagePath filename
  | WriteImage filename _ => imagePath filename
  | ConsoleLog _ | ConsoleError _ => True
  end.

Definition goodTask (t : Simple.task) : Prop :=
  match t with
  | Simple.PageGet url pageFileName fileName =>
      pageFile url pageFileName fileName
  | Simple.StreamEnd url pageFileName filename _ =>
      pageFile url pageFileName filename
  | Simple.FirstWrite url pageFileName filename _ =>
      pageFile url pageFileName filename
  | Simple.ImageGet _ localImgPath
  | Simple.ImageWrite _ localImgPath _ => imagePath localImgPath
  | Simple.LinksGet url => crawled domain url
  end.

(** what holds of every event, of every waiting continuation and of every
    file of a run that started on [disk] *)
Definition wellFormed (disk : gmap string string) (s : state Simple.task) : Prop :=
  Forall goodEvent (trace s) ∧
  Forall goodTask (pending s) ∧
  ∀ f, f ∈ dom (files s) → f ∈ dom disk ∨ pagePath f ∨ imagePath f.

(** the page requests that wait for their response *)
Definition pageAwaited (t : Simple.task) : option string :=
  match t with
  | Simple.PageGet url _ _ => Some url
  | _ => None
  end.

Definition pagesAwaited (ts : list Simple.task) : list string := omap pageAwaited ts.

(** both sides of the balance grow by the same URLs *)
Definition balanced (s s' : state Simple.task) : Prop :=
  ∃ l, linkRequests (trace s') ++ pagesAwaited (pending s') ≡ₚ
       l ++ linkRequests (trace s) ++ pagesAwaited (pending s) ∧
       pageRequests (trace s') ≡ₚ l ++ pageRequests (trace s).

End Shape.

End SimpleRun.

(** ** More pages and states to run the programs on *)

Module MoreExamples.
Import Mini Examples.

(** a page with one link, to another site *)
Definition foreignLinkPage : string :=
  "<a href=" +:+ quoted "https://other.org/x" +:+ ">x</a>".

(** the [end] handler of the root page is about to run on a page that
    shows one image twice, and the image is downloaded already *)
Definition richImageKnown : state Rich.task :=
  State ∅ {["https://example.com/a.png"]} ∅ []
        [Rich.StreamEnd "https://example.com" "index.md"
                        "results/example.com/index.md" imageTwicePage]
        [].

(** the same for the simple pipeline, after its first write *)
Definition simpleImageKnown : state Simple.task :=
  State ∅ {["https://example.com/a.png"]} ∅ []
        [Simple.FirstWrite "https://example.com" ".mdx"
                           "results/example.com/.mdx" (load imageTwicePage)]
        [].

(** a page with one link, to another site, that names the domain in its
    query *)
Definition foreignReferrerPage : string :=
  "<a href=" +:+ quoted "https://other.org/?ref=example.com" +:+ ">x</a>".

(** the richer pipeline waits for the first image of a root page that
    shows one image twice *)
Definition richImageAwaited : state Rich.task :=
  Rich.run domain None [(0, Ok imageTwicePage); (0, Ok EmptyString)]%nat
           (Rich.start domain ∅).

(** the simple pipeline waits for both images of that page *)
Definition simpleImageAwaited : state Simple.task :=
  Simple.run domain
    [(0, Ok imageTwicePage); (0, Ok EmptyString); (1, Ok EmptyString)]%nat
    (Simple.start domain ∅).

End MoreExamples.


(** * Facts

    ** The URL Normalizer of the richer pipeline *)

Module NormalizerFacts.

Lemma isDash_true c : isDash c = true ↔ c = "-"%char.
Proof. unfold isDash. apply Ascii.eqb_eq. Qed.

Lemma startsWith_dash c t : startsWith (String c t) "-" = isDash c.
Proof. simpl. apply andb_true_r. Qed.

Lemma startsWith_dashes a b u :
  startsWith (String a (String b u)) "--" = isDash a && isDash b.
Proof. simpl. by rewrite andb_true_r. Qed.

Lemma includes_dashes_cons a b u :
  includes (String a (String b u)) "--" =
  isDash a && isDash b || includes (String b u) "--".
Proof.
  change (includes (String a (String b u)) "--")
    with (startsWith (String a (String b u)) "--" || includes (String b u) "--").
  by rewrite startsWith_dashes.
Qed.

Lemma includes_dashes_one a : includes (String a EmptyString) "--" = false.
Proof. simpl. by rewrite andb_false_r. Qed.

Lemma splitJoinDashes_length r :
  String.length (splitJoinDashes r) ≤ String.length r ∧
  (includes r "--" = true → String.length (splitJoinDashes r) < String.length r).
Proof.
  remember (String.length r) as n eqn:Hn.
  revert r Hn. induction (lt_wf n) as [n _ IH]. intros r ->.
  destruct r as [|a [|b u]].
  - simpl. split; [lia|]. discriminate.
  - split; [simpl; lia|]. rewrite includes_dashes_one. discriminate.
  - change (splitJoinDashes (String a (String b u)))
      with (if isDash a && isDash b then String "-" (splitJoinDashes u)
            else String a (splitJoinDashes (String b u))).
    rewrite includes_dashes_cons.
    destruct (isDash a && isDash b); simpl.
    + destruct (IH (String.length u)) with (r := u) as [Hle _]; [simpl; lia|done|].
      split; [lia|]. intros _. lia.
    + destruct (IH (String.length (String b u))) with (r := String b u)
        as [Hle Hlt]; [simpl; lia|done|].
      simpl in *. split; [lia|]. intros Hin. specialize (Hlt Hin). lia.
Qed.

Lemma collapseLoop_done fuel r :
  String.length r ≤ fuel → includes (Rich.collapseLoop fuel r) "--" = false.
Proof.
  revert r. induction fuel as [|fuel IH]; intros r Hlen.
  - destruct r; [done|simpl in Hlen; lia].
  - simpl. destruct (includes r "--") eqn:Hin; [|done].
    apply IH. destruct (splitJoinDashes_length r) as [_ Hlt].
    specialize (Hlt Hin). lia.
Qed.

Lemma endsWith_one a : endsWith (String a EmptyString) "-" = isDash a.
Proof. simpl. unfold isDash. by destruct (Ascii.eqb a "-"). Qed.

Lemma endsWith_cons a b u :
  endsWith (String a (String b u)) "-" = endsWith (String b u) "-".
Proof.
  change (endsWith (String a (String b u)) "-")
    with (String.eqb (String a (String b u)) "-" || endsWith (String b u) "-").
  simpl. by destruct (Ascii.eqb a "-").
Qed.

Lemma dropLast_clean s :
  includes s "--" = false → endsWith s "-" = true →
  includes (dropLast s) "--" = false ∧ endsWith (dropLast s) "-" = false.
Proof.
  induction s as [|a s IH]; [done|].
  destruct s as [|b u]; [done|].
  rewrite includes_dashes_cons, endsWith_cons.
  intros [Hab Hin]%orb_false_elim Hend.
  destruct (IH Hin Hend) as [IH1 IH2].
  change (dropLast (String a (String b u)))
    with (String a (dropLast (String b u))).
  destruct u as [|c v].
  - rewrite endsWith_one in Hend. rewrite Hend, andb_true_r in Hab.
    change (dropLast (String b EmptyString)) with EmptyString.
    by rewrite includes_dashes_one, endsWith_one.
  - change (dropLast (String b (String c v)))
      with (String b (dropLast (String c v))) in *.
    rewrite includes_dashes_cons, endsWith_cons, Hab, IH1, IH2. done.
Qed.

Lemma toMekanismiURI_clean s :
  includes (Rich.toMekanismiURI s) "--" = false ∧
  endsWith (Rich.toMekanismiURI s) "-" = false.
Proof.
  unfold Rich.toMekanismiURI.
  set (r := Rich.collapseLoop _ _).
  assert (Hr : includes r "--" = false) by (apply collapseLoop_done; lia).
  destruct (endsWith r "-") eqn:Hend; [|done].
  by apply dropLast_clean.
Qed.

Lemma pathSegmentToFilename_clean pathSegment :
  cleanName (Rich.pathSegmentToFilename pathSegment).
Proof.
  unfold Rich.pathSegmentToFilename.
  destruct (toMekanismiURI_clean pathSegment) as [Hin Hend].
  destruct (Rich.toMekanismiURI pathSegment) as [|a u] eqn:Ht;
    [by repeat split|].
  destruct (_ || _) eqn:Hidx; [by repeat split|].
  rewrite startsWith_dash.
  destruct (isDash a) eqn:Ha.
  - destruct u as [|b w].
    + simpl in Hidx. apply isDash_true in Ha. by subst a.
    + rewrite includes_dashes_cons, Ha in Hin.
      apply orb_false_elim in Hin as [Hb Hin]. simpl in Hb.
      rewrite endsWith_cons in Hend. simpl substring1. rewrite Hend.
      repeat split; [done|done| |done]. by rewrite startsWith_dash.
  - rewrite Hend. repeat split; [done|done| |done]. by rewrite startsWith_dash.
Qed.

Lemma replaceOutside_allDashes keep s :
  allOutside keep s = true → allDashes (replaceOutside keep s) = true.
Proof.
  induction s as [|c t IH]; [done|]. simpl.
  intros [Hc Ht]%andb_prop. apply negb_true_iff in Hc. rewrite Hc. simpl. auto.
Qed.

Lemma splitJoinDashes_allDashes r :
  allDashes r = true → allDashes (splitJoinDashes r) = true.
Proof.
  remember (String.length r) as n eqn:Hn.
  revert r Hn. induction (lt_wf n) as [n _ IH]. intros r ->.
  destruct r as [|a [|b u]]; [done|done|].
  change (splitJoinDashes (String a (String b u)))
    with (if isDash a && isDash b then String "-" (splitJoinDashes u)
          else String a (splitJoinDashes (String b u))).
  change (allDashes (String a (String b u)))
    with (isDash a && (isDash b && allDashes u)).
  intros [Ha [Hb Hu]%andb_prop]%andb_prop. rewrite Ha, Hb. simpl.
  apply (IH (String.length u)); [simpl; lia|done|done].
Qed.

Lemma collapseLoop_allDashes fuel r :
  allDashes r = true → allDashes (Rich.collapseLoop fuel r) = true.
Proof.
  revert r. induction fuel as [|fuel IH]; intros r Hr; [done|]. simpl.
  destruct (includes r "--"); [|done]. by apply IH, splitJoinDashes_allDashes.
Qed.

Lemma allDashes_clean x :
  allDashes x = true → includes x "--" = false → x = EmptyString ∨ x = "-".
Proof.
  destruct x as [|a [|b u]]; [by left| |].
  - simpl. intros Ha _. right. rewrite andb_true_r in Ha.
    apply isDash_true in Ha. by subst a.
  - change (allDashes (String a (String b u)))
      with (isDash a && (isDash b && allDashes u)).
    rewrite includes_dashes_cons.
    intros [Ha [Hb Hu]%andb_prop]%andb_prop. by rewrite Ha, Hb.
Qed.

(** a path of separators only is named index by the richer pipeline *)
Lemma rich_separators_only_is_index pathSegment :
  allOutside Rich.mekanismiChar pathSegment = true →
  Rich.pathSegmentToFilename pathSegment = "index".
Proof.
  intros Hall. unfold Rich.pathSegmentToFilename.
  assert (Ht : Rich.toMekanismiURI pathSegment = EmptyString).
  { unfold Rich.toMekanismiURI.
    set (r := Rich.collapseLoop _ _).
    assert (Hd : allDashes r = true)
      by by apply collapseLoop_allDashes, replaceOutside_allDashes.
    assert (Hc : includes r "--" = false) by (apply collapseLoop_done; lia).
    by destruct (allDashes_clean r Hd Hc) as [->| ->]. }
  by rewrite Ht.
Qed.

(** the root path and the empty path are named index by the richer
    pipeline *)
Lemma rich_root_is_index :
  Rich.pathSegmentToFilename "/" = "index" ∧
  Rich.pathSegmentToFilename EmptyString = "index".
Proof. split; reflexivity. Qed.

End NormalizerFacts.


(** ** What every piece of code does to the state *)

Section LogicFacts.
Context {task : Type}.
Implicit Types s : state task.

Lemma fetched_app (l1 l2 : list effect) : fetched (l1 ++ l2) = fetched l1 ++ fetched l2.
Proof. apply omap_app. Qed.

Lemma written_app (l1 l2 : list effect) : written (l1 ++ l2) = written l1 ++ written l2.
Proof. apply omap_app. Qed.

Variable closed : gset string → Prop.
Hypothesis closed_up : ∀ V V' : gset string, V ⊆ V' → closed V → closed V'.

#[local] Abbreviation advances := (advances (task := task) closed).
#[local] Abbreviation advancing m := (advancing (task := task) closed m).

Lemma advances_refl s : advances s s.
Proof.
  do 5 (split; [done|]). exists []. split; [done|]. split; [constructor|].
  intros p Hp. by apply elem_of_nil in Hp.
Qed.

Lemma advances_trans s1 s2 s3 : advances s1 s2 → advances s2 s3 → advances s1 s3.
Proof.
  intros (Hv & Hi & Hf & Hu & Hc & l & Hl & Hnd & Hnew)
         (Hv' & Hi' & Hf' & Hu' & Hc' & l' & Hl' & Hnd' & Hnew').
  split; [by etrans|]. split; [by etrans|]. split; [by etrans|].
  split; [congruence|].
  split.
  { intros Hcl. rewrite Hc', (Hc Hcl); [done|]. by rewrite (Hc Hcl). }
  exists (l' ++ l). split; [by rewrite Hl', Hl, app_assoc|].
  rewrite fetched_app. split.
  - apply NoDup_app. split; [done|]. split; [|done].
    intros p Hp' Hp. destruct (Hnew' p Hp') as (_ & Hfresh & _).
    destruct (Hnew p Hp) as (_ & _ & Hin). done.
  - intros p [Hp|Hp]%elem_of_app.
    + destruct (Hnew' p Hp) as (Hopen & Hfresh & Hin). split; [|split; [|done]].
      * intros Hcl. by apply Hopen, (closed_up (visitedPages s1)).
      * intros Hp1. by apply Hfresh, Hv.
    + destruct (Hnew p Hp) as (Hopen & Hfresh & Hin).
      split; [done|]. split; [done|]. by apply Hv'.
Qed.

(** a change that fetches no page, visits none and leaves [uncaught] alone *)
Lemma advances_quiet s s' l :
  visitedPages s' = visitedPages s → imageDownloads s ⊆ imageDownloads s' →
  dom (files s) ⊆ dom (files s') → uncaught s' = uncaught s →
  trace s' = l ++ trace s → fetched l = [] → advances s s'.
Proof.
  intros Hv Hi Hf Hu Hl Hnone. split; [by rewrite Hv|].
  do 4 (split; [done|]).
  exists l. rewrite Hnone. split; [done|]. split; [constructor|].
  intros p Hp. by apply elem_of_nil in Hp.
Qed.

Lemma advances_fetchedOnce s s' : advances s s' → fetchedOnce s → fetchedOnce s'.
Proof.
  intros (Hv & _ & _ & _ & _ & l & Hl & Hnd & Hnew) [Hnd0 Hin0].
  unfold fetchedOnce. rewrite Hl, fetched_app. split.
  - apply NoDup_app. split; [done|]. split; [|done].
    intros p Hp Hp0. destruct (Hnew p Hp) as (_ & Hfresh & _). by apply Hfresh, Hin0.
  - intros p [Hp|Hp]%elem_of_app; [by apply Hnew|]. by apply Hv, Hin0.
Qed.

(** once no page is admitted, the visited pages and the pages fetched
    stay as they are *)
Lemma advances_closed s s' :
  advances s s' → closed (visitedPages s) →
  visitedPages s' = visitedPages s ∧ fetched (trace s') = fetched (trace s).
Proof.
  intros (_ & _ & _ & _ & Hc & l & Hl & _ & Hnew) Hcl. split; [by apply Hc|].
  rewrite Hl, fetched_app. destruct (fetched l) as [|p ps] eqn:Hf; [done|].
  destruct (Hnew p) as [Hopen _]; [by left|]. done.
Qed.

Lemma advancing_ret {A} (a : A) : advancing (ret a).
Proof. intros s. apply advances_refl. Qed.

Lemma advancing_throw {A} message : advancing (throw (A := A) message).
Proof. intros s. apply advances_refl. Qed.

Lemma advancing_bind {A B} (m : M A) (k : A → M B) :
  advancing m → (∀ a, advancing (k a)) → advancing (bind m k).
Proof.
  intros Hm Hk s. unfold bind. specialize (Hm s).
  destruct (m s) as [[a|message] s1]; simpl in *; [|done].
  eapply advances_trans; [done|]. apply Hk.
Qed.

Lemma advancing_tryCatch {A} (body : M A) handler :
  advancing body → (∀ message, advancing (handler message)) →
  advancing (tryCatch body handler).
Proof.
  intros Hm Hk s. unfold tryCatch. specialize (Hm s).
  destruct (body s) as [[a|message] s1]; simpl in *; [done|].
  eapply advances_trans; [done|]. apply Hk.
Qed.

Lemma advancing_asyncCall (m : M unit) :
  returns m → advancing m → advancing (asyncCall m).
Proof.
  intros Hr Hm s. unfold asyncCall. specialize (Hm s). destruct (Hr s) as [a Ha].
  destruct (m s) as [[?|message] s1]; simpl in *; [done|discriminate].
Qed.

Lemma returns_ret {A} (a : A) : returns (task := task) (ret a).
Proof. intros s. by exists a. Qed.

Lemma returns_bind {A B} (m : M A) (k : A → M B) :
  returns m → (∀ a, returns (k a)) → returns (task := task) (bind m k).
Proof.
  intros Hm Hk s. unfold bind. destruct (Hm s) as [a Ha].
  destruct (m s) as [[a'|message] s1]; simpl in *; [|discriminate].
  apply Hk.
Qed.

Lemma returns_tryCatch {A} (body : M A) handler :
  (∀ message, returns (handler message)) →
  returns (task := task) (tryCatch body handler).
Proof.
  intros Hk s. unfold tryCatch.
  destruct (body s) as [[a|message] s1]; simpl; [by exists a|]. apply Hk.
Qed.

Lemma returns_asyncCall (m : M unit) : returns (task := task) (asyncCall m).
Proof.
  intros s. unfold asyncCall. exists tt.
  by destruct (m s) as [[?|message] s1].
Qed.

Lemma returns_eachAsync {A} (l : list A) callback index :
  returns (task := task) (eachAsync l callback index).
Proof.
  revert index. induction l as [|x l IH]; intros index; simpl.
  - apply returns_ret.
  - apply returns_bind; [apply returns_asyncCall|]. intros _. apply IH.
Qed.

Lemma advancing_eachAsync {A} (l : list A) callback index :
  (∀ i x, returns (callback i x)) → (∀ i x, advancing (callback i x)) →
  advancing (eachAsync l callback index).
Proof.
  intros Hr Ha. revert index. induction l as [|x l IH]; intros index; simpl.
  - apply advancing_ret.
  - apply advancing_bind; [by apply advancing_asyncCall|]. intros _. apply IH.
Qed.

Lemma advancing_emit e : pageFetched e = None → advancing (emit e).
Proof.
  intros He s. apply advances_quiet with (l := [e]); try done.
  unfold fetched. simpl. by rewrite He.
Qed.

Lemma advancing_writeFile e filename content :
  pageFetched e = None → advancing (writeFile e filename content).
Proof.
  intros He s. apply advances_quiet with (l := [e]); try done.
  - simpl. rewrite dom_insert_L. set_solver.
  - unfold fetched. simpl. by rewrite He.
Qed.

Lemma advancing_suspend t : advancing (suspend t).
Proof. intros s. by apply advances_quiet with (l := []). Qed.

Lemma advancing_imageAdd src : advancing (imageAdd src).
Proof. intros s. apply advances_quiet with (l := []); try done. simpl. set_solver. Qed.

Lemma advancing_imageHas src : advancing (imageHas src).
Proof. intros s. apply advances_refl. Qed.

Lemma advancing_visitedHas name : advancing (visitedHas name).
Proof. intros s. apply advances_refl. Qed.

Lemma advancing_visitedSize : advancing visitedSize.
Proof. intros s. apply advances_refl. Qed.

Lemma advancing_settled r : advancing (settled r).
Proof. destruct r; [apply advancing_ret|apply advancing_throw]. Qed.

Lemma returns_emit e : returns (task := task) (emit e).
Proof. intros s. by exists tt. Qed.

Lemma returns_writeFile e filename content :
  returns (task := task) (writeFile e filename content).
Proof. intros s. by exists tt. Qed.

Lemma returns_suspend t : returns (task := task) (suspend t).
Proof. intros s. by exists tt. Qed.

Lemma returns_visitedAdd name : returns (task := task) (visitedAdd name).
Proof. intros s. by exists tt. Qed.

Lemma returns_imageAdd src : returns (task := task) (imageAdd src).
Proof. intros s. by exists tt. Qed.

Lemma returns_imageHas src : returns (task := task) (imageHas src).
Proof. intros s. by eexists. Qed.

Lemma returns_visitedHas name : returns (task := task) (visitedHas name).
Proof. intros s. by eexists. Qed.

Lemma returns_visitedSize : returns (task := task) visitedSize.
Proof. intros s. by eexists. Qed.

Context `{Platform}.

Lemma advancing_extractLocalPathFromUrl url :
  advancing (extractLocalPathFromUrl url).
Proof.
  apply advancing_tryCatch.
  - apply advancing_bind; [|intros; apply advancing_ret].
    unfold newURL_pathname. destruct (url_pathname url);
      [apply advancing_ret|apply advancing_throw].
  - intros _. apply advancing_bind; [by apply advancing_emit|].
    intros; apply advancing_ret.
Qed.

Lemma returns_extractLocalPathFromUrl url :
  returns (task := task) (extractLocalPathFromUrl url).
Proof.
  apply returns_tryCatch. intros _.
  apply returns_bind; [apply returns_emit|]. intros; apply returns_ret.
Qed.

Lemma advancing_downloadImage_responded url filename r :
  advancing (downloadImage_responded url filename r).
Proof.
  apply advancing_tryCatch.
  - apply advancing_bind; [apply advancing_settled|]. intros data.
    apply advancing_ret.
  - intros message. apply advancing_bind; [by apply advancing_emit|].
    intros _. apply advancing_ret.
Qed.

Lemma returns_downloadImage_responded url filename r :
  returns (task := task) (downloadImage_responded url filename r).
Proof.
  apply returns_tryCatch. intros message.
  apply returns_bind; [apply returns_emit|]. intros _. apply returns_ret.
Qed.

Lemma advancing_downloadImage_settled url filename data w :
  advancing (downloadImage_settled url filename data w).
Proof.
  apply advancing_tryCatch.
  - apply advancing_bind; [apply advancing_settled|]. intros _.
    apply advancing_bind; [by apply advancing_writeFile|].
    intros _. by apply advancing_emit.
  - intros message. by apply advancing_emit.
Qed.

Lemma returns_downloadImage_settled url filename data w :
  returns (task := task) (downloadImage_settled url filename data w).
Proof. apply returns_tryCatch. intros message. apply returns_emit. Qed.

End LogicFacts.

(** ** The stages of a page *)

Section StageFacts.
Context {task : Type}.
Variable pageOf : task → option string.
Implicit Types s : state task.

Lemma sameStages_refl s : sameStages pageOf s s.
Proof. by repeat split. Qed.

Lemma sameStages_trans s1 s2 s3 :
  sameStages pageOf s1 s2 → sameStages pageOf s2 s3 → sameStages pageOf s1 s3.
Proof.
  intros (?&?&?&?&?) (?&?&?&?&?). repeat split; congruence.
Qed.

Lemma sound_sameStages s s' : sameStages pageOf s s' → sound pageOf s → sound pageOf s'.
Proof.
  intros (Hv & Hf & Hw & Hi & Hu) ([Hnd Hin] & [Hnd' Hin'] & Hunc).
  unfold sound, fetchedOnce, oneStage. rewrite Hv, Hf, Hw, Hi, Hu. done.
Qed.

Lemma soundBut_sameStages p s s' : sameStages pageOf s s' → soundBut pageOf p s → soundBut pageOf p s'.
Proof.
  intros Hs (Hsound & Hp & Hpf). pose proof Hs as (Hv & Hf & Hw & Hi & Hu).
  split; [by apply (sound_sameStages s)|]. by rewrite Hf, Hw, Hi.
Qed.

Lemma soundBut_sound p s : soundBut pageOf p s → sound pageOf s.
Proof. by intros [? _]. Qed.

Lemma quiet_ret {A} (a : A) : quiet pageOf (ret a).
Proof. intros s. apply sameStages_refl. Qed.

Lemma quiet_throw {A} message : quiet pageOf (throw (A := A) message).
Proof. intros s. apply sameStages_refl. Qed.

Lemma quiet_bind {A B} (m : M A) (k : A → M B) :
  quiet pageOf m → (∀ a, quiet pageOf (k a)) → quiet pageOf (bind m k).
Proof.
  intros Hm Hk s. unfold bind. specialize (Hm s).
  destruct (m s) as [[a|message] s1]; simpl in *; [|done].
  eapply sameStages_trans; [done|]. apply Hk.
Qed.

Lemma quiet_tryCatch {A} (body : M A) handler :
  quiet pageOf body → (∀ message, quiet pageOf (handler message)) →
  quiet pageOf (tryCatch body handler).
Proof.
  intros Hm Hk s. unfold tryCatch. specialize (Hm s).
  destruct (body s) as [[a|message] s1]; simpl in *; [done|].
  eapply sameStages_trans; [done|]. apply Hk.
Qed.

Lemma quiet_emit e :
  pageFetched e = None → pageWritten e = None → quiet pageOf (emit e).
Proof.
  intros Hf Hw s. unfold sameStages, fetched, written. simpl.
  by rewrite Hf, Hw.
Qed.

Lemma quiet_writeFile e filename content :
  pageFetched e = None → pageWritten e = None →
  quiet pageOf (writeFile e filename content).
Proof.
  intros Hf Hw s. unfold sameStages, fetched, written. simpl.
  by rewrite Hf, Hw.
Qed.

Lemma quiet_imageAdd src : quiet pageOf (imageAdd src).
Proof. intros s. by repeat split. Qed.

Lemma quiet_imageHas src : quiet pageOf (imageHas src).
Proof. intros s. apply sameStages_refl. Qed.

Lemma quiet_settled r : quiet pageOf (settled r).
Proof. destruct r; [apply quiet_ret|apply quiet_throw]. Qed.

Lemma quiet_suspend t : pageOf t = None → quiet pageOf (suspend t).
Proof.
  intros Ht s. unfold sameStages, inFlight. simpl.
  rewrite omap_app. simpl. rewrite Ht. by rewrite app_nil_r.
Qed.

Lemma hoare_bind {A B} (P R Q : state task → Prop) (m : M A) (k : A → M B) :
  hoare P m R → (∀ a, hoare R (k a) Q) → hoare P (bind m k) Q.
Proof.
  intros Hm Hk s HP. destruct (Hm s HP) as [[a Ha] HR]. unfold bind.
  destruct (m s) as [[a'|message] s1]; simpl in *; [|discriminate].
  by apply Hk.
Qed.

Lemma hoare_quiet {A} (P : state task → Prop) (m : M A) :
  (∀ s s', sameStages pageOf s s' → P s → P s') →
  returns m → quiet pageOf m → hoare P m P.
Proof. intros HP Hr Hq s Hs. split; [apply Hr|]. by apply (HP s). Qed.

Lemma hoare_weaken {A} (P P' Q Q' : state task → Prop) (m : M A) :
  (∀ s, P' s → P s) → (∀ s, Q s → Q' s) → hoare P m Q → hoare P' m Q'.
Proof. intros HP HQ Hm s Hs. destruct (Hm s (HP s Hs)). split; auto. Qed.

Lemma hoare_ret {A} (P : state task → Prop) (a : A) : hoare P (ret a) P.
Proof. intros s Hs. split; [by exists a|done]. Qed.

Lemma hoare_asyncCall (P Q : state task → Prop) (m : M unit) :
  hoare P m Q → hoare P (asyncCall m) Q.
Proof.
  intros Hm s Hs. destruct (Hm s Hs) as [[a Ha] HQ]. unfold asyncCall.
  destruct (m s) as [[?|message] s1]; simpl in *; [|discriminate].
  split; [by exists tt|done].
Qed.

Lemma hoare_eachAsync {A} (P : state task → Prop) (l : list A) callback index :
  (∀ i x, hoare P (callback i x) P) → hoare P (eachAsync l callback index) P.
Proof.
  intros Hc. revert index. induction l as [|x l IH]; intros index; simpl.
  - apply hoare_ret.
  - eapply hoare_bind; [apply hoare_asyncCall, Hc|]. intros _. apply IH.
Qed.

(** the continuation of page [p] suspends again *)
Lemma hoare_suspend_page p t :
  pageOf t = Some p → hoare (soundBut pageOf p) (suspend t) (sound pageOf).
Proof.
  intros Ht s ((Hf & [Hnd Hin] & Hu) & Hp & Hpf). split; [by exists tt|].
  split; [done|]. split; [|done]. unfold oneStage, inFlight in *.
  simpl. rewrite omap_app. simpl. rewrite Ht. simpl. split.
  - rewrite <-app_assoc. simpl. apply NoDup_app in Hnd as (Hn1 & Hdisj & Hn2).
    apply NoDup_app. split; [done|]. split.
    + intros q Hq [->|Hq']%elem_of_cons.
      * apply Hp, elem_of_app. by left.
      * by apply (Hdisj q).
    + constructor; [|done]. intros Hq. apply Hp, elem_of_app. by right.
  - intros q Hq. rewrite <-app_assoc in Hq. simpl in Hq.
    apply elem_of_app in Hq as [Hq|[->|Hq]%elem_of_cons]; [|done|].
    + apply Hin, elem_of_app. by left.
    + apply Hin, elem_of_app. by right.
Qed.

(** the continuation of page [p] writes the page's file *)
Lemma hoare_write_page p filename content :
  hoare (soundBut pageOf p) (writeFile (WritePage p filename content) filename content)
        (sound pageOf).
Proof.
  intros s (([Hfn Hfv] & [Hnd Hin] & Hu) & Hp & Hpf). split; [by exists tt|].
  split; [done|]. split; [|done]. unfold oneStage in *. simpl.
  change (written (WritePage p filename content :: trace s))
    with (p :: written (trace s)).
  change (fetched (WritePage p filename content :: trace s))
    with (fetched (trace s)).
  split.
  - apply NoDup_app in Hnd as (Hn1 & Hdisj & Hn2).
    apply NoDup_app. split; [done|]. split.
    + intros q Hq [->|Hq']%elem_of_cons.
      * apply Hp, elem_of_app. by left.
      * by apply (Hdisj q).
    + constructor; [|done]. intros Hq. apply Hp, elem_of_app. by right.
  - intros q [Hq|[->|Hq]%elem_of_cons]%elem_of_app; [|done|].
    + apply Hin, elem_of_app. by left.
    + apply Hin, elem_of_app. by right.
Qed.

(** the continuation at [i] is taken out to run *)
Lemma take_sound i t s :
  sound pageOf s → pending s !! i = Some t →
  match pageOf t with
  | Some p => soundBut pageOf p (take i s)
  | None => sound pageOf (take i s)
  end.
Proof.
  intros (Hf & [Hnd Hin] & Hu) Hi.
  assert (Hperm : inFlight pageOf (pending s) ≡ₚ
                  from_option (λ p, [p]) [] (pageOf t) ++ inFlight pageOf (delete i (pending s))).
  { unfold inFlight. rewrite (delete_Permutation _ _ _ Hi) at 1.
    simpl. by destruct (pageOf t). }
  destruct (pageOf t) as [p|]; simpl in Hperm.
  - rewrite Hperm in Hnd. simpl in Hnd. apply NoDup_cons in Hnd as [Hp Hnd].
    split; [|split; [done|]].
    + split; [done|]. split; [|done]. split; [done|].
      intros q Hq. apply Hin. rewrite Hperm. simpl. by right.
    + apply Hin. rewrite Hperm. by left.
  - split; [done|]. split; [|done]. split.
    + by rewrite Hperm in Hnd.
    + intros q Hq. apply Hin. by rewrite Hperm.
Qed.

Context `{Platform}.

Lemma quiet_extractLocalPathFromUrl url : quiet pageOf (extractLocalPathFromUrl url).
Proof.
  apply quiet_tryCatch.
  - apply quiet_bind; [|intros; apply quiet_ret].
    unfold newURL_pathname. destruct (url_pathname url);
      [apply quiet_ret|apply quiet_throw].
  - intros _. apply quiet_bind; [by apply quiet_emit|].
    intros; apply quiet_ret.
Qed.

Lemma quiet_downloadImage_responded url filename r :
  quiet pageOf (downloadImage_responded url filename r).
Proof.
  apply quiet_tryCatch.
  - apply quiet_bind; [apply quiet_settled|]. intros data. apply quiet_ret.
  - intros message. apply quiet_bind; [by apply quiet_emit|].
    intros _. apply quiet_ret.
Qed.

Lemma quiet_downloadImage_settled url filename data w :
  quiet pageOf (downloadImage_settled url filename data w).
Proof.
  apply quiet_tryCatch.
  - apply quiet_bind; [apply quiet_settled|]. intros _.
    apply quiet_bind; [by apply quiet_writeFile|].
    intros _. by apply quiet_emit.
  - intros message. by apply quiet_emit.
Qed.

End StageFacts.


(** ** The richer pipeline *)

Module RichFacts.
Import Rich.

Section Facts.
Context `{Cheerio} `{Platform}.
Variable domain : string.
Variable root : option string.

#[local] Abbreviation task := Rich.task.
Implicit Types s : state task.

Lemma rich_crawl_eq url baseFolder s :
  crawl url baseFolder s =
  (Returned tt,
   if (maxPages <=? Z.of_nat (size (visitedPages s)))%Z then s
   else
     let s1 := afterUrlCheck url s in
     let p := pageFileNameOf url in
     if decide (p ∈ visitedPages s) then s1
     else if ignored p then
       State ({[p]} ∪ visitedPages s) (imageDownloads s) (files s)
             (ConsoleLog ("Ignoring " +:+ url) :: trace s1)
             (pending s) (uncaught s)
     else
       State ({[p]} ∪ visitedPages s) (imageDownloads s) (files s)
             (GetPage url p (path_join baseFolder p) :: trace s1)
             (pending s ++ [PageGet url p (path_join baseFolder p)])
             (uncaught s)).
Proof.
  unfold crawl, bind, visitedSize.
  destruct (_ <=? _)%Z; [done|].
  unfold extractLocalPathFromUrl, newURL_pathname, tryCatch, bind,
    afterUrlCheck, pageFileNameOf.
  destruct (url_pathname url) as [pathname|]; cbn -[existsb].
  - unfold visitedHas. destruct (decide (_ ∈ _)) as [Hin|Hin].
    + by rewrite bool_decide_eq_true_2.
    + rewrite bool_decide_eq_false_2 by done. cbn -[existsb].
      unfold ignored. by destruct (existsb _ _).
  - unfold visitedHas. cbn -[existsb]. destruct (decide (_ ∈ _)) as [Hin|Hin].
    + by rewrite bool_decide_eq_true_2.
    + rewrite bool_decide_eq_false_2 by done. cbn -[existsb].
      unfold ignored. by destruct (existsb _ _).
Qed.

Lemma ceiling_up (V V' : gset string) : V ⊆ V' → ceiling V → ceiling V'.
Proof.
  unfold ceiling. intros Hsub Hc. apply subseteq_size in Hsub. lia.
Qed.

#[local] Abbreviation advances := (advances (task := task) ceiling).

Lemma rich_afterUrlCheck_advances url s : advances s (afterUrlCheck url s).
Proof.
  unfold afterUrlCheck. destruct (url_pathname url).
  - apply advances_refl.
  - by apply advances_quiet with (l := [ConsoleError ("Invalid URL: " +:+ url)]).
Qed.

Lemma rich_crawl_returns url baseFolder : returns (crawl url baseFolder).
Proof. intros s. exists tt. by rewrite rich_crawl_eq. Qed.

Lemma rich_crawl_advancing url baseFolder : advancing ceiling (crawl url baseFolder).
Proof.
  intros s. rewrite rich_crawl_eq. cbn [snd].
  destruct (_ <=? _)%Z eqn:Hc; [apply advances_refl|].
  apply Z.leb_nle in Hc.
  destruct (decide _) as [Hin|Hin]; [apply rich_afterUrlCheck_advances|].
  set (p := pageFileNameOf url) in *.
  assert (Hopen : ¬ ceiling (visitedPages s)) by done.
  assert (∃ l, trace (afterUrlCheck url s) = l ++ trace s ∧ fetched l = [])
    as (l & Hl & Hl0).
  { unfold afterUrlCheck. destruct (url_pathname url).
    - by exists [].
    - by exists [ConsoleError ("Invalid URL: " +:+ url)]. }
  unfold fetched in Hl0.
  destruct (ignored p).
  - split; [set_solver|]. do 3 (split; [done|]). split; [done|].
    exists (ConsoleLog ("Ignoring " +:+ url) :: l). cbn [trace]. rewrite Hl.
    split; [done|]. unfold fetched. cbn. rewrite Hl0. split; [constructor|].
    intros q Hq. by apply elem_of_nil in Hq.
  - split; [set_solver|]. do 3 (split; [done|]). split; [done|].
    exists (GetPage url p (path_join baseFolder p) :: l). cbn [trace]. rewrite Hl.
    split; [done|]. unfold fetched. cbn. rewrite Hl0.
    split; [apply NoDup_singleton|].
    intros q Hq%list_elem_of_singleton. subst q.
    split; [done|]. split; [done|]. set_solver.
Qed.

Ltac side := solve [apply ceiling_up | reflexivity].

Ltac advance :=
  repeat first
    [ progress cbv zeta
    | solve [apply advancing_ret; try side]
    | solve [apply advancing_throw; try side]
    | solve [apply advancing_emit; try side]
    | solve [apply advancing_writeFile; try side]
    | solve [apply advancing_suspend; try side]
    | solve [apply advancing_imageAdd; try side]
    | solve [apply advancing_imageHas; try side]
    | solve [apply advancing_settled; try side]
    | solve [apply advancing_extractLocalPathFromUrl; try side]
    | solve [apply advancing_downloadImage_responded; try side]
    | solve [apply advancing_downloadImage_settled; try side]
    | apply rich_crawl_advancing
    | apply advancing_bind; [side| |intros ?]
    | apply advancing_tryCatch; [side| |intros ?]
    | match goal with
      | |- advancing _ (match ?x with _ => _ end) => destruct x
      | |- advancing _ (if ?x then _ else _) => destruct x
      end ].

Ltac give_back :=
  repeat first
    [ progress cbv zeta
    | apply returns_ret | apply returns_emit | apply returns_writeFile
    | apply returns_suspend | apply returns_imageAdd
    | apply returns_imageHas | apply returns_visitedHas
    | apply returns_extractLocalPathFromUrl
    | apply returns_downloadImage_responded
    | apply returns_downloadImage_settled
    | apply rich_crawl_returns
    | apply returns_eachAsync
    | apply returns_tryCatch; intros ?
    | apply returns_bind; [|intros ?]
    | match goal with
      | |- returns (match ?x with _ => _ end) => destruct x
      | |- returns (if ?x then _ else _) => destruct x
      end ].

Lemma rich_linksLoop_returns links dollar : returns (linksLoop domain dollar links).
Proof.
  revert dollar. induction links as [|element rest IH]; intros dollar;
    cbn [linksLoop]; give_back; apply IH.
Qed.

Lemma rich_linksLoop_advancing links dollar : advancing ceiling (linksLoop domain dollar links).
Proof.
  revert dollar. induction links as [|element rest IH]; intros dollar;
    cbn [linksLoop]; advance; apply IH.
Qed.

Lemma rich_savePage_returns dollar url p filename :
  returns (savePage domain root dollar url p filename).
Proof. unfold savePage. give_back; apply rich_linksLoop_returns. Qed.

Lemma rich_savePage_advancing dollar url p filename :
  advancing ceiling (savePage domain root dollar url p filename).
Proof. unfold savePage. advance; apply rich_linksLoop_advancing. Qed.

Lemma rich_imagesLoop_returns images dollar url p filename :
  returns (imagesLoop domain root dollar images url p filename).
Proof.
  revert dollar. induction images as [|element rest IH]; intros dollar;
    cbn [imagesLoop]; [apply rich_savePage_returns|].
  give_back; apply IH.
Qed.

Lemma rich_imagesLoop_advancing images dollar url p filename :
  advancing ceiling (imagesLoop domain root dollar images url p filename).
Proof.
  revert dollar. induction images as [|element rest IH]; intros dollar;
    cbn [imagesLoop]; [apply rich_savePage_advancing|].
  advance; apply IH.
Qed.

Lemma rich_resume_returns t r : returns (resume domain root t r).
Proof.
  destruct t; cbn [resume].
  - unfold onPageSettled, downloadAndSavePage_settled. give_back.
  - apply rich_imagesLoop_returns.
  - unfold onImageResponded. give_back; apply rich_imagesLoop_returns.
  - unfold onImageSettled. give_back; apply rich_imagesLoop_returns.
  - unfold onLinksSettled. give_back.
Qed.

Lemma rich_resume_advancing t r : advancing ceiling (resume domain root t r).
Proof.
  destruct t; cbn [resume].
  - unfold onPageSettled, downloadAndSavePage_settled. advance.
  - apply rich_imagesLoop_advancing.
  - unfold onImageResponded. advance; apply rich_imagesLoop_advancing.
  - unfold onImageSettled. advance; apply rich_imagesLoop_advancing.
  - unfold onLinksSettled. advance.
    apply advancing_eachAsync; [apply ceiling_up| |]; intros i x.
    + give_back.
    + advance.
Qed.

Lemma rich_take_advances i s : advances s (take i s).
Proof. by apply advances_quiet with (l := []). Qed.

Lemma rich_deliver_advances i r s : advances s (deliver domain root i r s).
Proof.
  unfold deliver. destruct (pending s !! i) as [t|]; [|apply advances_refl].
  apply (advances_trans ceiling ceiling_up _ (take i s)); [apply rich_take_advances|].
  apply advancing_asyncCall; [apply rich_resume_returns|apply rich_resume_advancing].
Qed.

Lemma rich_run_advances schedule s : advances s (run domain root schedule s).
Proof.
  revert s. induction schedule as [|[i r] later IH]; intros s; simpl.
  - apply advances_refl.
  - apply (advances_trans ceiling ceiling_up _ (deliver domain root i r s));
      [apply rich_deliver_advances|apply IH].
Qed.

(** ** Every page is at one stage at most *)

#[local] Abbreviation sound := (sound (task := task) pageOf).
#[local] Abbreviation soundBut := (soundBut (task := task) pageOf).

Ltac hush :=
  repeat first
    [ progress cbv zeta
    | solve [apply quiet_ret] | solve [apply quiet_throw]
    | solve [apply quiet_emit; reflexivity]
    | solve [apply quiet_writeFile; reflexivity]
    | solve [apply quiet_suspend; reflexivity]
    | solve [apply quiet_imageAdd] | solve [apply quiet_imageHas]
    | solve [apply quiet_settled]
    | solve [apply quiet_extractLocalPathFromUrl]
    | solve [apply quiet_downloadImage_responded]
    | solve [apply quiet_downloadImage_settled]
    | apply quiet_bind; [|intros ?]
    | apply quiet_tryCatch; [|intros ?]
    | match goal with
      | |- quiet _ (match ?x with _ => _ end) => destruct x
      | |- quiet _ (if ?x then _ else _) => destruct x
      end ].

Lemma rich_linksLoop_quiet links dollar : quiet pageOf (linksLoop domain dollar links).
Proof.
  revert dollar. induction links as [|element rest IH]; intros dollar;
    cbn [linksLoop]; hush; apply IH.
Qed.

(** a piece of code that moves no page keeps the invariant *)
Lemma hoare_still {A} p (m : M A) :
  returns m → quiet pageOf m → hoare (soundBut p) m (soundBut p).
Proof. apply hoare_quiet. intros s s'. apply soundBut_sameStages. Qed.

Lemma hoare_still_sound {A} (m : M A) :
  returns m → quiet pageOf m → hoare sound m sound.
Proof. apply hoare_quiet. intros s s'. apply sound_sameStages. Qed.

Lemma rich_savePage_sound dollar url p filename :
  hoare (soundBut p) (savePage domain root dollar url p filename) sound.
Proof.
  unfold savePage.
  eapply hoare_bind;
    [apply hoare_still; [apply rich_linksLoop_returns|apply rich_linksLoop_quiet]|].
  intros dollar'.
  eapply hoare_bind; [apply hoare_still; [give_back|hush]|].
  intros _. apply hoare_write_page.
Qed.

Lemma rich_imagesLoop_sound images dollar url p filename :
  hoare (soundBut p) (imagesLoop domain root dollar images url p filename) sound.
Proof.
  revert dollar. induction images as [|element rest IH]; intros dollar;
    cbn [imagesLoop]; [apply rich_savePage_sound|].
  destruct (truthy _) as [imgSrc|]; [|apply IH].
  eapply hoare_bind; [apply hoare_still; [give_back|hush]|].
  intros downloaded. destruct (negb downloaded); [|apply IH].
  eapply hoare_bind; [apply hoare_still; [give_back|unfold downloadImage_request; hush]|].
  intros _. by apply hoare_suspend_page.
Qed.

Lemma rich_crawl_sound url baseFolder : hoare sound (crawl url baseFolder) sound.
Proof.
  intros s Hs. split; [apply rich_crawl_returns|].
  pose proof (rich_crawl_advancing url baseFolder s) as Hadv.
  destruct Hs as (Hf & [Hnd Hin] & Hu).
  split; [by apply (advances_fetchedOnce ceiling s)|].
  split; [|by destruct Hadv as (_ & _ & _ & -> & _)].
  clear Hadv. rewrite rich_crawl_eq. cbn [snd].
  destruct (_ <=? _)%Z; [done|].
  assert (Hs1 : sameStages pageOf s (afterUrlCheck url s)).
  { unfold afterUrlCheck. destruct (url_pathname url); by repeat split. }
  assert (H1 : oneStage pageOf (afterUrlCheck url s)).
  { by apply (sound_sameStages pageOf s). }
  destruct (decide _) as [Hv|Hv]; [done|].
  destruct Hs1 as (_ & Hf1 & Hw1 & Hi1 & _).
  set (p := pageFileNameOf url) in *.
  assert (Hp : p ∉ inFlight pageOf (pending s) ++ written (trace s)).
  { intros Hp. apply Hv. destruct Hf as [_ Hfv]. by apply Hfv, Hin. }
  destruct (ignored p).
  - destruct H1 as [Hnd1 Hin1]. split; cbn [pending trace].
    + change (written (ConsoleLog _ :: ?t)) with (written t).
      by rewrite Hw1.
    + change (written (ConsoleLog _ :: ?t)) with (written t).
      change (fetched (ConsoleLog _ :: ?t)) with (fetched t).
      rewrite Hw1, Hf1. done.
  - split; cbn [pending trace].
    + change (written (GetPage _ _ _ :: ?t)) with (written t). rewrite Hw1.
      unfold inFlight. rewrite omap_app. simpl. rewrite <-app_assoc. simpl.
      apply NoDup_app in Hnd as (Hn1 & Hdisj & Hn2).
      apply NoDup_app. split; [done|]. split.
      * intros q Hq [->|Hq']%elem_of_cons.
        -- apply Hp, elem_of_app. by left.
        -- by apply (Hdisj q).
      * constructor; [|done]. intros Hq. apply Hp, elem_of_app. by right.
    + change (written (GetPage _ _ _ :: ?t)) with (written t).
      change (fetched (GetPage ?u ?q ?f :: ?t)) with (q :: fetched t).
      rewrite Hw1, Hf1. unfold inFlight. rewrite omap_app. simpl.
      rewrite <-app_assoc. simpl.
      intros q [Hq|[->|Hq]%elem_of_cons]%elem_of_app; [|by left|].
      * right. apply Hin, elem_of_app. by left.
      * right. apply Hin, elem_of_app. by right.
Qed.

Lemma asyncCall_post (P Q : state task → Prop) (m : M unit) s :
  hoare P m Q → P s → Q (snd (asyncCall m s)).
Proof. intros Hm Hs. by apply (hoare_asyncCall P Q m Hm s). Qed.

Lemma hoare_tryCatch_body {A} (P Q : state task → Prop) (body : M A) handler :
  hoare P body Q → hoare P (tryCatch body handler) Q.
Proof.
  intros Hm s Hs. destruct (Hm s Hs) as [[a Ha] HQ]. unfold tryCatch.
  destruct (body s) as [[a'|message] s1]; simpl in *; [|discriminate].
  split; [by exists a'|done].
Qed.

Lemma rich_resume_sound t r s :
  match pageOf t with
  | Some p => soundBut p s
  | None => sound s
  end →
  sound (snd (asyncCall (resume domain root t r) s)).
Proof.
  intros Hs. destruct t; cbn [resume pageOf] in *;
    [apply (asyncCall_post (soundBut pageFileName) sound); [|done]..
    |apply (asyncCall_post sound sound); [|done]].
  - unfold onPageSettled.
    eapply hoare_bind with (R := sound).
    + unfold downloadAndSavePage_settled, tryCatch, bind, settled.
      destruct r as [body|message]; intros s0 Hs0.
      * by apply (hoare_suspend_page pageOf pageFileName).
      * split; [by eexists|]. simpl.
        apply (sound_sameStages pageOf s0); [by repeat split|].
        by apply (soundBut_sound pageOf pageFileName).
    + intros _. apply hoare_still_sound; [give_back|hush].
  - apply rich_imagesLoop_sound.
  - unfold onImageResponded.
    eapply hoare_bind; [apply hoare_still; [give_back|hush]|].
    intros [data|]; [by apply hoare_suspend_page|].
    eapply hoare_bind; [apply hoare_still; [give_back|hush]|]. intros _.
    apply rich_imagesLoop_sound.
  - unfold onImageSettled.
    eapply hoare_bind; [apply hoare_still; [give_back|hush]|]. intros _.
    eapply hoare_bind; [apply hoare_still; [give_back|hush]|]. intros _.
    apply rich_imagesLoop_sound.
  - unfold onLinksSettled, settled.
    destruct r as [data|message].
    + destruct (domainRegExp domain) as [domainRegex|].
      * apply hoare_tryCatch_body.
        eapply hoare_bind; [apply hoare_ret|]. intros data'. cbv zeta.
        apply hoare_eachAsync. intros i x.
        destruct (truthy _); [|apply hoare_ret].
        destruct (domainRegex _); [apply rich_crawl_sound|apply hoare_ret].
      * intros s0 Hs0. split; [by eexists|]. simpl.
        by apply (sound_sameStages pageOf s0).
    + intros s0 Hs0. split; [by eexists|]. simpl.
      by apply (sound_sameStages pageOf s0).
Qed.

Lemma rich_deliver_sound i r s : sound s → sound (deliver domain root i r s).
Proof.
  intros Hs. unfold deliver. destruct (pending s !! i) as [t|] eqn:Hi; [|done].
  apply rich_resume_sound. by apply take_sound.
Qed.

Lemma rich_run_sound schedule s : sound s → sound (run domain root schedule s).
Proof.
  revert s. induction schedule as [|[i r] later IH]; intros s Hs; simpl; [done|].
  by apply IH, rich_deliver_sound.
Qed.

Lemma rich_start_sound disk : sound (start domain disk).
Proof.
  unfold start, main. eapply hoare_asyncCall; [apply rich_crawl_sound|].
  repeat split; simpl; try constructor; by intros ? ?%elem_of_nil.
Qed.

Lemma rich_reachable_sound s : reachable domain root s → sound s.
Proof. intros (disk & schedule & ->). apply rich_run_sound, rich_start_sound. Qed.

End Facts.
End RichFacts.


(** ** The simple pipeline *)

Module SimpleFacts.
Import Simple.

Section Facts.
Context `{Cheerio} `{Platform}.
Variable domain : string.

#[local] Abbreviation task := Simple.task.
Implicit Types s : state task.

Lemma never_up (V V' : gset string) : V ⊆ V' → never V → never V'.
Proof. done. Qed.

#[local] Abbreviation advances := (advances (task := task) never).

Lemma simple_crawl_eq url baseFolder s :
  crawl url baseFolder s =
  (Returned tt,
   let s1 := afterUrlCheck url s in
   let p := pageFileNameOf url in
   if decide (p ∈ visitedPages s) then s1
   else
     State ({[p]} ∪ visitedPages s) (imageDownloads s) (files s)
           (GetPage url p (path_join baseFolder p) :: trace s1)
           (pending s ++ [PageGet url p (path_join baseFolder p)])
           (uncaught s)).
Proof.
  unfold crawl, bind.
  unfold extractLocalPathFromUrl, newURL_pathname, tryCatch, bind,
    afterUrlCheck, pageFileNameOf.
  destruct (url_pathname url) as [pathname|]; cbn.
  - unfold visitedHas. destruct (decide (_ ∈ _)) as [Hin|Hin].
    + by rewrite bool_decide_eq_true_2.
    + by rewrite bool_decide_eq_false_2.
  - unfold visitedHas. cbn. destruct (decide (_ ∈ _)) as [Hin|Hin].
    + by rewrite bool_decide_eq_true_2.
    + by rewrite bool_decide_eq_false_2.
Qed.

Lemma simple_afterUrlCheck_advances url s : advances s (afterUrlCheck url s).
Proof.
  unfold afterUrlCheck. destruct (url_pathname url).
  - apply advances_refl.
  - by apply advances_quiet with (l := [ConsoleError ("Invalid URL: " +:+ url)]).
Qed.

Lemma simple_crawl_returns url baseFolder : returns (crawl url baseFolder).
Proof. intros s. exists tt. by rewrite simple_crawl_eq. Qed.

Lemma simple_crawl_advancing url baseFolder : advancing never (crawl url baseFolder).
Proof.
  intros s. rewrite simple_crawl_eq. cbn [snd].
  destruct (decide _) as [Hin|Hin]; [apply simple_afterUrlCheck_advances|].
  set (p := pageFileNameOf url) in *.
  assert (∃ l, trace (afterUrlCheck url s) = l ++ trace s ∧ fetched l = [])
    as (l & Hl & Hl0).
  { unfold afterUrlCheck. destruct (url_pathname url).
    - by exists [].
    - by exists [ConsoleError ("Invalid URL: " +:+ url)]. }
  unfold fetched in Hl0.
  split; [set_solver|]. do 3 (split; [done|]). split; [by intros []|].
  exists (GetPage url p (path_join baseFolder p) :: l). cbn [trace]. rewrite Hl.
  split; [done|]. unfold fetched. cbn. rewrite Hl0.
  split; [apply NoDup_singleton|].
  intros q Hq%list_elem_of_singleton. subst q.
  split; [by intros []|]. split; [done|]. set_solver.
Qed.

Ltac side := solve [apply never_up | reflexivity].

Ltac advance :=
  repeat first
    [ progress cbv zeta
    | solve [apply advancing_ret; try side]
    | solve [apply advancing_throw; try side]
    | solve [apply advancing_emit; try side]
    | solve [apply advancing_writeFile; try side]
    | solve [apply advancing_suspend; try side]
    | solve [apply advancing_imageAdd; try side]
    | solve [apply advancing_imageHas; try side]
    | solve [apply advancing_settled; try side]
    | solve [apply advancing_extractLocalPathFromUrl; try side]
    | solve [apply advancing_downloadImage_responded; try side]
    | solve [apply advancing_downloadImage_settled; try side]
    | apply simple_crawl_advancing
    | apply advancing_bind; [side| |intros ?]
    | apply advancing_tryCatch; [side| |intros ?]
    | match goal with
      | |- advancing _ (match ?x with _ => _ end) => destruct x
      | |- advancing _ (if ?x then _ else _) => destruct x
      end ].

Ltac give_back :=
  repeat first
    [ progress cbv zeta
    | apply returns_ret | apply returns_emit | apply returns_writeFile
    | apply returns_suspend | apply returns_imageAdd
    | apply returns_imageHas | apply returns_visitedHas
    | apply returns_extractLocalPathFromUrl
    | apply returns_downloadImage_responded
    | apply returns_downloadImage_settled
    | apply simple_crawl_returns
    | apply returns_eachAsync
    | apply returns_tryCatch; intros ?
    | apply returns_bind; [|intros ?]
    | match goal with
      | |- returns (match ?x with _ => _ end) => destruct x
      | |- returns (if ?x then _ else _) => destruct x
      end ].

Lemma simple_eachImage_returns images dollar index filename :
  returns (eachImage dollar images index filename).
Proof.
  revert dollar index. induction images as [|element rest IH];
    intros dollar index; cbn [eachImage]; give_back; apply IH.
Qed.

Lemma simple_eachImage_advancing images dollar index filename :
  advancing never (eachImage dollar images index filename).
Proof.
  revert dollar index. induction images as [|element rest IH];
    intros dollar index; cbn [eachImage]; advance; apply IH.
Qed.

Lemma simple_resume_returns t r : returns (resume domain t r).
Proof.
  destruct t; cbn [resume].
  - unfold onPageSettled, downloadAndSavePage_settled. give_back.
  - unfold onEnd. give_back.
  - unfold onFirstWrite. give_back; apply simple_eachImage_returns.
  - unfold onImageResponded. give_back.
  - unfold onImageSettled. give_back.
  - unfold onLinksSettled. give_back.
Qed.

Lemma simple_resume_advancing t r : advancing never (resume domain t r).
Proof.
  destruct t; cbn [resume].
  - unfold onPageSettled, downloadAndSavePage_settled. advance.
  - unfold onEnd. advance.
  - unfold onFirstWrite. advance; apply simple_eachImage_advancing.
  - unfold onImageResponded. advance.
  - unfold onImageSettled. advance.
  - unfold onLinksSettled. advance.
    apply advancing_eachAsync; [apply never_up| |]; intros i x.
    + give_back.
    + advance.
Qed.

Lemma simple_take_advances i s : advances s (take i s).
Proof. by apply advances_quiet with (l := []). Qed.

Lemma simple_deliver_advances i r s : advances s (deliver domain i r s).
Proof.
  unfold deliver. destruct (pending s !! i) as [t|]; [|apply advances_refl].
  apply (advances_trans never never_up _ (take i s)); [apply simple_take_advances|].
  apply advancing_asyncCall; [apply simple_resume_returns|apply simple_resume_advancing].
Qed.

Lemma simple_run_advances schedule s : advances s (run domain schedule s).
Proof.
  revert s. induction schedule as [|[i r] later IH]; intros s; simpl.
  - apply advances_refl.
  - apply (advances_trans never never_up _ (deliver domain i r s));
      [apply simple_deliver_advances|apply IH].
Qed.

Lemma simple_start_advances disk :
  advances (State ∅ ∅ disk [] [] []) (start domain disk).
Proof.
  unfold start, main.
  apply advancing_asyncCall; [apply simple_crawl_returns|apply simple_crawl_advancing].
Qed.

End Facts.
End SimpleFacts.


(** ** The example pages and the full state *)

Module ExampleFacts.
Import Mini Examples.

Lemma pageName_inj n m : pageName n = pageName m → n = m.
Proof.
  unfold pageName. intros Heq. apply SuccNat2Pos.inj.
  revert Heq. generalize (Pos.of_succ_nat n) (Pos.of_succ_nat m). clear.
  induction p as [p IH|p IH|]; intros [q|q|]; simpl; intros Heq;
    try discriminate; try done.
  - injection Heq as Heq. f_equal. by apply IH.
  - injection Heq as Heq. f_equal. by apply IH.
Qed.

Lemma manyPages_size k : size (manyPages k) = k.
Proof.
  unfold manyPages. rewrite size_list_to_set.
  - by rewrite length_map, length_seq.
  - apply NoDup_fmap_2; [intros n m; apply pageName_inj|apply NoDup_seq].
Qed.

Lemma fullState_ceiling : Rich.ceilingReached fullState.
Proof.
  unfold Rich.ceilingReached, Rich.ceiling, fullState. cbn [visitedPages].
  rewrite manyPages_size. rewrite Z2Nat.id; [done|]. unfold Rich.maxPages. lia.
Qed.

Lemma pageName_letters n c t :
  pageName n = String c t → c = "a"%char ∨ c = "b"%char ∨ c = "."%char.
Proof.
  unfold pageName. destruct (Pos.of_succ_nat n); simpl; intros [= <- _]; auto.
Qed.

Lemma manyPages_letters k c t :
  String c t ∈ manyPages k → c = "a"%char ∨ c = "b"%char ∨ c = "."%char.
Proof.
  unfold manyPages. rewrite elem_of_list_to_set, list_elem_of_fmap.
  intros (n & Hn & _). symmetry in Hn. by apply pageName_letters in Hn.
Qed.

Lemma fullState_letters c t :
  String c t ∈ visitedPages fullState →
  c = "a"%char ∨ c = "b"%char ∨ c = "."%char.
Proof. unfold fullState. cbn [visitedPages]. apply ExampleFacts.manyPages_letters. Qed.

End ExampleFacts.


(** * The claims

    ** Claims that hold for every page and every schedule *)

Module Claims.

Section General.
Context `{Cheerio} `{Platform}.
Variable domain : string.
Variable root : option string.

Lemma skipped_afterUrlCheck {task} url (s : state task) :
  skipped s (afterUrlCheck url s).
Proof. unfold afterUrlCheck. destruct (url_pathname url); by repeat split. Qed.

Lemma rich_crawl_visited url baseFolder (s : state Rich.task) :
  Rich.pageFileNameOf url ∈ visitedPages s →
  fst (Rich.crawl url baseFolder s) = Returned tt ∧
  skipped s (snd (Rich.crawl url baseFolder s)).
Proof.
  intros Hin. rewrite RichFacts.rich_crawl_eq. split; [done|]. cbn [snd].
  destruct (_ <=? _)%Z; [by repeat split|].
  rewrite decide_True by done. apply skipped_afterUrlCheck.
Qed.

Lemma simple_crawl_visited url baseFolder (s : state Simple.task) :
  Simple.pageFileNameOf url ∈ visitedPages s →
  fst (Simple.crawl url baseFolder s) = Returned tt ∧
  skipped s (snd (Simple.crawl url baseFolder s)).
Proof.
  intros Hin. rewrite SimpleFacts.simple_crawl_eq. split; [done|]. cbn [snd].
  rewrite decide_True by done. apply skipped_afterUrlCheck.
Qed.

Lemma rich_crawl_ceiling url baseFolder (s : state Rich.task) :
  Rich.ceilingReached s → Rich.crawl url baseFolder s = (Returned tt, s).
Proof.
  intros Hc. rewrite RichFacts.rich_crawl_eq.
  apply Z.leb_le in Hc. by rewrite Hc.
Qed.

(** C6: in every state of a run, of either pipeline, no page (computed
    filename) was fetched twice and every page fetched had been marked
    visited; in the richer pipeline no page file was written twice and
    only fetched pages were written; and the crawl of a URL whose
    filename is already visited sends no request, writes nothing and
    leaves no continuation behind. *)
Theorem page_fetched_and_transformed_once :
  (∀ disk schedule,
     let s := Rich.run domain root schedule (Rich.start domain disk) in
     NoDup (fetched (trace s)) ∧
     NoDup (written (trace s)) ∧
     (∀ p, p ∈ fetched (trace s) → p ∈ visitedPages s) ∧
     (∀ p, p ∈ written (trace s) → p ∈ fetched (trace s)) ∧
     ∀ url baseFolder,
       Rich.pageFileNameOf url ∈ visitedPages s →
       fst (Rich.crawl url baseFolder s) = Returned tt ∧
       skipped s (snd (Rich.crawl url baseFolder s))) ∧
  (∀ disk schedule,
     let s := Simple.run domain schedule (Simple.start domain disk) in
     NoDup (fetched (trace s)) ∧
     (∀ p, p ∈ fetched (trace s) → p ∈ visitedPages s) ∧
     ∀ url baseFolder,
       Simple.pageFileNameOf url ∈ visitedPages s →
       fst (Simple.crawl url baseFolder s) = Returned tt ∧
       skipped s (snd (Simple.crawl url baseFolder s))).
Proof.
  split.
  - intros disk schedule s.
    destruct (RichFacts.rich_run_sound domain root schedule _
                (RichFacts.rich_start_sound domain disk))
      as ([Hnd Hin] & [Hstage Hfrom] & _).
    fold s in Hnd, Hin, Hstage, Hfrom.
    apply NoDup_app in Hstage as (_ & _ & Hw).
    split; [done|]. split; [done|]. split; [done|]. split.
    + intros p Hp. apply Hfrom, elem_of_app. by right.
    + intros url baseFolder. apply rich_crawl_visited.
  - intros disk schedule s.
    assert (Hs : fetchedOnce s).
    { apply (advances_fetchedOnce never (Simple.start domain disk));
        [apply SimpleFacts.simple_run_advances|].
      apply (advances_fetchedOnce never (State ∅ ∅ disk [] [] []));
        [apply SimpleFacts.simple_start_advances|].
      split; [constructor|]. by intros p Hp%elem_of_nil. }
    destruct Hs as [Hnd Hin]. split; [done|]. split; [done|].
    intros url baseFolder. apply simple_crawl_visited.
Qed.

(** C9: from a state in which the page ceiling is reached, under every
    schedule, the set of visited pages and the pages fetched stay as
    they are, no file leaves the disk, and every further call of
    [crawl] returns at once and leaves the state as it is. *)
Theorem ceiling_stops_the_crawl (s : state Rich.task) :
  Rich.ceilingReached s →
  ∀ schedule url baseFolder,
    let s1 := Rich.run domain root schedule s in
    Rich.crawl url baseFolder s1 = (Returned tt, s1) ∧
    visitedPages s1 = visitedPages s ∧
    fetched (trace s1) = fetched (trace s) ∧
    dom (files s) ⊆ dom (files s1).
Proof.
  intros Hc schedule url baseFolder s1.
  pose proof (RichFacts.rich_run_advances domain root schedule s) as Hadv.
  fold s1 in Hadv.
  destruct (advances_closed Rich.ceiling s s1 Hadv Hc) as [Hv Hf].
  split; [|split; [done|split; [done|apply Hadv]]].
  apply rich_crawl_ceiling. unfold Rich.ceilingReached. by rewrite Hv.
Qed.

(** C10: once [crawl] has been called for a URL, a later call for a URL
    with the same computed filename, at any later point of the run,
    returns without sending a request, writing a file, or leaving a
    continuation behind; in both pipelines. *)
Theorem same_filename_crawled_once :
  (∀ (s : state Rich.task) url1 url2 baseFolder1 baseFolder2 schedule,
     Rich.pageFileNameOf url1 = Rich.pageFileNameOf url2 →
     let s1 := Rich.run domain root schedule
                 (snd (Rich.crawl url1 baseFolder1 s)) in
     fst (Rich.crawl url2 baseFolder2 s1) = Returned tt ∧
     skipped s1 (snd (Rich.crawl url2 baseFolder2 s1))) ∧
  (∀ (s : state Simple.task) url1 url2 baseFolder1 baseFolder2 schedule,
     Simple.pageFileNameOf url1 = Simple.pageFileNameOf url2 →
     let s1 := Simple.run domain schedule
                 (snd (Simple.crawl url1 baseFolder1 s)) in
     fst (Simple.crawl url2 baseFolder2 s1) = Returned tt ∧
     skipped s1 (snd (Simple.crawl url2 baseFolder2 s1))).
Proof.
  split.
  - intros s url1 url2 baseFolder1 baseFolder2 schedule Hsame s1.
    pose proof (RichFacts.rich_run_advances domain root schedule
                  (snd (Rich.crawl url1 baseFolder1 s))) as Hadv.
    fold s1 in Hadv. destruct Hadv as (Hv & _).
    rewrite RichFacts.rich_crawl_eq in Hv. cbn [snd] in Hv.
    destruct (_ <=? _)%Z eqn:Hc.
    + rewrite rich_crawl_ceiling; [by repeat split|].
      apply Z.leb_le in Hc. apply (RichFacts.ceiling_up (visitedPages s)); done.
    + apply rich_crawl_visited. rewrite <-Hsame. apply Hv.
      unfold afterUrlCheck.
      destruct (decide _) as [Hin|Hin];
        [by destruct (url_pathname url1)|].
      destruct (Rich.ignored _); cbn [visitedPages]; set_solver.
  - intros s url1 url2 baseFolder1 baseFolder2 schedule Hsame s1.
    pose proof (SimpleFacts.simple_run_advances domain schedule
                  (snd (Simple.crawl url1 baseFolder1 s))) as Hadv.
    fold s1 in Hadv. destruct Hadv as (Hv & _).
    rewrite SimpleFacts.simple_crawl_eq in Hv. cbn [snd] in Hv.
    apply simple_crawl_visited. rewrite <-Hsame. apply Hv.
    unfold afterUrlCheck.
    destruct (decide _) as [Hin|Hin];
      [by destruct (url_pathname url1)|].
    cbn [visitedPages]; set_solver.
Qed.

(** C8, amended: the crawl of a link whose computed filename holds an
    ignore pattern returns without sending a request, writing a file or
    leaving a continuation behind; the set of downloaded images and the
    files on disk are as before; the filename is in the visited set
    afterwards unless the page ceiling was reached already, in which
    case the visited set is as before. *)
Theorem ignored_link_is_marked_and_skipped (s : state Rich.task) url baseFolder :
  Rich.ignored (Rich.pageFileNameOf url) = true →
  let s' := snd (Rich.crawl url baseFolder s) in
  fst (Rich.crawl url baseFolder s) = Returned tt ∧
  visitedPages s' =
    (if (Rich.maxPages <=? Z.of_nat (size (visitedPages s)))%Z
     then visitedPages s
     else {[Rich.pageFileNameOf url]} ∪ visitedPages s) ∧
  imageDownloads s' = imageDownloads s ∧
  files s' = files s ∧
  pending s' = pending s ∧
  uncaught s' = uncaught s ∧
  requests (trace s') = requests (trace s) ∧
  written (trace s') = written (trace s).
Proof.
  intros Hig s'. subst s'. rewrite RichFacts.rich_crawl_eq. cbn [fst snd].
  split; [done|].
  destruct (_ <=? _)%Z; [by repeat split|].
  destruct (skipped_afterUrlCheck url s) as (Hv & Hi & Hf & Hp & Hu & Hr & Hw).
  destruct (decide _) as [Hin|Hin].
  - split; [rewrite Hv; set_solver|]. by repeat split.
  - rewrite Hig. cbn [visitedPages imageDownloads files pending uncaught trace].
    by repeat split.
Qed.

Lemma pageWrites_app (l1 l2 : list effect) :
  pageWrites (l1 ++ l2) = pageWrites l1 ++ pageWrites l2.
Proof. apply omap_app. Qed.

(** the simple pipeline's loop over the images returns, and writes no page *)
Lemma simple_eachImage_writes_no_page images dollar index filename
    (s : state Simple.task) :
  ∃ dollar' s',
    Simple.eachImage dollar images index filename s = (Returned dollar', s') ∧
    pageWrites (trace s') = pageWrites (trace s) ∧
    files s' = files s.
Proof.
  revert dollar index s. induction images as [|element rest IH];
    intros dollar index s; cbn [Simple.eachImage].
  - by exists dollar, s.
  - destruct (truthy _) as [imgSrc|]; [|apply IH].
    unfold bind, imageHas. cbn [fst snd].
    destruct (negb _); [|apply IH].
    unfold downloadImage_request, emit, suspend. cbn [fst snd].
    lazymatch goal with
    | |- context [Simple.eachImage ?d rest ?i filename ?s0] =>
        destruct (IH d i s0) as (d' & s' & Heq & Hw & Hf)
    end.
    exists d', s'. split; [done|]. split; [by rewrite Hw|by rewrite Hf].
Qed.

(** the richer pipeline's loop over the links returns, and leaves lines on
    the console only *)
Lemma rich_linksLoop_logs links dollar (s : state Rich.task) :
  ∃ dollar' l,
    Rich.linksLoop domain dollar links s = (Returned dollar', logTo l s) ∧
    pageWrites l = [].
Proof.
  revert dollar s. induction links as [|element rest IH]; intros dollar s;
    cbn [Rich.linksLoop].
  - exists dollar, []. by destruct s.
  - destruct (truthy _) as [link|]; [|apply IH].
    destruct (includes link domain); [|apply IH].
    unfold bind, extractLocalPathFromUrl, tryCatch, newURL_pathname, bind.
    destruct (url_pathname link) as [pathname|]; cbn [ret throw fst snd].
    + destruct (truthy (Some pathname)); apply IH.
    + cbn. lazymatch goal with
      | |- context [Rich.linksLoop domain ?d rest ?s0] =>
          destruct (IH d s0) as (d' & l & Heq & Hl)
      end.
      exists d', (l ++ [ConsoleError ("Invalid URL: " +:+ link)]).
      split; [|by rewrite pageWrites_app, Hl].
      rewrite Heq. unfold logTo. cbn. by rewrite <-app_assoc.
Qed.

(** C1: in the simple pipeline the [end] handler writes the page's file
    twice under every environment: first turndown's Markdown of the
    document, then, once that write is through, the HTML of the document
    as the loop over the images has left it; the file holds the HTML. *)
Theorem simple_saves_html_over_markdown url p filename htmlContent dollar
    (s s2 : state Simple.task) :
  let s1 := snd (Simple.onEnd url p filename htmlContent s) in
  let s3 := snd (Simple.onFirstWrite url p filename dollar s2) in
  pageWrites (trace s1) =
    (filename, turndown (html (load htmlContent))) :: pageWrites (trace s) ∧
  pending s1 = pending s ++ [Simple.FirstWrite url p filename (load htmlContent)] ∧
  ∃ dollar',
    fst (Simple.eachImage dollar (select dollar "img") O filename
           (logTo [ConsoleLog ("Downloaded and saved " +:+ url +:+ " as " +:+ filename)]
                  s2)) = Returned dollar' ∧
    pageWrites (trace s3) = (filename, html dollar') :: pageWrites (trace s2) ∧
    files s3 !! filename = Some (html dollar').
Proof.
  intros s1 s3. split; [done|]. split; [done|].
  destruct (simple_eachImage_writes_no_page (select dollar "img") dollar O filename
              (logTo [ConsoleLog ("Downloaded and saved " +:+ url +:+ " as " +:+ filename)]
                     s2)) as (dollar' & s' & Heq & Hw & Hf).
  exists dollar'. rewrite Heq. split; [done|].
  subst s3. unfold Simple.onFirstWrite, bind, consoleLog, emit. cbn [fst snd].
  change (State (visitedPages s2) (imageDownloads s2) (files s2)
                (ConsoleLog ("Downloaded and saved " +:+ url +:+ " as " +:+ filename)
                 :: trace s2) (pending s2) (uncaught s2))
    with (logTo [ConsoleLog ("Downloaded and saved " +:+ url +:+ " as " +:+ filename)] s2).
  rewrite Heq. cbn [writeFile fst snd trace files].
  split.
  - change (pageWrites (WritePage p filename (html dollar') :: trace s'))
      with ((filename, html dollar') :: pageWrites (trace s')).
    by rewrite Hw.
  - apply lookup_insert_eq.
Qed.

(** C5: in the simple pipeline, under every environment, a page that
    shows an image twice which is not in [imageDownloads] yet has a
    request sent for each of the two. *)
Theorem simple_requests_image_per_occurrence url p filename dollar e1 e2 src
    (s : state Simple.task) :
  select dollar "img" = [e1; e2] →
  truthy (attr dollar e1 "src") = Some src →
  truthy (attr dollar e2 "src") = Some src →
  src ∉ imageDownloads s →
  imageRequests (trace (snd (Simple.onFirstWrite url p filename dollar s))) =
    src :: src :: imageRequests (trace s).
Proof.
  intros Himg H1 H2 Hnew.
  unfold Simple.onFirstWrite, bind, consoleLog, emit. cbn [fst snd].
  rewrite Himg. cbn [Simple.eachImage]. rewrite H1.
  unfold bind, imageHas. cbn [fst snd imageDownloads].
  rewrite bool_decide_eq_false_2 by done. cbn [negb].
  unfold downloadImage_request, emit, suspend. cbn [fst snd].
  rewrite H2. unfold bind. cbn [fst snd imageDownloads].
  rewrite bool_decide_eq_false_2 by done. cbn [negb fst snd ret writeFile trace].
  reflexivity.
Qed.

(** the richer pipeline writes the page's file once per run of its [end]
    handler's last part, and writes what [elementToMDX] returns *)
Lemma rich_saves_what_elementToMDX_returns dollar url p filename
    (s : state Rich.task) :
  ∃ dollar',
    pageWrites (trace (snd (Rich.savePage domain root dollar url p filename s))) =
      (filename, Rich.elementToMDX (html dollar') root) :: pageWrites (trace s) ∧
    files (snd (Rich.savePage domain root dollar url p filename s)) !! filename =
      Some (Rich.elementToMDX (html dollar') root).
Proof.
  destruct (rich_linksLoop_logs (select dollar "a") dollar s)
    as (dollar' & l & Heq & Hl).
  exists dollar'. unfold Rich.savePage, bind. rewrite Heq.
  cbn [consoleLog emit writeFile fst snd trace files logTo].
  split; [|apply lookup_insert_eq].
  change (pageWrites (WritePage p filename ?c :: ConsoleLog ?x :: ?t))
    with ((filename, c) :: pageWrites t).
  by rewrite pageWrites_app, Hl.
Qed.

End General.
End Claims.


(** ** Claims settled on concrete pages *)

Module Evaluations.
Import Mini Examples.

(** the simple pipeline, on a root page that says Hello, writes the page's
    file twice: first the Markdown, then, over it, the HTML of the
    document *)
Lemma simple_saves_html_over_markdown_example :
  pageWrites (trace (simpleRun helloPage)) =
    [("results/example.com/.mdx",
      "<html><head></head><body><p>Hello</p></body></html>");
     ("results/example.com/.mdx", "Hello")] ∧
  files (simpleRun helloPage) !! "results/example.com/.mdx" =
    Some "<html><head></head><body><p>Hello</p></body></html>".
Proof. split; vm_compute; reflexivity. Qed.

(** the richer pipeline writes the page's file once, and it is Markdown *)
Lemma rich_saves_markdown :
  pageWrites (trace (richRun helloPage)) =
    [("results/example.com/index.md", "Hello")] ∧
  files (richRun helloPage) !! "results/example.com/index.md" = Some "Hello".
Proof. split; vm_compute; reflexivity. Qed.

(** the simple pipeline rewrites no link: on a page with the example
    anchor both texts it writes, the Markdown and then the HTML, hold the
    absolute same-domain URL *)
Lemma simple_keeps_absolute_href :
  pageWrites (trace (simpleRun fooBarPage)) =
    [("results/example.com/.mdx",
      "<html><head></head><body><a href=" +:+
      quoted "https://example.com/Foo-Bar" +:+ ">x</a></body></html>");
     ("results/example.com/.mdx", "[x](https://example.com/Foo-Bar)")] ∧
  forallb (fun write => negb (sameDomainFree (snd write)))
          (pageWrites (trace (simpleRun fooBarPage))) = true.
Proof. split; vm_compute; reflexivity. Qed.

(** the example of the specification in the richer pipeline: for the
    domain example.com the anchor gets the href Foo-Bar.md, the page is
    saved as the Markdown link to Foo-Bar.md, which holds no absolute
    same-domain URL, and the crawl has requested
    https://example.com/Foo-Bar as the page Foo-Bar.md. *)
Lemma rich_rewrites_the_example_link :
  linksRewritten fooBarPage =
    "<html><head></head><body><a href=" +:+ quoted "Foo-Bar.md" +:+
    ">x</a></body></html>" ∧
  Rich.pageFileNameOf "https://example.com/Foo-Bar" = "Foo-Bar.md" ∧
  pageWrites (trace (richRun fooBarPage)) =
    [("results/example.com/index.md", "[x](Foo-Bar.md)")] ∧
  sameDomainFree "[x](Foo-Bar.md)" = true ∧
  trace (richRun fooBarPage) !! 0%nat =
    Some (GetPage "https://example.com/Foo-Bar" "Foo-Bar.md"
                  "results/example.com/Foo-Bar.md") ∧
  pending (richRun fooBarPage) =
    [Rich.PageGet "https://example.com/Foo-Bar" "Foo-Bar.md"
                  "results/example.com/Foo-Bar.md"].
Proof. repeat split; vm_compute; reflexivity. Qed.

(** where the URL also stands earlier in the tag, the richer pipeline
    replaces that occurrence and the href stays absolute: the page is
    saved as a Markdown link to the absolute same-domain URL *)
Lemma rich_replaces_the_first_occurrence :
  linksRewritten titledLinkPage =
    "<html><head></head><body><a title=" +:+ quoted "Foo-Bar.md" +:+
    " href=" +:+ quoted "https://example.com/Foo-Bar" +:+
    ">x</a></body></html>" ∧
  pageWrites (trace (richRun titledLinkPage)) =
    [("results/example.com/index.md", "[x](https://example.com/Foo-Bar)")] ∧
  sameDomainFree "[x](https://example.com/Foo-Bar)" = false.
Proof. repeat split; vm_compute; reflexivity. Qed.

(** C3: the simple pipeline gives the root path the empty filename stem,
    so the root page of a crawl becomes the page .mdx. *)
Theorem simple_root_path_has_empty_name :
  Simple.pathSegmentToFilename "/" = EmptyString ∧
  Simple.pageFileNameOf "https://example.com" = ".mdx" ∧
  fetched (trace (Simple.start domain ∅)) = [".mdx"].
Proof. repeat split; vm_compute; reflexivity. Qed.

(** C4: the simple pipeline keeps runs of separators, and a separator at
    either end, where the path has a character outside the letters next to
    a slash. *)
Theorem simple_name_keeps_separator_runs :
  Simple.pathSegmentToFilename "/a1/b" = "a--b" ∧
  Simple.pathSegmentToFilename "/a/1/" = "a--" ∧
  Simple.pathSegmentToFilename "/1/a" = "--a".
Proof. repeat split; vm_compute; reflexivity. Qed.

(** the simple pipeline sends two requests for an image that a page shows
    twice; the richer pipeline sends two requests for an image when a
    second page that shows it ends its stream while the first download is
    awaited *)
Lemma image_requested_twice_example :
  occurrences "https://example.com/a.png"
    (imageRequests (trace (simpleRun imageTwicePage))) = 2%nat ∧
  occurrences "https://example.com/a.png"
    (imageRequests (trace overlappingRun)) = 2%nat.
Proof. split; vm_compute; reflexivity. Qed.

(** within one page the richer pipeline sends one request *)
Lemma rich_one_page_requests_image_once :
  occurrences "https://example.com/a.png"
    (imageRequests
       (trace (Rich.run domain None [(0, Ok imageTwicePage); (0, Ok EmptyString); (1, Ok "PNG")]%nat
                        (Rich.start domain ∅)))) = 1%nat.
Proof. vm_compute; reflexivity. Qed.

(** C7, as stated, fails: after the root page's request has failed, a
    second request goes to the same URL, and when that one succeeds the
    page's links are crawled. *)
Lemma failed_page_is_requested_again :
  ¬ (∀ schedule,
       let s := Rich.run domain None
                  ((0%nat, Failed "Request failed with status code 500") :: schedule)
                  (Rich.start domain ∅) in
       occurrences "https://example.com" (requests (trace s)) ≤ 1 ∧
       fetched (trace s) = ["index.md"]).
Proof.
  intros Hclaim. destruct (Hclaim [(0%nat, Ok fooBarPage)]) as [Hle _].
  vm_compute in Hle. lia.
Qed.

(** C8, as stated, fails: at the page ceiling the filename of an ignored
    link is not added to the visited set. *)
Lemma ignored_link_at_ceiling_is_not_marked :
  ¬ (∀ (s : state Rich.task) url baseFolder,
       Rich.ignored (Rich.pageFileNameOf url) = true →
       Rich.pageFileNameOf url ∈ visitedPages (snd (Rich.crawl url baseFolder s))).
Proof.
  intros Hclaim.
  specialize (Hclaim fullState "https://example.com/page-edit" "results/example.com").
  rewrite Claims.rich_crawl_ceiling in Hclaim by apply ExampleFacts.fullState_ceiling.
  cbn [snd] in Hclaim.
  assert (Hname : Rich.pageFileNameOf "https://example.com/page-edit" = "page-edit.md")
    by (vm_compute; reflexivity).
  rewrite Hname in Hclaim.
  assert (Hig : Rich.ignored "page-edit.md" = true) by (vm_compute; reflexivity).
  specialize (Hclaim Hig).
  apply ExampleFacts.fullState_letters in Hclaim.
  destruct Hclaim as [Hc|[Hc|Hc]]; discriminate Hc.
Qed.
(** C6 at the start of a crawl of example.com: the root page is visited,
    and a second crawl of it does nothing *)
Lemma page_fetched_and_transformed_once_witness :
  Rich.pageFileNameOf "https://example.com" ∈ visitedPages (Rich.start domain ∅) ∧
  skipped (Rich.start domain ∅)
          (snd (Rich.crawl "https://example.com" "results/example.com"
                           (Rich.start domain ∅))).
Proof.
  assert (Hin : Rich.pageFileNameOf "https://example.com"
                ∈ visitedPages (Rich.start domain ∅)).
  { vm_compute. reflexivity. }
  split; [exact Hin|].
  exact (proj2 (proj2 (proj2 (proj2 (proj2
           (proj1 (Claims.page_fetched_and_transformed_once domain None) ∅ []))))
           "https://example.com" "results/example.com" Hin)).
Defined.

(** C9 at the full state *)
Lemma ceiling_stops_the_crawl_witness :
  Rich.ceilingReached fullState ∧
  Rich.crawl "https://example.com/new" "results/example.com" fullState =
    (Returned tt, fullState).
Proof.
  split; [exact ExampleFacts.fullState_ceiling|].
  exact (proj1 (Claims.ceiling_stops_the_crawl domain None fullState
                  ExampleFacts.fullState_ceiling []
                  "https://example.com/new" "results/example.com")).
Defined.

(** C10 for /foo/bar and /foo-bar *)
Lemma same_filename_crawled_once_witness :
  (Rich.pageFileNameOf "https://example.com/foo/bar" =
   Rich.pageFileNameOf "https://example.com/foo-bar" ∧
   let s1 := Rich.run domain None []
               (snd (Rich.crawl "https://example.com/foo/bar" "results/example.com"
                                (Rich.start domain ∅))) in
   fst (Rich.crawl "https://example.com/foo-bar" "results/example.com" s1) =
     Returned tt ∧
   skipped s1 (snd (Rich.crawl "https://example.com/foo-bar" "results/example.com" s1))) ∧
  (Simple.pageFileNameOf "https://example.com/foo/bar" =
   Simple.pageFileNameOf "https://example.com/foo-bar" ∧
   let s1 := Simple.run domain []
               (snd (Simple.crawl "https://example.com/foo/bar" "results/example.com"
                                  (Simple.start domain ∅))) in
   fst (Simple.crawl "https://example.com/foo-bar" "results/example.com" s1) =
     Returned tt ∧
   skipped s1 (snd (Simple.crawl "https://example.com/foo-bar" "results/example.com" s1))).
Proof.
  assert (HR : Rich.pageFileNameOf "https://example.com/foo/bar" =
               Rich.pageFileNameOf "https://example.com/foo-bar")
    by (vm_compute; reflexivity).
  assert (HS : Simple.pageFileNameOf "https://example.com/foo/bar" =
               Simple.pageFileNameOf "https://example.com/foo-bar")
    by (vm_compute; reflexivity).
  split; (split; [assumption|]).
  - apply (proj1 (Claims.same_filename_crawled_once domain None)). exact HR.
  - apply (proj2 (Claims.same_filename_crawled_once domain None)). exact HS.
Defined.

(** C8 for a link to /page-edit, found at the start of a crawl *)
Lemma ignored_link_is_marked_and_skipped_witness :
  Rich.ignored (Rich.pageFileNameOf "https://example.com/page-edit") = true ∧
  visitedPages (snd (Rich.crawl "https://example.com/page-edit" "results/example.com"
                                (Rich.start domain ∅))) =
    {["page-edit.md"]} ∪ visitedPages (Rich.start domain ∅) ∧
  pending (snd (Rich.crawl "https://example.com/page-edit" "results/example.com"
                           (Rich.start domain ∅))) =
    pending (Rich.start domain ∅).
Proof.
  split; [reflexivity|].
  pose proof (Claims.ignored_link_is_marked_and_skipped (Rich.start domain ∅)
                "https://example.com/page-edit" "results/example.com" eq_refl)
    as (_ & Hv & _ & _ & Hp & _).
  split; [exact Hv|exact Hp].
Defined.

(** C5 on the page that shows the image twice *)
Lemma simple_requests_image_per_occurrence_witness :
  imageRequests
    (trace (snd (Simple.onFirstWrite "https://example.com" ".mdx"
                   "results/example.com/.mdx" (load imageTwicePage)
                   (Simple.start domain ∅)))) =
  "https://example.com/a.png" :: "https://example.com/a.png" ::
  imageRequests (trace (Simple.start domain ∅)).
Proof.
  apply (@Claims.simple_requests_image_per_occurrence cheerio platform
           "https://example.com" ".mdx" "results/example.com/.mdx"
           (load imageTwicePage)
           (Element 1 "img" [("src", "https://example.com/a.png")] [])
           (Element 2 "img" [("src", "https://example.com/a.png")] []));
    [vm_compute; reflexivity| vm_compute; reflexivity| vm_compute; reflexivity|].
  vm_compute. intros Hin. discriminate Hin.
Defined.

End Evaluations.


(** * Further facts

    ** The URL Normalizers, character by character *)

Module NameFacts.
Import NormalizerFacts.

Lemma startsWith_splitJoinDashes r :
  startsWith (splitJoinDashes r) "-" = startsWith r "-".
Proof.
  destruct r as [|a [|b u]]; [done|done|].
  change (splitJoinDashes (String a (String b u)))
    with (if isDash a && isDash b then String "-" (splitJoinDashes u)
          else String a (splitJoinDashes (String b u))).
  rewrite startsWith_dash.
  destruct (isDash a) eqn:Ha, (isDash b) eqn:Hb; simpl; try done;
    rewrite ?andb_true_r; done.
Qed.

Lemma collapseDashRuns_cons c t :
  collapseDashRuns (String c t) =
  if isDash c && startsWith t "-" then collapseDashRuns t
  else String c (collapseDashRuns t).
Proof. done. Qed.

Lemma collapseDashRuns_splitJoinDashes r :
  collapseDashRuns (splitJoinDashes r) = collapseDashRuns r.
Proof.
  remember (String.length r) as n eqn:Hn.
  revert r Hn. induction (lt_wf n) as [n _ IH]. intros r ->.
  destruct r as [|a [|b u]]; [done|done|].
  change (splitJoinDashes (String a (String b u)))
    with (if isDash a && isDash b then String "-" (splitJoinDashes u)
          else String a (splitJoinDashes (String b u))).
  destruct (isDash a && isDash b) eqn:Hab.
  - apply andb_prop in Hab as [Ha Hb].
    rewrite (collapseDashRuns_cons a), Ha, startsWith_dash, Hb. cbn [andb].
    rewrite !collapseDashRuns_cons, startsWith_splitJoinDashes.
    apply isDash_true in Hb. subst b.
    rewrite (IH (String.length u)); [done|simpl; lia|done].
  - rewrite !(collapseDashRuns_cons a), startsWith_splitJoinDashes.
    rewrite (IH (String.length (String b u))); [done|simpl; lia|done].
Qed.

Lemma collapseDashRuns_id r : includes r "--" = false → collapseDashRuns r = r.
Proof.
  induction r as [|a r IH]; [done|].
  destruct r as [|b u].
  - intros _. simpl. by rewrite andb_false_r.
  - rewrite includes_dashes_cons. intros [Hab Hin]%orb_false_elim.
    rewrite collapseDashRuns_cons, startsWith_dash, Hab, IH; done.
Qed.

Lemma collapseLoop_collapseDashRuns fuel r :
  collapseDashRuns (Rich.collapseLoop fuel r) = collapseDashRuns r.
Proof.
  revert r. induction fuel as [|fuel IH]; intros r; [done|]. simpl.
  destruct (includes r "--"); [|done].
  by rewrite IH, collapseDashRuns_splitJoinDashes.
Qed.

Lemma collapseLoop_spec r :
  Rich.collapseLoop (String.length r) r = collapseDashRuns r.
Proof.
  rewrite <-(collapseLoop_collapseDashRuns (String.length r) r).
  symmetry. apply collapseDashRuns_id, collapseLoop_done. lia.
Qed.


Lemma allChars_replaceOutside keep s :
  allChars (λ c, keep c || isDash c) (replaceOutside keep s) = true.
Proof.
  induction s as [|c t IH]; [done|]. simpl. rewrite IH, andb_true_r.
  destruct (keep c) eqn:Hc; [by rewrite Hc|]. by rewrite orb_true_r.
Qed.

Lemma allChars_collapseDashRuns P s :
  allChars P s = true → allChars P (collapseDashRuns s) = true.
Proof.
  induction s as [|c t IH]; [done|]. rewrite collapseDashRuns_cons.
  cbn [allChars]. intros [Hc Ht]%andb_prop.
  destruct (isDash c && startsWith t "-"); [by apply IH|].
  cbn [allChars]. by rewrite Hc, IH.
Qed.

Lemma allChars_dropLast P s :
  allChars P s = true → allChars P (dropLast s) = true.
Proof.
  induction s as [|c t IH]; [done|]. destruct t as [|d u]; [done|].
  change (dropLast (String c (String d u))) with (String c (dropLast (String d u))).
  change (allChars P (String c (String d u)))
    with (P c && allChars P (String d u)).
  intros [Hc Ht]%andb_prop.
  change (P c && allChars P (dropLast (String d u)) = true).
  by rewrite Hc, IH.
Qed.

Lemma allChars_substring1 P s :
  allChars P s = true → allChars P (substring1 s) = true.
Proof. destruct s as [|c t]; [done|]. simpl. by intros [_ ?]%andb_prop. Qed.

Lemma replaceOutside_id keep s :
  allChars (λ c, keep c || isDash c) s = true → replaceOutside keep s = s.
Proof.
  induction s as [|c t IH]; [done|]. simpl. intros [Hc Ht]%andb_prop.
  rewrite IH by done. destruct (keep c); [done|].
  simpl in Hc. apply isDash_true in Hc. by subst c.
Qed.

Lemma toMekanismiURI_spec s :
  Rich.toMekanismiURI s =
  let r := collapseDashRuns (replaceOutside Rich.mekanismiChar s) in
  if endsWith r "-" then dropLast r else r.
Proof. unfold Rich.toMekanismiURI. by rewrite collapseLoop_spec. Qed.

Lemma allChars_toMekanismiURI s :
  allChars richNameChar (Rich.toMekanismiURI s) = true.
Proof.
  rewrite toMekanismiURI_spec. cbv zeta.
  assert (Hr : allChars richNameChar
                 (collapseDashRuns (replaceOutside Rich.mekanismiChar s)) = true)
    by apply allChars_collapseDashRuns, allChars_replaceOutside.
  destruct (endsWith _ "-"); [by apply allChars_dropLast|done].
Qed.

Lemma allChars_richName pathSegment :
  allChars richNameChar (Rich.pathSegmentToFilename pathSegment) = true.
Proof.
  unfold Rich.pathSegmentToFilename.
  pose proof (allChars_toMekanismiURI pathSegment) as Ht.
  destruct (_ || _); [done|].
  assert (Hs : allChars richNameChar
                 (if startsWith (Rich.toMekanismiURI pathSegment) "-"
                  then substring1 (Rich.toMekanismiURI pathSegment)
                  else Rich.toMekanismiURI pathSegment) = true)
    by (destruct (startsWith _ "-"); [by apply allChars_substring1|done]).
  destruct (endsWith _ "-"); [by apply allChars_dropLast|done].
Qed.

Lemma richName_fixed w :
  cleanName w → allChars richNameChar w = true →
  Rich.pathSegmentToFilename w = w.
Proof.
  intros (Hne & Hin & Hstart & Hend) Hchars.
  unfold Rich.pathSegmentToFilename.
  assert (Ht : Rich.toMekanismiURI w = w).
  { rewrite toMekanismiURI_spec. cbv zeta.
    rewrite (replaceOutside_id Rich.mekanismiChar w Hchars).
    rewrite (collapseDashRuns_id w Hin). by rewrite Hend. }
  rewrite Ht. destruct w as [|a u]; [done|].
  rewrite startsWith_dash in Hstart.
  assert (String.eqb (String a u) "-" = false) as ->.
  { apply String.eqb_neq. intros [= -> ->]. done. }
  simpl orb. cbv iota. rewrite startsWith_dash, Hstart. by rewrite Hend.
Qed.

Lemma startsWith_collapseDashRuns r :
  startsWith (collapseDashRuns r) "-" = startsWith r "-".
Proof.
  induction r as [|a r IH]; [done|].
  rewrite collapseDashRuns_cons, startsWith_dash.
  destruct (isDash a) eqn:Ha; cbn [andb].
  - destruct (startsWith r "-") eqn:Hr; [by rewrite IH|].
    by rewrite startsWith_dash.
  - by rewrite startsWith_dash.
Qed.

Lemma dropLast_cons a b u :
  dropLast (String a (String b u)) = String a (dropLast (String b u)).
Proof. done. Qed.

Lemma toMekanismiURI_lead c p :
  Rich.mekanismiChar c = false →
  Rich.toMekanismiURI (String c p) = Rich.toMekanismiURI p ∨
  ∃ a u, isDash a = false ∧ Rich.toMekanismiURI p = String a u ∧
         Rich.toMekanismiURI (String c p) = String "-" (String a u).
Proof.
  intros Hc. rewrite !toMekanismiURI_spec. cbv zeta.
  cbn [replaceOutside]. rewrite Hc.
  set (r := replaceOutside Rich.mekanismiChar p).
  rewrite (collapseDashRuns_cons "-" r).
  change (isDash "-") with true. cbn [andb].
  pose proof (startsWith_collapseDashRuns r) as Hx.
  destruct (startsWith r "-") eqn:Hr; [by left|].
  destruct (collapseDashRuns r) as [|a u] eqn:Hcr; [by left|].
  rewrite startsWith_dash in Hx.
  right. rewrite endsWith_cons.
  destruct (endsWith (String a u) "-") eqn:He.
  - destruct u as [|b v].
    + rewrite endsWith_one in He. congruence.
    + exists a, (dropLast (String b v)). by repeat split.
  - by exists a, u.
Qed.

Lemma richName_lead c p :
  Rich.mekanismiChar c = false →
  Rich.pathSegmentToFilename (String c p) = Rich.pathSegmentToFilename p.
Proof.
  intros Hc. unfold Rich.pathSegmentToFilename.
  destruct (toMekanismiURI_lead c p Hc) as [->|(a & u & Ha & Hp & Hcp)]; [done|].
  destruct (toMekanismiURI_clean p) as [_ Hend]. rewrite Hp in Hend.
  rewrite Hcp, Hp.
  assert (String.eqb (String a u) "-" = false) as ->.
  { apply String.eqb_neq. intros [= -> ->]. done. }
  simpl orb. cbv iota. rewrite !startsWith_dash, Ha.
  change (isDash "-") with true. cbv iota.
  change (substring1 (String "-" (String a u))) with (String a u). done.
Qed.


Lemma replaceOutside_app keep a b :
  replaceOutside keep (a +:+ b) = replaceOutside keep a +:+ replaceOutside keep b.
Proof. induction a as [|c a IH]; [done|]. simpl. by rewrite IH. Qed.

Lemma startsWith_snoc t : startsWith (t +:+ "-") "-" = (if t is EmptyString then true else startsWith t "-").
Proof.
  destruct t as [|b v]; [done|].
  change (String b v +:+ "-") with (String b (v +:+ "-")).
  by rewrite !startsWith_dash.
Qed.

Lemma collapseDashRuns_snoc r :
  collapseDashRuns (r +:+ "-") =
  if endsWith r "-" then collapseDashRuns r else collapseDashRuns r +:+ "-".
Proof.
  induction r as [|a t IH]; [done|].
  change (String a t +:+ "-") with (String a (t +:+ "-")).
  rewrite (collapseDashRuns_cons a (t +:+ "-")), IH, startsWith_snoc.
  destruct t as [|b v].
  - rewrite endsWith_one, andb_true_r. cbn [endsWith String.eqb orb].
    destruct (isDash a) eqn:Ha; [|by rewrite collapseDashRuns_cons, Ha].
    apply isDash_true in Ha. by subst a.
  - rewrite endsWith_cons, (collapseDashRuns_cons a (String b v)).
    by destruct (isDash a && startsWith (String b v) "-"), (endsWith (String b v) "-").
Qed.

Lemma collapseDashRuns_nonempty a t : collapseDashRuns (String a t) ≠ EmptyString.
Proof.
  revert a. induction t as [|b v IH]; intros a.
  - rewrite collapseDashRuns_cons. by rewrite andb_false_r.
  - rewrite collapseDashRuns_cons. destruct (_ && _); [apply IH|done].
Qed.

Lemma endsWith_collapseDashRuns r :
  endsWith (collapseDashRuns r) "-" = endsWith r "-".
Proof.
  induction r as [|a t IH]; [done|]. destruct t as [|b v].
  - rewrite collapseDashRuns_cons. by rewrite andb_false_r.
  - rewrite endsWith_cons, collapseDashRuns_cons.
    destruct (_ && _); [done|].
    pose proof (collapseDashRuns_nonempty b v) as Hne.
    destruct (collapseDashRuns (String b v)) as [|c w]; [done|].
    by rewrite endsWith_cons.
Qed.

Lemma endsWith_snoc x : endsWith (x +:+ "-") "-" = true.
Proof.
  induction x as [|a x IH]; [done|].
  change (String a x +:+ "-") with (String a (x +:+ "-")).
  destruct (x +:+ "-") as [|b v] eqn:Hx; [by destruct x|].
  by rewrite endsWith_cons.
Qed.

Lemma dropLast_snoc x c : dropLast (x +:+ String c EmptyString) = x.
Proof.
  induction x as [|a x IH]; [done|].
  change (String a x +:+ String c EmptyString)
    with (String a (x +:+ String c EmptyString)).
  destruct (x +:+ String c EmptyString) as [|b v] eqn:Hx; [by destruct x|].
  rewrite dropLast_cons. by rewrite IH.
Qed.

Lemma toMekanismiURI_trail c p :
  Rich.mekanismiChar c = false →
  Rich.toMekanismiURI (p +:+ String c EmptyString) = Rich.toMekanismiURI p.
Proof.
  intros Hc. rewrite !toMekanismiURI_spec. cbv zeta.
  rewrite replaceOutside_app. cbn [replaceOutside]. rewrite Hc.
  set (r := replaceOutside Rich.mekanismiChar p).
  rewrite collapseDashRuns_snoc.
  pose proof (endsWith_collapseDashRuns r) as Hx.
  destruct (endsWith r "-") eqn:Hr; [done|].
  rewrite endsWith_snoc, dropLast_snoc. by rewrite Hx.
Qed.

(** *** The simple pipeline *)

Lemma dashFree_stripLeadingDashes s :
  allChars notDash s = true → stripLeadingDashes s = s.
Proof.
  destruct s as [|c t]; [done|]. cbn [allChars stripLeadingDashes].
  unfold notDash. intros [Hc _]%andb_prop. apply negb_true_iff in Hc. by rewrite Hc.
Qed.

Lemma dashFree_stripTrailingDashes s :
  allChars notDash s = true → stripTrailingDashes s = s.
Proof.
  induction s as [|c t IH]; [done|]. cbn [allChars stripTrailingDashes allDashes].
  unfold notDash at 1. intros [Hc Ht]%andb_prop. apply negb_true_iff in Hc.
  rewrite Hc. cbn [andb]. by rewrite IH.
Qed.

Lemma dashFree_collapseDashRuns s :
  allChars notDash s = true → collapseDashRuns s = s.
Proof.
  induction s as [|c t IH]; [done|]. rewrite collapseDashRuns_cons. cbn [allChars].
  unfold notDash at 1. intros [Hc Ht]%andb_prop. apply negb_true_iff in Hc.
  rewrite Hc. cbn [andb]. by rewrite IH.
Qed.

Lemma simpleName_dashFree p :
  allChars notDash p = true →
  Simple.pathSegmentToFilename p =
  let s := replaceOutside Simple.letterChar p in
  if (String.length s =? 0)%nat then "index"
  else
    let s := if startsWith s "-" then substring1 s else s in
    if endsWith s "-" then dropLast s else s.
Proof.
  intros Hp. unfold Simple.pathSegmentToFilename.
  by rewrite dashFree_stripLeadingDashes, dashFree_stripTrailingDashes,
    dashFree_collapseDashRuns.
Qed.

Lemma allChars_simpleName pathSegment :
  allChars simpleNameChar (Simple.pathSegmentToFilename pathSegment) = true.
Proof.
  unfold Simple.pathSegmentToFilename.
  set (r := replaceOutside Simple.letterChar _).
  assert (Hr : allChars simpleNameChar r = true) by apply allChars_replaceOutside.
  destruct (_ =? _)%nat; [done|].
  assert (Hs : allChars simpleNameChar
                 (if startsWith r "-" then substring1 r else r) = true)
    by (destruct (startsWith _ "-"); [by apply allChars_substring1|done]).
  destruct (endsWith _ "-"); [by apply allChars_dropLast|done].
Qed.

Lemma allChars_impl (P Q : ascii → bool) s :
  (∀ c, P c = true → Q c = true) → allChars P s = true → allChars Q s = true.
Proof.
  intros HPQ. induction s as [|c t IH]; [done|]. cbn [allChars].
  intros [Hc Ht]%andb_prop. by rewrite (HPQ c Hc), IH.
Qed.

Lemma letter_notDash c : Simple.letterChar c = true → notDash c = true.
Proof.
  unfold notDash. destruct (isDash c) eqn:Hd; [|done].
  apply isDash_true in Hd. by subst c.
Qed.

Lemma letters_replaceOutside w :
  allChars Simple.letterChar w = true → replaceOutside Simple.letterChar w = w.
Proof.
  induction w as [|c t IH]; [done|]. cbn [allChars replaceOutside].
  intros [Hc Ht]%andb_prop. by rewrite Hc, IH.
Qed.

Lemma dashFree_endsWith s : allChars notDash s = true → endsWith s "-" = false.
Proof.
  induction s as [|c t IH]; [done|]. cbn [allChars].
  unfold notDash at 1. intros [Hc Ht]%andb_prop. apply negb_true_iff in Hc.
  destruct t as [|d u]; [by rewrite endsWith_one|].
  rewrite endsWith_cons. by apply IH.
Qed.

Lemma simpleName_plain c w :
  Simple.letterChar c = false → w ≠ EmptyString →
  allChars Simple.letterChar w = true →
  Simple.pathSegmentToFilename (String c w) = w.
Proof.
  intros Hc Hne Hw.
  assert (Hd : allChars notDash w = true)
    by (by apply (allChars_impl Simple.letterChar); [apply letter_notDash|]).
  destruct (isDash c) eqn:Hdash.
  - unfold Simple.pathSegmentToFilename. cbn [stripLeadingDashes]. rewrite Hdash.
    rewrite dashFree_stripLeadingDashes, dashFree_stripTrailingDashes,
      dashFree_collapseDashRuns, letters_replaceOutside by done.
    destruct w as [|a u]; [done|]. cbn [String.length Nat.eqb].
    rewrite startsWith_dash.
    cbn [allChars] in Hd. apply andb_prop in Hd as [Ha Hu].
    unfold notDash in Ha. apply negb_true_iff in Ha. rewrite Ha.
    rewrite dashFree_endsWith; [done|]. cbn [allChars]. unfold notDash at 1.
    by rewrite Ha, Hu.
  - rewrite simpleName_dashFree
      by (cbn [allChars]; unfold notDash at 1; by rewrite Hdash, Hd).
    cbv zeta. cbn [replaceOutside]. rewrite Hc, letters_replaceOutside by done.
    cbn [String.length Nat.eqb]. rewrite startsWith_dash.
    change (isDash "-") with true. cbv iota.
    change (substring1 (String "-" w)) with w.
    by rewrite dashFree_endsWith.
Qed.

Lemma simpleName_collide p q :
  allChars notDash p = true → allChars notDash q = true →
  replaceOutside Simple.letterChar p = replaceOutside Simple.letterChar q →
  Simple.pathSegmentToFilename p = Simple.pathSegmentToFilename q.
Proof.
  intros Hp Hq Heq. rewrite !simpleName_dashFree by done. cbv zeta. by rewrite Heq.
Qed.

End NameFacts.

(** ** The image-title pass of [elementToMDX] *)

Module TitleFacts.

Lemma breakAt_split stop l before rest :
  breakAt stop l = Some (before, rest) → l = (before ++ stop :: rest)%list.
Proof.
  revert before. induction l as [|c t IH]; intros before; [done|]. cbn [breakAt].
  destruct (Ascii.eqb c stop) eqn:Hc.
  - apply Ascii.eqb_eq in Hc. subst c. by intros [= <- <-].
  - destruct (breakAt stop t) as [[b r]|]; [|done].
    intros [= <- <-]. by rewrite (IH b eq_refl).
Qed.

Lemma breakAt_app stop before rest :
  Forall (λ c, c ≠ stop) before →
  breakAt stop (before ++ stop :: rest) = Some (before, rest).
Proof.
  induction 1 as [|c before Hc _ IH]; cbn [breakAt app].
  - by rewrite Ascii.eqb_refl.
  - apply Ascii.eqb_neq in Hc. by rewrite Hc, IH.
Qed.

(** a match holds a quote *)
Lemma matchAt_quote l x : matchAt l = Some x → Exists (λ c, isQuote c = true) l.
Proof.
  destruct l as [|bang [|bracket l1]]; [done|done|]. cbn [matchAt].
  destruct (_ && _); [|done].
  destruct (breakAt "]" l1) as [[alt [|paren l2]]|] eqn:H1; [done| |done].
  destruct (Ascii.eqb paren "("); [|done].
  destruct (breakAt ")" l2) as [[inner rest]|] eqn:H2; [|done].
  destruct (rev inner) as [|closing body] eqn:Hrev; [done|].
  destruct (isQuote closing) eqn:Hq; [|done]. intros _.
  apply breakAt_split in H1, H2. subst l1 l2.
  assert (Hin : closing ∈ inner).
  { apply list_elem_of_In, in_rev. rewrite Hrev. by left. }
  do 2 apply Exists_cons_tl. apply Exists_app. right.
  do 2 apply Exists_cons_tl. apply Exists_app. left.
  apply Exists_exists. by exists closing.
Qed.

Lemma replaceAll_without_quote l :
  Forall (λ c, isQuote c = false) l → replaceAll 0 l = l.
Proof.
  induction l as [|c t IH]; [done|]. intros Hall.
  cbn [replaceAll]. destruct (matchAt (c :: t)) as [x|] eqn:Hm.
  - apply matchAt_quote in Hm. apply Exists_exists in Hm as (q & Hq & Hquote).
    rewrite Forall_forall in Hall. rewrite (Hall q Hq) in Hquote. done.
  - rewrite IH; [done|]. by inversion Hall.
Qed.

Lemma allChars_Forall P s :
  allChars P s = true ↔ Forall (λ c, P c = true) (list_ascii_of_string s).
Proof.
  induction s as [|c t IH]; cbn [allChars list_ascii_of_string].
  - split; [constructor|done].
  - rewrite andb_true_iff, IH. split.
    + intros [? ?]. by constructor.
    + by inversion 1.
Qed.

Lemma stripImageTitles_without_quote rawMD :
  allChars (notChar "034") rawMD = true → stripImageTitles rawMD = rawMD.
Proof.
  intros Hq%allChars_Forall. unfold stripImageTitles.
  rewrite replaceAll_without_quote; [apply string_of_list_ascii_of_string|].
  eapply Forall_impl; [done|]. intros c Hc. unfold notChar in Hc.
  by apply negb_true_iff in Hc.
Qed.

Lemma replaceAll_skip l k : length l ≤ k → replaceAll k l = [].
Proof.
  revert k. induction l as [|c t IH]; intros k Hk; [done|].
  destruct k as [|k]; [simpl in Hk; lia|]. cbn [replaceAll]. apply IH.
  simpl in Hk. lia.
Qed.

Lemma lastTitleSplit_none l :
  Forall (λ c, isQuote c = false) l → lastTitleSplit l = None.
Proof.
  induction 1 as [|c t Hc Ht IH]; [done|]. cbn [lastTitleSplit]. rewrite IH.
  destruct t as [|d u]; [done|]. inversion Ht as [|?? Hd _]; subst.
  by rewrite Hd, andb_false_r.
Qed.

Lemma lastTitleSplit_app target sp q title :
  isSpace sp = true → isQuote q = true →
  Forall (λ c, isQuote c = false) title →
  lastTitleSplit (target ++ sp :: q :: title) = Some target.
Proof.
  intros Hsp Hq Htitle.
  assert (Hqt : lastTitleSplit (q :: title) = None).
  { cbn [lastTitleSplit]. rewrite (lastTitleSplit_none title Htitle).
    destruct title as [|d u]; [done|].
    assert (isSpace q = false) as ->; [|done].
    unfold isQuote in Hq. apply Ascii.eqb_eq in Hq. by subst q. }
  induction target as [|c t IH].
  - change ([] ++ sp :: q :: title)%list with (sp :: q :: title).
    cbn [lastTitleSplit] in *. rewrite Hqt. by rewrite Hsp, Hq.
  - change ((c :: t) ++ sp :: q :: title)%list with (c :: (t ++ sp :: q :: title))%list.
    cbn [lastTitleSplit]. rewrite IH. done.
Qed.

Lemma list_ascii_of_string_app a b :
  list_ascii_of_string (a +:+ b) =
  (list_ascii_of_string a ++ list_ascii_of_string b)%list.
Proof. induction a as [|c a IH]; [done|]. simpl. by rewrite IH. Qed.

Lemma string_of_list_ascii_app a b :
  string_of_list_ascii (a ++ b) =
  string_of_list_ascii a +:+ string_of_list_ascii b.
Proof. induction a as [|c a IH]; [done|]. simpl. by rewrite IH. Qed.

Lemma matchAt_titled alt target sp title rest :
  Forall (λ c, c ≠ "]"%char) alt →
  Forall (λ c, c ≠ ")"%char) target →
  Forall (λ c, c ≠ ")"%char ∧ isQuote c = false) title →
  isSpace sp = true →
  matchAt ("!" :: "[" :: alt ++ "]" :: "(" :: target ++ sp :: "034" :: title ++
           "034" :: ")" :: rest)%char%list =
  Some (list_ascii_of_string "![" ++ alt ++ list_ascii_of_string "](" ++ target ++
        list_ascii_of_string ")",
        2 + length alt + 2 + (length target + 2 + length title + 1) + 1)%nat%list.
Proof.
  intros Halt Htarget Htitle Hsp. cbn [matchAt]. 
  change (Ascii.eqb "!" "!" && Ascii.eqb "[" "[") with true. cbv iota.
  rewrite (breakAt_app "]" alt _ Halt).
  change (Ascii.eqb "(" "(") with true. cbv iota.
  set (inner := (target ++ sp :: "034"%char :: title ++ ["034"%char])%list).
  assert (Hl : (target ++ sp :: "034" :: title ++ "034" :: ")" :: rest)%char%list =
               (inner ++ ")"%char :: rest)%list).
  { unfold inner. rewrite <-!app_assoc. simpl. by rewrite <-app_assoc. }
  rewrite Hl.
  assert (Hinner : Forall (λ c, c ≠ ")"%char) inner).
  { unfold inner. apply Forall_app. split; [done|].
    constructor.
    { intros ->. done. }
    constructor; [done|]. apply Forall_app. split.
    - eapply Forall_impl; [done|]. by intros c [? _].
    - by constructor. }
  rewrite (breakAt_app ")" inner _ Hinner).
  assert (Hrev : rev inner = ("034"%char :: rev (target ++ sp :: "034"%char :: title))%list).
  { unfold inner.
    change (target ++ sp :: "034"%char :: title ++ ["034"%char])%list
      with (target ++ (sp :: "034"%char :: title) ++ ["034"%char])%list.
    rewrite app_assoc. by rewrite rev_unit. }
  rewrite Hrev. change (isQuote "034") with true. cbv iota.
  rewrite rev_involutive.
  rewrite lastTitleSplit_app; [|done|done|].
  - do 2 f_equal. unfold inner. rewrite !length_app. simpl. rewrite length_app. simpl. lia.
  - eapply Forall_impl; [done|]. by intros c [_ ?].
Qed.

Lemma replaceAll_skip_app k l rest :
  k = length l → replaceAll k (l ++ rest) = replaceAll 0 rest.
Proof.
  intros ->. induction l as [|c t IH]; [done|].
  cbn [length app replaceAll]. exact IH.
Qed.

Lemma matchAt_none c l : c ≠ "!"%char → matchAt (c :: l) = None.
Proof.
  intros Hc. destruct l as [|d l]; [done|]. cbn [matchAt].
  apply Ascii.eqb_neq in Hc. by rewrite Hc.
Qed.

Lemma replaceAll_before before l :
  Forall (λ c, c ≠ "!"%char) before →
  replaceAll 0 (before ++ l) = (before ++ replaceAll 0 l)%list.
Proof.
  induction 1 as [|c before Hc _ IH]; [done|].
  cbn [app replaceAll]. rewrite (matchAt_none c _ Hc). by rewrite IH.
Qed.

Lemma allChars_notChar stop s :
  allChars (notChar stop) s = true ↔
  Forall (λ c, c ≠ stop) (list_ascii_of_string s).
Proof.
  rewrite allChars_Forall. apply Forall_iff. intros c. unfold notChar.
  rewrite negb_true_iff. apply Ascii.eqb_neq.
Qed.

Lemma replaceAll_titled before alt target sp title rest :
  Forall (λ c, c ≠ "!"%char) before →
  Forall (λ c, c ≠ "]"%char) alt →
  Forall (λ c, c ≠ ")"%char) target →
  Forall (λ c, c ≠ ")"%char ∧ isQuote c = false) title →
  isSpace sp = true →
  Forall (λ c, isQuote c = false) rest →
  replaceAll 0
    (before ++ "!" :: "[" :: alt ++ "]" :: "(" :: target ++ sp :: "034" ::
     title ++ "034" :: ")" :: rest)%char%list =
  (before ++ "!" :: "[" :: alt ++ "]" :: "(" :: target ++ ")" :: rest)%char%list.
Proof.
  intros Hbefore Halt Htarget Htitle Hsp Hrest.
  rewrite (replaceAll_before _ _ Hbefore). f_equal.
  cbn [replaceAll].
  rewrite (matchAt_titled alt target sp title rest Halt Htarget Htitle Hsp).
  cbn [Nat.pred Nat.add].
  set (l := (alt ++ "]" :: "(" :: target ++ sp :: "034" :: title ++
             ["034"; ")"])%char%list).
  assert (Hl : (alt ++ "]" :: "(" :: target ++ sp :: "034" :: title ++
                "034" :: ")" :: rest)%char%list = (l ++ rest)%list).
  { unfold l. rewrite <-app_assoc. cbn [app]. do 3 f_equal.
    rewrite <-app_assoc. cbn [app]. do 3 f_equal. by rewrite <-app_assoc. }
  rewrite Hl, replaceAll_skip_app.
  - rewrite (replaceAll_without_quote _ Hrest). cbn [list_ascii_of_string app].
    do 2 f_equal. rewrite <-app_assoc. cbn [app]. do 3 f_equal.
    by rewrite <-app_assoc.
  - unfold l. rewrite !length_app. cbn [length].
    rewrite !length_app. cbn [length]. rewrite length_app. cbn [length]. lia.
Qed.

Lemma list_ascii_of_string_cons c s :
  list_ascii_of_string (String c s) = c :: list_ascii_of_string s.
Proof. done. Qed.

Lemma stripImageTitles_titled before alt target sp title rest :
  allChars (notChar "!") before = true →
  allChars (notChar "]") alt = true →
  allChars (notChar ")") target = true →
  allChars (λ c, notChar ")" c && notChar "034" c) title = true →
  isSpace sp = true →
  allChars (notChar "034") rest = true →
  stripImageTitles
    (before +:+ "![" +:+ alt +:+ "](" +:+ target +:+
     String sp (String "034" (title +:+ String "034" (String ")" rest)))) =
  before +:+ "![" +:+ alt +:+ "](" +:+ target +:+ ")" +:+ rest.
Proof.
  intros Hbefore%allChars_notChar Halt%allChars_notChar
    Htarget%allChars_notChar Htitle%allChars_Forall Hsp Hrest%allChars_notChar.
  assert (Htitle' : Forall (λ c, c ≠ ")"%char ∧ isQuote c = false)
                      (list_ascii_of_string title)).
  { eapply Forall_impl; [exact Htitle|]. intros c [Hc1 Hc2]%andb_prop.
    unfold notChar in *. apply negb_true_iff in Hc1, Hc2.
    split; [by apply Ascii.eqb_neq|done]. }
  assert (Hrest' : Forall (λ c, isQuote c = false) (list_ascii_of_string rest)).
  { eapply Forall_impl; [exact Hrest|]. intros c Hc. by apply Ascii.eqb_neq. }
  unfold stripImageTitles.
  rewrite <-(string_of_list_ascii_of_string
               (before +:+ "![" +:+ alt +:+ "](" +:+ target +:+ ")" +:+ rest)).
  f_equal.
  repeat first [rewrite list_ascii_of_string_app
               |rewrite list_ascii_of_string_cons].
  change (list_ascii_of_string EmptyString) with (@nil ascii).
  cbn [app].
  by apply replaceAll_titled.
Qed.

End TitleFacts.

(** ** Relations that every step keeps *)

Section KeepFacts.
Context {task : Type} (R : state task → state task → Prop) `{!Stepwise R}.

Lemma keeps_ret {A} (a : A) : keeps R (ret a).
Proof. intros s. apply step_refl. Qed.

Lemma keeps_throw {A} message : keeps R (throw (A := A) message).
Proof. intros s. apply step_refl. Qed.

Lemma keeps_bind {A B} (m : M A) (k : A → M B) :
  keeps R m → (∀ a, keeps R (k a)) → keeps R (bind m k).
Proof.
  intros Hm Hk s. unfold bind. specialize (Hm s).
  destruct (m s) as [[a|message] s1]; simpl in *; [|done].
  eapply step_trans; [done|]. apply Hk.
Qed.

Lemma keeps_tryCatch {A} (body : M A) handler :
  keeps R body → (∀ message, keeps R (handler message)) →
  keeps R (tryCatch body handler).
Proof.
  intros Hm Hk s. unfold tryCatch. specialize (Hm s).
  destruct (body s) as [[a|message] s1]; simpl in *; [done|].
  eapply step_trans; [done|]. apply Hk.
Qed.

Lemma keeps_asyncCall (m : M unit) : keeps R m → keeps R (asyncCall m).
Proof.
  intros Hm s. unfold asyncCall. specialize (Hm s).
  destruct (m s) as [[?|message] s1]; simpl in *; [done|].
  eapply step_trans; [done|]. apply (step_rejected s1 message).
Qed.

Lemma keeps_eachAsync {A} (l : list A) callback index :
  (∀ i x, x ∈ l → keeps R (callback i x)) → keeps R (eachAsync l callback index).
Proof.
  revert index. induction l as [|x l IH]; intros index Hc; simpl.
  - apply keeps_ret.
  - apply keeps_bind; [apply keeps_asyncCall, Hc; by left|].
    intros _. apply IH. intros i y Hy. apply Hc. by right.
Qed.

Lemma keeps_visitedSize : keeps R visitedSize.
Proof. intros s. apply step_refl. Qed.

Lemma keeps_visitedHas name : keeps R (visitedHas name).
Proof. intros s. apply step_refl. Qed.

Lemma keeps_imageHas src : keeps R (imageHas src).
Proof. intros s. apply step_refl. Qed.

Lemma keeps_settled r : keeps R (settled r).
Proof. destruct r; [apply keeps_ret|apply keeps_throw]. Qed.

(** what follows [imageDownloads.has(src)] knows its answer *)
Lemma keeps_imageHas_bind {B} src (k : bool → M B) :
  (∀ s, R s (snd (k (bool_decide (src ∈ imageDownloads s)) s))) →
  keeps R (bind (imageHas src) k).
Proof. intros Hk s. unfold bind, imageHas. apply Hk. Qed.

Lemma keeps_take_run (deliver : nat → response → state task → state task)
    (run : list (nat * response) → state task → state task) :
  (∀ i r s, R s (deliver i r s)) →
  (∀ s, run [] s = s) →
  (∀ i r later s, run ((i, r) :: later) s = run later (deliver i r s)) →
  ∀ schedule s, R s (run schedule s).
Proof.
  intros Hd Hnil Hcons schedule. induction schedule as [|[i r] later IH]; intros s.
  - rewrite Hnil. apply step_refl.
  - rewrite Hcons. eapply step_trans; [apply Hd|apply IH].
Qed.

End KeepFacts.

Lemma preserving_stepwise {task} (I : state task → Prop) :
  (∀ s message, I s → I (rejected message s)) → Stepwise (preserving I).
Proof.
  intros Hrej. split; unfold preserving.
  - auto.
  - auto.
  - apply Hrej.
Qed.

Ltac keep_structure :=
  first
    [ progress cbv zeta
    | match goal with
      | |- keeps _ (ret _) => apply keeps_ret; tc_solve
      | |- keeps _ (throw _) => apply keeps_throw; tc_solve
      | |- keeps _ visitedSize => apply keeps_visitedSize; tc_solve
      | |- keeps _ (visitedHas _) => apply keeps_visitedHas; tc_solve
      | |- keeps _ (imageHas _) => apply keeps_imageHas; tc_solve
      | |- keeps _ (settled _) => apply keeps_settled; tc_solve
      | |- keeps _ (bind _ _) => apply keeps_bind; [tc_solve| |intros ?]
      | |- keeps _ (tryCatch _ _) => apply keeps_tryCatch; [tc_solve| |intros ?]
      | |- keeps _ (match ?x with _ => _ end) => destruct x eqn:?
      | |- keeps _ (if ?x then _ else _) => destruct x eqn:?
      end ].

(** ** The richer pipeline: the page ceiling bounds the visited set *)

Module RichRunFacts.
Import Rich RichRun RichFacts.

Section Facts.
Context `{Cheerio} `{Platform}.
Variable domain : string.
Variable root : option string.

#[local] Abbreviation task := Rich.task.
Implicit Types s : state task.

#[local] Abbreviation bounded := (preserving (task := task) withinCeiling).

#[local] Instance bounded_stepwise : Stepwise bounded.
Proof. by apply preserving_stepwise. Qed.

Lemma bounded_same s s' : visitedPages s' = visitedPages s → bounded s s'.
Proof. unfold preserving, withinCeiling. by intros ->. Qed.

Ltac bounded_step :=
  solve [intros ?; apply bounded_same; reflexivity].

Lemma bounded_extractLocalPathFromUrl url :
  keeps bounded (extractLocalPathFromUrl url).
Proof.
  unfold extractLocalPathFromUrl, newURL_pathname, consoleError.
  repeat first [keep_structure | bounded_step].
Qed.

Lemma bounded_downloadImage_responded url filename r :
  keeps bounded (downloadImage_responded url filename r).
Proof.
  unfold downloadImage_responded, consoleError.
  repeat first [keep_structure | bounded_step].
Qed.

Lemma bounded_downloadImage_settled url filename data w :
  keeps bounded (downloadImage_settled url filename data w).
Proof.
  unfold downloadImage_settled, consoleError, consoleLog.
  repeat first [keep_structure | bounded_step].
Qed.

Lemma bounded_crawl url baseFolder : keeps bounded (crawl url baseFolder).
Proof.
  intros s. rewrite rich_crawl_eq. cbn [snd].
  destruct (_ <=? _)%Z eqn:Hc; [by intros ?|].
  apply Z.leb_nle in Hc.
  assert (Hs1 : visitedPages (afterUrlCheck url s) = visitedPages s)
    by (unfold afterUrlCheck; by destruct (url_pathname url)).
  destruct (decide _) as [Hin|Hin]; [by apply bounded_same|].
  assert (Hsize : size ({[pageFileNameOf url]} ∪ visitedPages s) =
                  S (size (visitedPages s))).
  { rewrite size_union by set_solver. by rewrite size_singleton. }
  destruct (ignored _); intros _; unfold withinCeiling; cbn [visitedPages];
    rewrite Hsize; lia.
Qed.

Ltac bounded_keep :=
  repeat first
    [ apply bounded_extractLocalPathFromUrl
    | apply bounded_downloadImage_responded
    | apply bounded_downloadImage_settled
    | apply bounded_crawl
    | keep_structure | bounded_step ].

Lemma bounded_linksLoop links dollar : keeps bounded (linksLoop domain dollar links).
Proof.
  revert dollar. induction links as [|element rest IH]; intros dollar;
    cbn [linksLoop]; bounded_keep; apply IH.
Qed.

Lemma bounded_savePage dollar url p filename :
  keeps bounded (savePage domain root dollar url p filename).
Proof. unfold savePage, consoleLog. bounded_keep; apply bounded_linksLoop. Qed.

Lemma bounded_imagesLoop images dollar url p filename :
  keeps bounded (imagesLoop domain root dollar images url p filename).
Proof.
  revert dollar. induction images as [|element rest IH]; intros dollar;
    cbn [imagesLoop]; [apply bounded_savePage|].
  unfold downloadImage_request. bounded_keep; apply IH.
Qed.

Lemma bounded_resume t r : keeps bounded (resume domain root t r).
Proof.
  destruct t; cbn [resume].
  - unfold onPageSettled, downloadAndSavePage_settled, consoleError. bounded_keep.
  - apply bounded_imagesLoop.
  - unfold onImageResponded. bounded_keep; apply bounded_imagesLoop.
  - unfold onImageSettled. bounded_keep; apply bounded_imagesLoop.
  - unfold onLinksSettled, consoleError. bounded_keep.
    apply keeps_eachAsync; [tc_solve|]. intros i x _. bounded_keep.
Qed.

Lemma bounded_deliver i r s : bounded s (deliver domain root i r s).
Proof.
  unfold deliver. destruct (pending s !! i) as [t|]; [|by intros ?].
  apply (step_trans _ (take i s)); [by apply bounded_same|].
  apply keeps_asyncCall; [tc_solve|apply bounded_resume].
Qed.

Lemma bounded_run schedule s : bounded s (run domain root schedule s).
Proof.
  apply (keeps_take_run bounded (deliver domain root) (run domain root));
    [apply bounded_deliver|done|done].
Qed.

Lemma bounded_start disk : withinCeiling (start domain disk).
Proof.
  unfold start, main.
  apply (keeps_asyncCall bounded _ (bounded_crawl _ _)).
  unfold withinCeiling. cbn [visitedPages]. rewrite size_empty. done.
Qed.

End Facts.
End RichRunFacts.

(** ** An image that has been downloaded is not requested again *)

Section ImageFacts.
Context {task : Type}.
Variable src : string.
Implicit Types s : state task.

#[local] Abbreviation settledImage := (imageSettled (task := task) src).

#[export] Instance imageSettled_stepwise : Stepwise settledImage.
Proof.
  split.
  - by intros s Hs.
  - intros s1 s2 s3 H12 H23 Hs. destruct (H12 Hs) as [Hs2 Heq2].
    destruct (H23 Hs2) as [Hs3 Heq3]. split; [done|congruence].
  - by intros s message Hs.
Qed.

Lemma imageSettled_same s s' :
  imageDownloads s ⊆ imageDownloads s' →
  imageRequests (trace s') = imageRequests (trace s) →
  settledImage s s'.
Proof. intros Hsub Heq Hs. rewrite Heq. split; [by apply Hsub|done]. Qed.

Lemma occurrences_other (x y : string) l :
  y ≠ x → occurrences x (y :: l) = occurrences x l.
Proof. intros Hne. unfold occurrences. by rewrite filter_cons_False. Qed.

(** a request for an image that is not in [imageDownloads] *)
Lemma imageSettled_request s s' imgSrc :
  imgSrc ∉ imageDownloads s →
  imageDownloads s' = imageDownloads s →
  imageRequests (trace s') = imgSrc :: imageRequests (trace s) →
  settledImage s s'.
Proof.
  intros Hnew Hsame Heq Hs. rewrite Hsame, Heq. split; [done|].
  apply occurrences_other. by intros ->.
Qed.

Context `{Platform}.

Lemma imageSettled_extractLocalPathFromUrl url :
  keeps settledImage (extractLocalPathFromUrl url).
Proof.
  intros s. unfold extractLocalPathFromUrl, newURL_pathname, tryCatch, bind.
  destruct (url_pathname url); by apply imageSettled_same.
Qed.

Lemma imageSettled_downloadImage_responded url filename r :
  keeps settledImage (downloadImage_responded url filename r).
Proof.
  intros s. unfold downloadImage_responded, tryCatch, bind, settled.
  destruct r; by apply imageSettled_same.
Qed.

Lemma imageSettled_downloadImage_settled url filename data w :
  keeps settledImage (downloadImage_settled url filename data w).
Proof.
  intros s. unfold downloadImage_settled, tryCatch, bind, settled.
  destruct w; by apply imageSettled_same.
Qed.

End ImageFacts.

Ltac image_step :=
  solve [intros ?; apply imageSettled_same;
         [simpl; first [done | apply union_subseteq_r]|reflexivity]].

Ltac image_keep :=
  repeat first
    [ apply imageSettled_extractLocalPathFromUrl
    | apply imageSettled_downloadImage_responded
    | apply imageSettled_downloadImage_settled
    | keep_structure | image_step ].

Module RichImageFacts.
Import Rich RichFacts.

Section Facts.
Context `{Cheerio} `{Platform}.
Variable domain : string.
Variable root : option string.
Variable src : string.

#[local] Abbreviation task := Rich.task.
Implicit Types s : state task.

#[local] Abbreviation settledImage := (imageSettled (task := task) src).

Lemma rich_imageSettled_crawl url baseFolder :
  keeps settledImage (crawl url baseFolder).
Proof.
  unfold crawl, downloadAndSavePage_request, consoleLog. image_keep.
Qed.

Lemma rich_imageSettled_linksLoop links dollar :
  keeps settledImage (linksLoop domain dollar links).
Proof.
  revert dollar. induction links as [|element rest IH]; intros dollar;
    cbn [linksLoop]; image_keep; apply IH.
Qed.

Lemma rich_imageSettled_savePage dollar url p filename :
  keeps settledImage (savePage domain root dollar url p filename).
Proof. unfold savePage, consoleLog. image_keep; apply rich_imageSettled_linksLoop. Qed.

Lemma rich_imageSettled_imagesLoop images dollar url p filename :
  keeps settledImage (imagesLoop domain root dollar images url p filename).
Proof.
  revert dollar. induction images as [|element rest IH]; intros dollar;
    cbn [imagesLoop]; [apply rich_imageSettled_savePage|].
  destruct (truthy _) as [imgSrc|]; [|apply IH].
  apply keeps_imageHas_bind. intros s.
  destruct (decide (imgSrc ∈ imageDownloads s)) as [Hin|Hnew].
  - rewrite bool_decide_eq_true_2 by done. apply IH.
  - rewrite bool_decide_eq_false_2 by done. by apply (imageSettled_request _ _ _ imgSrc).
Qed.

Lemma rich_imageSettled_resume t r : keeps settledImage (resume domain root t r).
Proof.
  destruct t; cbn [resume].
  - unfold onPageSettled, downloadAndSavePage_settled, consoleError. image_keep.
  - apply rich_imageSettled_imagesLoop.
  - unfold onImageResponded. image_keep; apply rich_imageSettled_imagesLoop.
  - unfold onImageSettled. image_keep; apply rich_imageSettled_imagesLoop.
  - unfold onLinksSettled, consoleError. image_keep.
    apply keeps_eachAsync; [tc_solve|]. intros i x _.
    image_keep; apply rich_imageSettled_crawl.
Qed.

Lemma rich_imageSettled_deliver i r s : settledImage s (deliver domain root i r s).
Proof.
  unfold deliver. destruct (pending s !! i) as [t|]; [|apply step_refl].
  apply (step_trans _ (take i s)); [by apply imageSettled_same|].
  apply keeps_asyncCall; [tc_solve|apply rich_imageSettled_resume].
Qed.

Lemma rich_imageSettled_run schedule s : settledImage s (run domain root schedule s).
Proof.
  apply (keeps_take_run settledImage (deliver domain root) (run domain root));
    [apply rich_imageSettled_deliver|done|done].
Qed.

End Facts.
End RichImageFacts.

Module SimpleImageFacts.
Import Simple SimpleFacts.

Section Facts.
Context `{Cheerio} `{Platform}.
Variable domain : string.
Variable src : string.

#[local] Abbreviation task := Simple.task.
Implicit Types s : state task.

#[local] Abbreviation settledImage := (imageSettled (task := task) src).

Lemma simple_imageSettled_crawl url baseFolder :
  keeps settledImage (crawl url baseFolder).
Proof. unfold crawl, downloadAndSavePage_request. image_keep. Qed.

Lemma simple_imageSettled_eachImage images dollar index filename :
  keeps settledImage (eachImage dollar images index filename).
Proof.
  revert dollar index. induction images as [|element rest IH];
    intros dollar index; cbn [eachImage]; [image_keep|].
  destruct (truthy _) as [imgSrc|]; [|apply IH].
  apply keeps_imageHas_bind. intros s.
  destruct (decide (imgSrc ∈ imageDownloads s)) as [Hin|Hnew].
  - rewrite bool_decide_eq_true_2 by done. apply IH.
  - rewrite bool_decide_eq_false_2 by done.
    cbn [negb]. unfold bind, downloadImage_request, emit, suspend. cbn [fst snd].
    eapply step_trans; [|apply IH].
    by apply (imageSettled_request _ _ _ imgSrc).
Qed.

Lemma simple_imageSettled_resume t r : keeps settledImage (resume domain t r).
Proof.
  destruct t; cbn [resume].
  - unfold onPageSettled, downloadAndSavePage_settled, consoleError. image_keep.
  - unfold onEnd. image_keep.
  - unfold onFirstWrite, consoleLog. image_keep. apply simple_imageSettled_eachImage.
  - unfold onImageResponded. image_keep.
  - unfold onImageSettled. image_keep.
  - unfold onLinksSettled, consoleError. image_keep.
    apply keeps_eachAsync; [tc_solve|]. intros i x _.
    image_keep; apply simple_imageSettled_crawl.
Qed.

Lemma simple_imageSettled_deliver i r s : settledImage s (deliver domain i r s).
Proof.
  unfold deliver. destruct (pending s !! i) as [t|]; [|apply step_refl].
  apply (step_trans _ (take i s)); [by apply imageSettled_same|].
  apply keeps_asyncCall; [tc_solve|apply simple_imageSettled_resume].
Qed.

Lemma simple_imageSettled_run schedule s : settledImage s (run domain schedule s).
Proof.
  apply (keeps_take_run settledImage (deliver domain) (run domain));
    [apply simple_imageSettled_deliver|done|done].
Qed.

End Facts.
End SimpleImageFacts.

(** ** The richer pipeline: what is requested, and where files go *)

Module RichShapeFacts.
Import Rich RichRun RichFacts.

Section Facts.
Context `{Cheerio} `{Platform}.
Variable domain : string.
Variable root : option string.
Variable disk : gmap string string.

#[local] Abbreviation task := Rich.task.
Implicit Types s : state task.

#[local] Abbreviation shaped := (preserving (wellFormed domain disk)).

#[local] Instance shaped_stepwise : Stepwise shaped.
Proof. by apply preserving_stepwise. Qed.

Lemma shaped_emit e : goodEvent domain e → keeps shaped (emit e).
Proof.
  intros He s (Ht & Hp & Hf). split; [|done]. cbn [emit snd trace].
  by constructor.
Qed.

Lemma shaped_writeFile e filename content :
  goodEvent domain e →
  pagePath domain filename ∨ imagePath domain filename →
  keeps shaped (writeFile e filename content).
Proof.
  intros He Hpath s (Ht & Hp & Hf). split; [|split; [done|]];
    cbn [writeFile snd trace files].
  - by constructor.
  - intros f. rewrite dom_insert_L, elem_of_union, elem_of_singleton.
    intros [->|Hin]; [by right|by apply Hf].
Qed.

Lemma shaped_suspend t : goodTask domain t → keeps shaped (suspend t).
Proof.
  intros Hgood s (Ht & Hp & Hf). split; [done|]. split; [|done].
  cbn [suspend snd pending]. apply Forall_app. split; [done|]. by constructor.
Qed.

Lemma shaped_imageAdd src : keeps shaped (imageAdd src).
Proof. by intros s ?. Qed.

Lemma shaped_visitedAdd name : keeps shaped (visitedAdd name).
Proof. by intros s ?. Qed.

Ltac shaped_step :=
  first
    [ solve [apply shaped_imageAdd]
    | solve [apply shaped_visitedAdd]
    | solve [apply shaped_emit; done]
    | solve [apply shaped_suspend; done] ].

Lemma shaped_extractLocalPathFromUrl url :
  keeps shaped (extractLocalPathFromUrl url).
Proof.
  unfold extractLocalPathFromUrl, newURL_pathname, consoleError.
  repeat first [keep_structure | shaped_step].
Qed.

Lemma shaped_downloadImage_responded url filename r :
  keeps shaped (downloadImage_responded url filename r).
Proof.
  unfold downloadImage_responded, consoleError.
  repeat first [keep_structure | shaped_step].
Qed.

Lemma shaped_downloadImage_settled url filename data w :
  imagePath domain filename →
  keeps shaped (downloadImage_settled url filename data w).
Proof.
  intros Hpath. unfold downloadImage_settled, consoleError, consoleLog.
  repeat first [keep_structure | shaped_step].
  apply shaped_writeFile; [done|by right].
Qed.

Lemma shaped_crawl url :
  crawled domain url → keeps shaped (crawl url (folder domain)).
Proof.
  intros Hurl s. rewrite rich_crawl_eq. cbn [snd].
  assert (Hs1 : shaped s (afterUrlCheck url s)).
  { unfold afterUrlCheck. destruct (url_pathname url); [by intros ?|].
    intros (Ht & Hp & Hf). split; [|done]. by constructor. }
  destruct (_ <=? _)%Z; [by intros ?|].
  destruct (decide _) as [Hin|Hin]; [done|].
  destruct (ignored _) eqn:Hig; intros Hs;
    destruct (Hs1 Hs) as (Ht1 & _ & _); destruct Hs as (Ht & Hp & Hf).
  - split; [by constructor|done].
  - assert (Hfile : pageFile domain url (pageFileNameOf url)
                      (path_join (folder domain) (pageFileNameOf url)))
      by by repeat split.
    split; [|split; [|done]]; cbn [trace pending].
    + by constructor.
    + apply Forall_app. split; [done|]. by constructor.
Qed.

Ltac shaped_keep :=
  repeat first
    [ apply shaped_extractLocalPathFromUrl
    | keep_structure | shaped_step ].

Lemma shaped_linksLoop links dollar : keeps shaped (linksLoop domain dollar links).
Proof.
  revert dollar. induction links as [|element rest IH]; intros dollar;
    cbn [linksLoop]; shaped_keep; apply IH.
Qed.

Lemma shaped_savePage dollar url p filename :
  pageFile domain url p filename →
  keeps shaped (savePage domain root dollar url p filename).
Proof.
  intros Hfile. unfold savePage, consoleLog. shaped_keep.
  - apply shaped_linksLoop.
  - apply shaped_writeFile; [by exists url|]. left. by exists url, p.
Qed.

Lemma shaped_imagesLoop images dollar url p filename :
  pageFile domain url p filename →
  keeps shaped (imagesLoop domain root dollar images url p filename).
Proof.
  intros Hfile. revert dollar. induction images as [|element rest IH];
    intros dollar; cbn [imagesLoop]; [by apply shaped_savePage|].
  destruct (truthy _) as [imgSrc|]; [|apply IH].
  unfold downloadImage_request. shaped_keep; try apply IH.
  apply shaped_emit. exists filename, imgSrc. split; [by exists url, p|done].
Qed.

Lemma shaped_resume t r :
  goodTask domain t → keeps shaped (resume domain root t r).
Proof.
  destruct t; cbn [resume goodTask].
  - intros Hfile. pose proof Hfile as (Hurl & _).
    unfold onPageSettled, downloadAndSavePage_settled, consoleError. shaped_keep.
  - intros Hfile. by apply shaped_imagesLoop.
  - intros [Hfile ->]. unfold onImageResponded.
    apply keeps_bind; [tc_solve|apply shaped_downloadImage_responded|].
    intros [data|]; [by apply shaped_suspend|].
    shaped_keep. by apply shaped_imagesLoop.
  - intros [Hfile ->]. unfold onImageSettled. shaped_keep.
    + apply shaped_downloadImage_settled. exists filename, imgSrc.
      split; [by exists url, pageFileName|done].
    + by apply shaped_imagesLoop.
  - intros Hurl. unfold onLinksSettled, consoleError. shaped_keep.
    apply keeps_eachAsync; [tc_solve|]. intros i x _.
    destruct (truthy _) as [link|]; [|shaped_keep].
    destruct (_ link) eqn:Hlink; [|shaped_keep].
    apply shaped_crawl. right.
    match goal with
    | Hre : domainRegExp domain = Some ?re |- _ => by exists re, link
    end.
Qed.

Lemma shaped_deliver i r s : shaped s (deliver domain root i r s).
Proof.
  unfold deliver. destruct (pending s !! i) as [t|] eqn:Hi; [|by intros ?].
  intros Hs.
  assert (Ht : goodTask domain t).
  { destruct Hs as (_ & Hp & _). rewrite Forall_forall in Hp.
    by apply Hp, (list_elem_of_lookup_2 _ i). }
  apply (keeps_asyncCall shaped _ (shaped_resume t r Ht)).
  destruct Hs as (Htr & Hp & Hf). split; [done|]. split; [|done].
  cbn [take pending]. by apply Forall_delete.
Qed.

Lemma shaped_run schedule s : shaped s (run domain root schedule s).
Proof.
  apply (keeps_take_run shaped (deliver domain root) (run domain root));
    [apply shaped_deliver|done|done].
Qed.

Lemma shaped_start : wellFormed domain disk (start domain disk).
Proof.
  unfold start, main.
  apply (keeps_asyncCall shaped _ (shaped_crawl _ (or_introl eq_refl))).
  split; [constructor|]. split; [constructor|]. intros f Hf. by left.
Qed.

Lemma shaped_reached schedule :
  wellFormed domain disk (run domain root schedule (start domain disk)).
Proof. apply shaped_run, shaped_start. Qed.

End Facts.
End RichShapeFacts.

(** ** The richer pipeline: a second request for every page request *)

Module RichBalanceFacts.
Import Rich RichRun RichFacts.

Section Facts.
Context `{Cheerio} `{Platform}.
Variable domain : string.
Variable root : option string.

#[local] Abbreviation task := Rich.task.
Implicit Types s : state task.

#[export] Instance balanced_stepwise : Stepwise balanced.
Proof.
  split.
  - intros s. by exists [].
  - intros s1 s2 s3 (l & Hl & Hr) (l' & Hl' & Hr'). exists (l' ++ l).
    split.
    + by rewrite Hl', Hl, <-app_assoc.
    + by rewrite Hr', Hr, <-app_assoc.
  - intros s message. by exists [].
Qed.

Lemma balanced_same s s' :
  linkRequests (trace s') = linkRequests (trace s) →
  pagesAwaited (pending s') = pagesAwaited (pending s) →
  pageRequests (trace s') = pageRequests (trace s) →
  balanced s s'.
Proof. intros Hl Hp Hr. exists []. by rewrite Hl, Hp, Hr. Qed.

Lemma balanced_emit e :
  linksRequested e = None → pageRequested e = None → keeps balanced (emit e).
Proof.
  intros Hl Hr s. apply balanced_same; [|done|]; cbn [emit snd trace].
  - unfold linkRequests. simpl. by rewrite Hl.
  - unfold pageRequests. simpl. by rewrite Hr.
Qed.

Lemma balanced_writeFile e filename content :
  linksRequested e = None → pageRequested e = None →
  keeps balanced (writeFile e filename content).
Proof.
  intros Hl Hr s. apply balanced_same; [|done|]; cbn [writeFile snd trace].
  - unfold linkRequests. simpl. by rewrite Hl.
  - unfold pageRequests. simpl. by rewrite Hr.
Qed.

Lemma pagesAwaited_snoc ts t :
  pagesAwaited (ts ++ [t]) =
  pagesAwaited ts ++ from_option (λ url, [url]) [] (pageAwaited t).
Proof.
  unfold pagesAwaited. rewrite omap_app. simpl. by destruct (pageAwaited t).
Qed.

Lemma balanced_suspend t : pageAwaited t = None → keeps balanced (suspend t).
Proof.
  intros Ht s. apply balanced_same; [done| |done]. cbn [suspend snd pending].
  rewrite pagesAwaited_snoc, Ht. apply app_nil_r.
Qed.

Lemma balanced_imageAdd src : keeps balanced (imageAdd src).
Proof. intros s. by apply balanced_same. Qed.

Ltac balanced_step :=
  first
    [ solve [apply balanced_imageAdd]
    | solve [apply balanced_emit; reflexivity]
    | solve [apply balanced_writeFile; reflexivity]
    | solve [apply balanced_suspend; reflexivity] ].

Lemma balanced_extractLocalPathFromUrl url :
  keeps balanced (extractLocalPathFromUrl url).
Proof.
  unfold extractLocalPathFromUrl, newURL_pathname, consoleError.
  repeat first [keep_structure | balanced_step].
Qed.

Lemma balanced_downloadImage_responded url filename r :
  keeps balanced (downloadImage_responded url filename r).
Proof.
  unfold downloadImage_responded, consoleError.
  repeat first [keep_structure | balanced_step].
Qed.

Lemma balanced_downloadImage_settled url filename data w :
  keeps balanced (downloadImage_settled url filename data w).
Proof.
  unfold downloadImage_settled, consoleError, consoleLog.
  repeat first [keep_structure | balanced_step].
Qed.

Lemma balanced_crawl url baseFolder : keeps balanced (crawl url baseFolder).
Proof.
  intros s. rewrite rich_crawl_eq. cbn [snd].
  assert (Hs1 : balanced s (afterUrlCheck url s)).
  { unfold afterUrlCheck. destruct (url_pathname url); [apply step_refl|].
    by apply balanced_same. }
  assert (Ht1 : linkRequests (trace (afterUrlCheck url s)) = linkRequests (trace s) ∧
                pageRequests (trace (afterUrlCheck url s)) = pageRequests (trace s)).
  { unfold afterUrlCheck. by destruct (url_pathname url). }
  destruct Ht1 as [Hl1 Hr1].
  destruct (_ <=? _)%Z; [apply step_refl|].
  destruct (decide _) as [Hin|Hin]; [done|].
  destruct (ignored _).
  - apply balanced_same; [|done|]; cbn [trace].
    + by rewrite <-Hl1.
    + by rewrite <-Hr1.
  - exists [url]. cbn [trace pending]. split.
    + change (linkRequests (GetPage ?u ?p ?f :: ?t)) with (linkRequests t).
      rewrite Hl1, pagesAwaited_snoc. cbn [pageAwaited from_option].
      rewrite app_assoc. by rewrite <-Permutation_cons_append.
    + change (pageRequests (GetPage ?u ?p ?f :: ?t)) with (u :: pageRequests t).
      by rewrite Hr1.
Qed.

Ltac balanced_keep :=
  repeat first
    [ apply balanced_extractLocalPathFromUrl
    | apply balanced_downloadImage_responded
    | apply balanced_downloadImage_settled
    | apply balanced_crawl
    | keep_structure | balanced_step ].

Lemma balanced_linksLoop links dollar : keeps balanced (linksLoop domain dollar links).
Proof.
  revert dollar. induction links as [|element rest IH]; intros dollar;
    cbn [linksLoop]; balanced_keep; apply IH.
Qed.

Lemma balanced_savePage dollar url p filename :
  keeps balanced (savePage domain root dollar url p filename).
Proof. unfold savePage, consoleLog. balanced_keep; apply balanced_linksLoop. Qed.

Lemma balanced_imagesLoop images dollar url p filename :
  keeps balanced (imagesLoop domain root dollar images url p filename).
Proof.
  revert dollar. induction images as [|element rest IH]; intros dollar;
    cbn [imagesLoop]; [apply balanced_savePage|].
  unfold downloadImage_request. balanced_keep; apply IH.
Qed.

(** every continuation but the one that waits for a page request *)
Lemma balanced_resume t r :
  pageAwaited t = None → keeps balanced (resume domain root t r).
Proof.
  destruct t; cbn [resume pageAwaited]; [done| | | |]; intros _.
  - apply balanced_imagesLoop.
  - unfold onImageResponded. balanced_keep; apply balanced_imagesLoop.
  - unfold onImageSettled. balanced_keep; apply balanced_imagesLoop.
  - unfold onLinksSettled, consoleError. balanced_keep.
    apply keeps_eachAsync; [tc_solve|]. intros i x _. balanced_keep.
Qed.

Lemma pagesAwaited_delete i t ts :
  ts !! i = Some t →
  pagesAwaited ts ≡ₚ
  from_option (λ url, [url]) [] (pageAwaited t) ++ pagesAwaited (delete i ts).
Proof.
  intros Hi. unfold pagesAwaited. rewrite (delete_Permutation _ _ _ Hi) at 1.
  simpl. by destruct (pageAwaited t).
Qed.

Lemma pagesAwaited_cons t ts :
  pagesAwaited (t :: ts) =
  from_option (λ url, [url]) [] (pageAwaited t) ++ pagesAwaited ts.
Proof. unfold pagesAwaited. simpl. by destruct (pageAwaited t). Qed.

Lemma pagesAwaited_delete_other i t ts :
  ts !! i = Some t → pageAwaited t = None →
  pagesAwaited (delete i ts) = pagesAwaited ts.
Proof.
  intros Hi Ht. revert i Hi. induction ts as [|t' ts IH]; intros [|i] Hi;
    try done.
  - injection Hi as ->. change (delete 0 (t :: ts)) with ts.
    by rewrite pagesAwaited_cons, Ht.
  - change (delete (S i) (t' :: ts)) with (t' :: delete i ts).
    by rewrite !pagesAwaited_cons, (IH i Hi).
Qed.

(** the page request has settled: the second request takes its place *)
Lemma balanced_pageSettled i url p fileName r s :
  pending s !! i = Some (PageGet url p fileName) →
  balanced s (snd (asyncCall (onPageSettled url p fileName r) (take i s))).
Proof.
  intros Hi. apply pagesAwaited_delete in Hi. cbn [pageAwaited from_option] in Hi.
  exists []. cbn [app].
  unfold asyncCall, onPageSettled, downloadAndSavePage_settled, tryCatch, bind,
    settled.
  destruct r as [body|message]; cbn [ret throw suspend emit consoleError fst snd
    trace pending take]; split; try done;
    change (linkRequests (GetLinks ?u :: ?t)) with (u :: linkRequests t);
    rewrite ?pagesAwaited_snoc; cbn [pageAwaited from_option];
    rewrite ?app_nil_r, Hi.
  - simpl. by rewrite <-Permutation_middle.
  - change (linkRequests (ConsoleError ?m :: ?t)) with (linkRequests t).
    simpl. by rewrite <-Permutation_middle.
Qed.

Lemma balanced_deliver i r s : balanced s (deliver domain root i r s).
Proof.
  unfold deliver. destruct (pending s !! i) as [t|] eqn:Hi; [|apply step_refl].
  destruct (pageAwaited t) as [url|] eqn:Ht.
  - destruct t; try discriminate. cbn [resume]. by apply balanced_pageSettled.
  - apply (step_trans _ (take i s)).
    + apply balanced_same; [done| |done]. cbn [take pending].
      by apply (pagesAwaited_delete_other i t).
    + apply keeps_asyncCall; [tc_solve|by apply balanced_resume].
Qed.

Lemma balanced_run schedule s : balanced s (run domain root schedule s).
Proof.
  apply (keeps_take_run balanced (deliver domain root) (run domain root));
    [apply balanced_deliver|done|done].
Qed.

Lemma balanced_start disk :
  balanced (State ∅ ∅ disk [] [] []) (start domain disk).
Proof.
  unfold start, main. apply keeps_asyncCall; [tc_solve|apply balanced_crawl].
Qed.

Lemma balanced_reached disk schedule :
  balanced (State ∅ ∅ disk [] [] [])
           (run domain root schedule (start domain disk)).
Proof.
  apply (step_trans _ (start domain disk));
    [apply balanced_start|apply balanced_run].
Qed.

End Facts.
End RichBalanceFacts.

(** ** The simple pipeline: what is requested, and where files go *)

Module SimpleShapeFacts.
Import Simple SimpleRun SimpleFacts.

Section Facts.
Context `{Cheerio} `{Platform}.
Variable domain : string.
Variable disk : gmap string string.

#[local] Abbreviation task := Simple.task.
Implicit Types s : state task.

#[local] Abbreviation shaped := (preserving (wellFormed domain disk)).

#[local] Instance simple_shaped_stepwise : Stepwise shaped.
Proof. by apply preserving_stepwise. Qed.

Lemma simple_shaped_emit e : goodEvent domain e → keeps shaped (emit e).
Proof.
  intros He s (Ht & Hp & Hf). split; [|done]. cbn [emit snd trace].
  by constructor.
Qed.

Lemma simple_shaped_writeFile e filename content :
  goodEvent domain e →
  pagePath domain filename ∨ imagePath domain filename →
  keeps shaped (writeFile e filename content).
Proof.
  intros He Hpath s (Ht & Hp & Hf). split; [|split; [done|]];
    cbn [writeFile snd trace files].
  - by constructor.
  - intros f. rewrite dom_insert_L, elem_of_union, elem_of_singleton.
    intros [->|Hin]; [by right|by apply Hf].
Qed.

Lemma simple_shaped_suspend t : goodTask domain t → keeps shaped (suspend t).
Proof.
  intros Hgood s (Ht & Hp & Hf). split; [done|]. split; [|done].
  cbn [suspend snd pending]. apply Forall_app. split; [done|]. by constructor.
Qed.

Lemma simple_shaped_imageAdd src : keeps shaped (imageAdd src).
Proof. by intros s ?. Qed.

Ltac shaped_step :=
  first
    [ solve [apply simple_shaped_imageAdd]
    | solve [apply simple_shaped_emit; done]
    | solve [apply simple_shaped_suspend; done] ].

Lemma simple_shaped_downloadImage_responded url filename r :
  keeps shaped (downloadImage_responded url filename r).
Proof.
  unfold downloadImage_responded, consoleError.
  repeat first [keep_structure | shaped_step].
Qed.

Lemma simple_shaped_downloadImage_settled url filename data w :
  imagePath domain filename →
  keeps shaped (downloadImage_settled url filename data w).
Proof.
  intros Hpath. unfold downloadImage_settled, consoleError, consoleLog.
  repeat first [keep_structure | shaped_step].
  apply simple_shaped_writeFile; [done|by right].
Qed.

Lemma simple_shaped_crawl url :
  crawled domain url → keeps shaped (crawl url (folder domain)).
Proof.
  intros Hurl s. rewrite simple_crawl_eq. cbn [snd].
  assert (Hs1 : shaped s (afterUrlCheck url s)).
  { unfold afterUrlCheck. destruct (url_pathname url); [by intros ?|].
    intros (Ht & Hp & Hf). split; [|done]. by constructor. }
  destruct (decide _) as [Hin|Hin]; [done|].
  intros Hs. destruct (Hs1 Hs) as (Ht1 & _ & _). destruct Hs as (Ht & Hp & Hf).
  assert (Hfile : pageFile domain url (pageFileNameOf url)
                    (path_join (folder domain) (pageFileNameOf url)))
    by by repeat split.
  split; [|split; [|done]]; cbn [trace pending].
  - by constructor.
  - apply Forall_app. split; [done|]. by constructor.
Qed.

Ltac shaped_keep := repeat first [keep_structure | shaped_step].

Lemma simple_shaped_eachImage images dollar index url p filename :
  pageFile domain url p filename →
  keeps shaped (eachImage dollar images index filename).
Proof.
  intros Hfile. revert dollar index. induction images as [|element rest IH];
    intros dollar index; cbn [eachImage]; [shaped_keep|].
  destruct (truthy _) as [imgSrc|]; [|apply IH].
  assert (Hpath : imagePath domain
                    (path_join (path_dirname filename) (path_basename imgSrc))).
  { exists filename, imgSrc. split; [by exists url, p|done]. }
  unfold downloadImage_request. shaped_keep; apply IH.
Qed.

Lemma simple_shaped_resume t r :
  goodTask domain t → keeps shaped (resume domain t r).
Proof.
  destruct t; cbn [resume goodTask].
  - intros Hfile. pose proof Hfile as (Hurl & _).
    unfold onPageSettled, downloadAndSavePage_settled, consoleError. shaped_keep.
  - intros Hfile. unfold onEnd. shaped_keep.
    apply simple_shaped_writeFile; [by exists url|]. left. by exists url, pageFileName.
  - intros Hfile. unfold onFirstWrite, consoleLog. shaped_keep.
    + by apply (simple_shaped_eachImage _ _ _ url pageFileName).
    + apply simple_shaped_writeFile; [by exists url|]. left.
      by exists url, pageFileName.
  - intros Hpath. unfold onImageResponded.
    apply keeps_bind; [tc_solve|apply simple_shaped_downloadImage_responded|].
    intros [data|]; shaped_keep.
  - intros Hpath. unfold onImageSettled. shaped_keep.
    by apply simple_shaped_downloadImage_settled.
  - intros Hurl. unfold onLinksSettled, consoleError. shaped_keep.
    apply keeps_eachAsync; [tc_solve|]. intros i x _.
    destruct (truthy _) as [link|]; [|shaped_keep].
    destruct (_ link) eqn:Hlink; [|shaped_keep].
    apply simple_shaped_crawl. right.
    match goal with
    | Hre : domainRegExp domain = Some ?re |- _ => by exists re, link
    end.
Qed.

Lemma simple_shaped_deliver i r s : shaped s (deliver domain i r s).
Proof.
  unfold deliver. destruct (pending s !! i) as [t|] eqn:Hi; [|by intros ?].
  intros Hs.
  assert (Ht : goodTask domain t).
  { destruct Hs as (_ & Hp & _). rewrite Forall_forall in Hp.
    by apply Hp, (list_elem_of_lookup_2 _ i). }
  apply (keeps_asyncCall shaped _ (simple_shaped_resume t r Ht)).
  destruct Hs as (Htr & Hp & Hf). split; [done|]. split; [|done].
  cbn [take pending]. by apply Forall_delete.
Qed.

Lemma simple_shaped_run schedule s : shaped s (run domain schedule s).
Proof.
  apply (keeps_take_run shaped (deliver domain) (run domain));
    [apply simple_shaped_deliver|done|done].
Qed.

Lemma simple_shaped_start : wellFormed domain disk (start domain disk).
Proof.
  unfold start, main.
  apply (keeps_asyncCall shaped _ (simple_shaped_crawl _ (or_introl eq_refl))).
  split; [constructor|]. split; [constructor|]. intros f Hf. by left.
Qed.

Lemma simple_shaped_reached schedule :
  wellFormed domain disk (run domain schedule (start domain disk)).
Proof. apply simple_shaped_run, simple_shaped_start. Qed.

End Facts.
End SimpleShapeFacts.

(** ** The simple pipeline: a second request for every page request *)

Module SimpleBalanceFacts.
Import Simple SimpleRun SimpleFacts.

Section Facts.
Context `{Cheerio} `{Platform}.
Variable domain : string.

#[local] Abbreviation task := Simple.task.
Implicit Types s : state task.

#[export] Instance simple_balanced_stepwise : Stepwise balanced.
Proof.
  split.
  - intros s. by exists [].
  - intros s1 s2 s3 (l & Hl & Hr) (l' & Hl' & Hr'). exists (l' ++ l).
    split.
    + by rewrite Hl', Hl, <-app_assoc.
    + by rewrite Hr', Hr, <-app_assoc.
  - intros s message. by exists [].
Qed.

Lemma simple_balanced_same s s' :
  linkRequests (trace s') = linkRequests (trace s) →
  pagesAwaited (pending s') = pagesAwaited (pending s) →
  pageRequests (trace s') = pageRequests (trace s) →
  balanced s s'.
Proof. intros Hl Hp Hr. exists []. by rewrite Hl, Hp, Hr. Qed.

Lemma simple_balanced_emit e :
  linksRequested e = None → pageRequested e = None → keeps balanced (emit e).
Proof.
  intros Hl Hr s. apply simple_balanced_same; [|done|]; cbn [emit snd trace].
  - unfold linkRequests. simpl. by rewrite Hl.
  - unfold pageRequests. simpl. by rewrite Hr.
Qed.

Lemma simple_balanced_writeFile e filename content :
  linksRequested e = None → pageRequested e = None →
  keeps balanced (writeFile e filename content).
Proof.
  intros Hl Hr s. apply simple_balanced_same; [|done|]; cbn [writeFile snd trace].
  - unfold linkRequests. simpl. by rewrite Hl.
  - unfold pageRequests. simpl. by rewrite Hr.
Qed.

Lemma simple_pagesAwaited_snoc ts t :
  pagesAwaited (ts ++ [t]) =
  pagesAwaited ts ++ from_option (λ url, [url]) [] (pageAwaited t).
Proof.
  unfold pagesAwaited. rewrite omap_app. simpl. by destruct (pageAwaited t).
Qed.

Lemma simple_balanced_suspend t : pageAwaited t = None → keeps balanced (suspend t).
Proof.
  intros Ht s. apply simple_balanced_same; [done| |done]. cbn [suspend snd pending].
  rewrite simple_pagesAwaited_snoc, Ht. apply app_nil_r.
Qed.

Lemma simple_balanced_imageAdd src : keeps balanced (imageAdd src).
Proof. intros s. by apply simple_balanced_same. Qed.

Ltac balanced_step :=
  first
    [ solve [apply simple_balanced_imageAdd]
    | solve [apply simple_balanced_emit; reflexivity]
    | solve [apply simple_balanced_writeFile; reflexivity]
    | solve [apply simple_balanced_suspend; reflexivity] ].

Lemma simple_balanced_downloadImage_responded url filename r :
  keeps balanced (downloadImage_responded url filename r).
Proof.
  unfold downloadImage_responded, consoleError.
  repeat first [keep_structure | balanced_step].
Qed.

Lemma simple_balanced_downloadImage_settled url filename data w :
  keeps balanced (downloadImage_settled url filename data w).
Proof.
  unfold downloadImage_settled, consoleError, consoleLog.
  repeat first [keep_structure | balanced_step].
Qed.

Lemma simple_balanced_crawl url baseFolder : keeps balanced (crawl url baseFolder).
Proof.
  intros s. rewrite simple_crawl_eq. cbn [snd].
  assert (Hs1 : balanced s (afterUrlCheck url s)).
  { unfold afterUrlCheck. destruct (url_pathname url); [apply step_refl|].
    by apply simple_balanced_same. }
  assert (Ht1 : linkRequests (trace (afterUrlCheck url s)) = linkRequests (trace s) ∧
                pageRequests (trace (afterUrlCheck url s)) = pageRequests (trace s)).
  { unfold afterUrlCheck. by destruct (url_pathname url). }
  destruct Ht1 as [Hl1 Hr1].
  destruct (decide _) as [Hin|Hin]; [done|].
  exists [url]. cbn [trace pending]. split.
  - change (linkRequests (GetPage ?u ?p ?f :: ?t)) with (linkRequests t).
    rewrite Hl1, simple_pagesAwaited_snoc. cbn [pageAwaited from_option].
    rewrite app_assoc. by rewrite <-Permutation_cons_append.
  - change (pageRequests (GetPage ?u ?p ?f :: ?t)) with (u :: pageRequests t).
    by rewrite Hr1.
Qed.

Ltac balanced_keep :=
  repeat first
    [ apply simple_balanced_downloadImage_responded
    | apply simple_balanced_downloadImage_settled
    | apply simple_balanced_crawl
    | keep_structure | balanced_step ].

Lemma simple_balanced_eachImage images dollar index filename :
  keeps balanced (eachImage dollar images index filename).
Proof.
  revert dollar index. induction images as [|element rest IH];
    intros dollar index; cbn [eachImage]; [balanced_keep|].
  unfold downloadImage_request. balanced_keep; apply IH.
Qed.

(** every continuation but the one that waits for a page request *)
Lemma simple_balanced_resume t r :
  pageAwaited t = None → keeps balanced (resume domain t r).
Proof.
  destruct t; cbn [resume pageAwaited]; [done| | | | |]; intros _.
  - unfold onEnd. balanced_keep.
  - unfold onFirstWrite, consoleLog. balanced_keep.
    apply simple_balanced_eachImage.
  - unfold onImageResponded. balanced_keep.
  - unfold onImageSettled. balanced_keep.
  - unfold onLinksSettled, consoleError. balanced_keep.
    apply keeps_eachAsync; [tc_solve|]. intros i x _. balanced_keep.
Qed.

Lemma simple_pagesAwaited_cons t ts :
  pagesAwaited (t :: ts) =
  from_option (λ url, [url]) [] (pageAwaited t) ++ pagesAwaited ts.
Proof. unfold pagesAwaited. simpl. by destruct (pageAwaited t). Qed.

Lemma simple_pagesAwaited_delete i t ts :
  ts !! i = Some t →
  pagesAwaited ts ≡ₚ
  from_option (λ url, [url]) [] (pageAwaited t) ++ pagesAwaited (delete i ts).
Proof.
  intros Hi. unfold pagesAwaited. rewrite (delete_Permutation _ _ _ Hi) at 1.
  simpl. by destruct (pageAwaited t).
Qed.

Lemma simple_pagesAwaited_delete_other i t ts :
  ts !! i = Some t → pageAwaited t = None →
  pagesAwaited (delete i ts) = pagesAwaited ts.
Proof.
  intros Hi Ht. revert i Hi. induction ts as [|t' ts IH]; intros [|i] Hi;
    try done.
  - injection Hi as ->. change (delete 0 (t :: ts)) with ts.
    by rewrite simple_pagesAwaited_cons, Ht.
  - change (delete (S i) (t' :: ts)) with (t' :: delete i ts).
    by rewrite !simple_pagesAwaited_cons, (IH i Hi).
Qed.

(** the page request has settled: the second request takes its place *)
Lemma simple_balanced_pageSettled i url p fileName r s :
  pending s !! i = Some (PageGet url p fileName) →
  balanced s (snd (asyncCall (onPageSettled url p fileName r) (take i s))).
Proof.
  intros Hi. apply simple_pagesAwaited_delete in Hi.
  cbn [pageAwaited from_option] in Hi.
  exists []. cbn [app].
  unfold asyncCall, onPageSettled, downloadAndSavePage_settled, tryCatch, bind,
    settled.
  destruct r as [body|message]; cbn [ret throw suspend emit consoleError fst snd
    trace pending take]; split; try done;
    change (linkRequests (GetLinks ?u :: ?t)) with (u :: linkRequests t);
    rewrite ?simple_pagesAwaited_snoc; cbn [pageAwaited from_option];
    rewrite ?app_nil_r, Hi.
  - simpl. by rewrite <-Permutation_middle.
  - change (linkRequests (ConsoleError ?m :: ?t)) with (linkRequests t).
    simpl. by rewrite <-Permutation_middle.
Qed.

Lemma simple_balanced_deliver i r s : balanced s (deliver domain i r s).
Proof.
  unfold deliver. destruct (pending s !! i) as [t|] eqn:Hi; [|apply step_refl].
  destruct (pageAwaited t) as [url|] eqn:Ht.
  - destruct t; try discriminate. cbn [resume].
    by apply simple_balanced_pageSettled.
  - apply (step_trans _ (take i s)).
    + apply simple_balanced_same; [done| |done]. cbn [take pending].
      by apply (simple_pagesAwaited_delete_other i t).
    + apply keeps_asyncCall; [tc_solve|by apply simple_balanced_resume].
Qed.

Lemma simple_balanced_run schedule s : balanced s (run domain schedule s).
Proof.
  apply (keeps_take_run balanced (deliver domain) (run domain));
    [apply simple_balanced_deliver|done|done].
Qed.

Lemma simple_balanced_start disk :
  balanced (State ∅ ∅ disk [] [] []) (start domain disk).
Proof.
  unfold start, main. apply keeps_asyncCall; [tc_solve|apply simple_balanced_crawl].
Qed.

Lemma simple_balanced_reached disk schedule :
  balanced (State ∅ ∅ disk [] [] [])
           (run domain schedule (start domain disk)).
Proof.
  apply (step_trans _ (start domain disk));
    [apply simple_balanced_start|apply simple_balanced_run].
Qed.

End Facts.
End SimpleBalanceFacts.

(** ** The richer pipeline: the loop over the links *)

Module RichWriteFacts.

Section Facts.
Context `{Cheerio} `{Platform}.
Variable domain : string.

(** the loop over the links returns, and leaves lines on the console
    only *)
Lemma linksLoop_console_only links dollar (s : state Rich.task) :
  ∃ dollar' l,
    Rich.linksLoop domain dollar links s = (Returned dollar', logTo l s) ∧
    Forall (λ e, isConsole e = true) l.
Proof.
  revert dollar s. induction links as [|element rest IH]; intros dollar s;
    cbn [Rich.linksLoop].
  - exists dollar, []. split; [by destruct s|constructor].
  - destruct (truthy _) as [link|]; [|apply IH].
    destruct (includes link domain); [|apply IH].
    unfold bind, extractLocalPathFromUrl, tryCatch, newURL_pathname, bind.
    destruct (url_pathname link) as [pathname|]; cbn [ret throw fst snd].
    + destruct (truthy (Some pathname)); apply IH.
    + cbn. lazymatch goal with
      | |- context [Rich.linksLoop domain ?d rest ?s0] =>
          destruct (IH d s0) as (d' & l & Heq & Hl)
      end.
      exists d', (l ++ [ConsoleError ("Invalid URL: " +:+ link)]).
      split.
      * rewrite Heq. unfold logTo. cbn. by rewrite <-app_assoc.
      * apply Forall_app. split; [done|]. by constructor.
Qed.

End Facts.
End RichWriteFacts.

(** ** Continuations that wait keep waiting *)

Section AppendFacts.
Context {task : Type}.
Implicit Types s : state task.

#[export] Instance appended_stepwise : Stepwise (appended (task := task)).
Proof.
  split.
  - intros s. exists []. by rewrite app_nil_r.
  - intros s1 s2 s3 [new1 H1] [new2 H2]. exists (new1 ++ new2).
    by rewrite H2, H1, <-app_assoc.
  - intros s message. exists []. by rewrite app_nil_r.
Qed.

Lemma appended_same s s' : pending s' = pending s → appended s s'.
Proof. intros Heq. exists []. by rewrite app_nil_r. Qed.

Lemma appended_suspend (t : task) : keeps appended (suspend t).
Proof. intros s. by exists [t]. Qed.

Lemma delete_outside {A} (l : list A) i : l !! i = None → delete i l = l.
Proof.
  revert i. induction l as [|x l IH]; intros [|i]; simpl; try done.
  intros Hi. f_equal. by apply IH.
Qed.

Context `{Platform}.

Lemma appended_extractLocalPathFromUrl url :
  keeps appended (extractLocalPathFromUrl (task := task) url).
Proof.
  intros s. unfold extractLocalPathFromUrl, newURL_pathname, tryCatch, bind.
  destruct (url_pathname url); by apply appended_same.
Qed.

Lemma appended_downloadImage_responded url filename r :
  keeps appended (downloadImage_responded (task := task) url filename r).
Proof.
  intros s. unfold downloadImage_responded, tryCatch, bind, settled.
  destruct r; by apply appended_same.
Qed.

Lemma appended_downloadImage_settled url filename data w :
  keeps appended (downloadImage_settled (task := task) url filename data w).
Proof.
  intros s. unfold downloadImage_settled, tryCatch, bind, settled.
  destruct w; by apply appended_same.
Qed.

End AppendFacts.

Ltac append_step := solve [intros ?; apply appended_same; reflexivity].

Ltac append_keep :=
  repeat first
    [ apply appended_extractLocalPathFromUrl
    | apply appended_downloadImage_responded
    | apply appended_downloadImage_settled
    | apply appended_suspend
    | keep_structure | append_step ].

Module RichAppendFacts.
Import Rich.

Section Facts.
Context `{Cheerio} `{Platform}.
Variable domain : string.
Variable root : option string.

#[local] Abbreviation task := Rich.task.
Implicit Types s : state task.

Lemma rich_appended_crawl url baseFolder :
  keeps appended (crawl url baseFolder).
Proof.
  unfold crawl, downloadAndSavePage_request, consoleLog. append_keep.
Qed.

Lemma rich_appended_linksLoop links dollar :
  keeps appended (linksLoop domain dollar links).
Proof.
  revert dollar. induction links as [|element rest IH]; intros dollar;
    cbn [linksLoop]; append_keep; apply IH.
Qed.

Lemma rich_appended_savePage dollar url p filename :
  keeps appended (savePage domain root dollar url p filename).
Proof. unfold savePage, consoleLog. append_keep; apply rich_appended_linksLoop. Qed.

Lemma rich_appended_imagesLoop images dollar url p filename :
  keeps appended (imagesLoop domain root dollar images url p filename).
Proof.
  revert dollar. induction images as [|element rest IH]; intros dollar;
    cbn [imagesLoop]; [apply rich_appended_savePage|].
  unfold downloadImage_request. append_keep; apply IH.
Qed.

Lemma rich_appended_resume t r : keeps appended (resume domain root t r).
Proof.
  destruct t; cbn [resume].
  - unfold onPageSettled, downloadAndSavePage_settled, consoleError. append_keep.
  - apply rich_appended_imagesLoop.
  - unfold onImageResponded. append_keep; apply rich_appended_imagesLoop.
  - unfold onImageSettled. append_keep; apply rich_appended_imagesLoop.
  - unfold onLinksSettled, consoleError. append_keep.
    apply keeps_eachAsync; [tc_solve|]. intros i x _.
    append_keep; apply rich_appended_crawl.
Qed.

(** one turn of the event loop takes its continuation out of the queue
    and leaves every other one waiting, in its place *)
Lemma rich_deliver_appended i r s :
  ∃ new, pending (deliver domain root i r s) = delete i (pending s) ++ new.
Proof.
  unfold deliver. destruct (pending s !! i) as [t|] eqn:Hi.
  - apply (keeps_asyncCall appended (resume domain root t r)
             (rich_appended_resume t r) (take i s)).
  - exists []. by rewrite app_nil_r, delete_outside.
Qed.

End Facts.
End RichAppendFacts.

Module SimpleAppendFacts.
Import Simple.

Section Facts.
Context `{Cheerio} `{Platform}.
Variable domain : string.

#[local] Abbreviation task := Simple.task.
Implicit Types s : state task.

Lemma simple_appended_crawl url baseFolder :
  keeps appended (crawl url baseFolder).
Proof. unfold crawl, downloadAndSavePage_request. append_keep. Qed.

Lemma simple_appended_eachImage images dollar index filename :
  keeps appended (eachImage dollar images index filename).
Proof.
  revert dollar index. induction images as [|element rest IH];
    intros dollar index; cbn [eachImage]; [append_keep|].
  unfold downloadImage_request. append_keep; apply IH.
Qed.

Lemma simple_appended_resume t r : keeps appended (resume domain t r).
Proof.
  destruct t; cbn [resume].
  - unfold onPageSettled, downloadAndSavePage_settled, consoleError. append_keep.
  - unfold onEnd. append_keep.
  - unfold onFirstWrite, consoleLog. append_keep. apply simple_appended_eachImage.
  - unfold onImageResponded. append_keep.
  - unfold onImageSettled. append_keep.
  - unfold onLinksSettled, consoleError. append_keep.
    apply keeps_eachAsync; [tc_solve|]. intros i x _.
    append_keep; apply simple_appended_crawl.
Qed.

Lemma simple_deliver_appended i r s :
  ∃ new, pending (deliver domain i r s) = delete i (pending s) ++ new.
Proof.
  unfold deliver. destruct (pending s !! i) as [t|] eqn:Hi.
  - apply (keeps_asyncCall appended (resume domain t r)
             (simple_appended_resume t r) (take i s)).
  - exists []. by rewrite app_nil_r, delete_outside.
Qed.

End Facts.
End SimpleAppendFacts.


(** * Failed requests

    What the two programs do when a request is rejected or an image's
    write stream fails. *)

Module Failures.

Section General.
Context `{Cheerio} `{Platform}.
Variable domain : string.
Variable root : option string.

Lemma tryCatch_returned {task A} (body : M (task := task) A) handler s a :
  fst (body s) = Returned a → tryCatch body handler s = body s.
Proof. unfold tryCatch. by destruct (body s) as [[?|?] ?]. Qed.

Lemma eachAsync_returned {task A} (l : list A) callback index (s : state task) :
  fst (eachAsync l callback index s) = Returned tt.
Proof.
  destruct (returns_eachAsync l callback index s) as [[] Hr]. exact Hr.
Qed.

Lemma imageFailed_marked {task} imgSrc message (s : state task) :
  imgSrc ∈ imageDownloads (imageFailed imgSrc message s) ∧
  imageRequests (trace (imageFailed imgSrc message s)) = imageRequests (trace s).
Proof. split; [cbn [imageFailed imageDownloads]; set_solver|done]. Qed.

(** the loop over the images goes on after a rejected request and after
    a failed write stream *)
Lemma rich_image_rejected url p filename dollar element rest imgSrc localImgPath
    message (s : state Rich.task) :
  Rich.onImageResponded domain root url p filename dollar element rest
    imgSrc localImgPath (Failed message) s =
  Rich.imagesLoop domain root (Rich.updateImage dollar element imgSrc) rest
    url p filename (imageFailed imgSrc message s).
Proof. reflexivity. Qed.

Lemma rich_image_write_failed url p filename dollar element rest imgSrc
    localImgPath data message (s : state Rich.task) :
  Rich.onImageSettled domain root url p filename dollar element rest
    imgSrc localImgPath data (Failed message) s =
  Rich.imagesLoop domain root (Rich.updateImage dollar element imgSrc) rest
    url p filename (imageFailed imgSrc message s).
Proof. reflexivity. Qed.

Lemma rich_failed_image_settled i t imgSrc message schedule (s : state Rich.task) :
  pending s !! i = Some t → Rich.imageOf t = Some imgSrc →
  let s' := Rich.run domain root schedule
              (Rich.deliver domain root i (Failed message) s) in
  imgSrc ∈ imageDownloads s' ∧
  occurrences imgSrc (imageRequests (trace s')) =
  occurrences imgSrc (imageRequests (trace s)).
Proof.
  intros Hi Ht s'. subst s'. unfold Rich.deliver. rewrite Hi.
  destruct (imageFailed_marked imgSrc message (take i s)) as [Hin Hreq].
  assert (Hgo : ∃ dollar rest url p filename,
            asyncCall (Rich.resume domain root t (Failed message)) (take i s) =
            asyncCall (Rich.imagesLoop domain root dollar rest url p filename)
                      (imageFailed imgSrc message (take i s))).
  { destruct t; try discriminate; injection Ht as ->; cbn [Rich.resume];
      unfold asyncCall;
      [rewrite rich_image_rejected|rewrite rich_image_write_failed];
      by eexists _, _, _, _, _. }
  destruct Hgo as (dollar & rest & url & p & filename & ->).
  assert (Hkeep : imageSettled imgSrc (imageFailed imgSrc message (take i s))
            (Rich.run domain root schedule
               (snd (asyncCall
                       (Rich.imagesLoop domain root dollar rest url p filename)
                       (imageFailed imgSrc message (take i s)))))).
  { eapply step_trans; [|apply RichImageFacts.rich_imageSettled_run].
    apply keeps_asyncCall; [tc_solve|].
    apply RichImageFacts.rich_imageSettled_imagesLoop. }
  destruct (Hkeep Hin) as [Hin' Hocc]. split; [done|].
  by rewrite Hocc, Hreq.
Qed.

Lemma simple_image_rejected imgSrc localImgPath message (s : state Simple.task) :
  Simple.onImageResponded imgSrc localImgPath (Failed message) s =
  (Returned tt, imageFailed imgSrc message s).
Proof. reflexivity. Qed.

Lemma simple_image_write_failed imgSrc localImgPath data message
    (s : state Simple.task) :
  Simple.onImageSettled imgSrc localImgPath data (Failed message) s =
  (Returned tt, imageFailed imgSrc message s).
Proof. reflexivity. Qed.

Lemma simple_failed_image_settled i t imgSrc message schedule
    (s : state Simple.task) :
  pending s !! i = Some t → Simple.imageOf t = Some imgSrc →
  let s' := Simple.run domain schedule
              (Simple.deliver domain i (Failed message) s) in
  imgSrc ∈ imageDownloads s' ∧
  occurrences imgSrc (imageRequests (trace s')) =
  occurrences imgSrc (imageRequests (trace s)).
Proof.
  intros Hi Ht s'. subst s'. unfold Simple.deliver. rewrite Hi.
  destruct (imageFailed_marked imgSrc message (take i s)) as [Hin Hreq].
  assert (Hgo : snd (asyncCall (Simple.resume domain t (Failed message)) (take i s)) =
                imageFailed imgSrc message (take i s)).
  { destruct t; try discriminate; injection Ht as ->; cbn [Simple.resume];
      unfold asyncCall;
      [by rewrite simple_image_rejected|by rewrite simple_image_write_failed]. }
  rewrite Hgo.
  destruct (SimpleImageFacts.simple_imageSettled_run domain imgSrc schedule
              (imageFailed imgSrc message (take i s)) Hin) as [Hin' Hocc].
  split; [done|]. by rewrite Hocc, Hreq.
Qed.

Lemma rich_links_crawled url data domainRegex (s : state Rich.task) :
  domainRegExp domain = Some domainRegex →
  Rich.onLinksSettled domain url (Ok data) s =
  eachAsync (select (load data) "a")
    (fun _ element =>
       match truthy (attr (load data) element "href") with
       | Some link =>
           if domainRegex link
           then Rich.crawl (absoluteUrlOf link) (path_join "results" domain)
           else ret tt
       | None => ret tt
       end) O s.
Proof.
  intros Hre. unfold Rich.onLinksSettled. rewrite Hre.
  erewrite tryCatch_returned; [done|]. cbn [settled]. unfold bind, ret.
  apply eachAsync_returned.
Qed.

Lemma simple_links_crawled url data domainRegex (s : state Simple.task) :
  domainRegExp domain = Some domainRegex →
  Simple.onLinksSettled domain url (Ok data) s =
  eachAsync (select (load data) "a")
    (fun _ element =>
       match truthy (attr (load data) element "href") with
       | Some link =>
           if domainRegex link
           then Simple.crawl (absoluteUrlOf link) (path_join "results" domain)
           else ret tt
       | None => ret tt
       end) O s.
Proof.
  intros Hre. unfold Simple.onLinksSettled. rewrite Hre.
  erewrite tryCatch_returned; [done|]. cbn [settled]. unfold bind, ret.
  apply eachAsync_returned.
Qed.

Lemma rich_fetched_once disk schedule :
  NoDup (fetched (trace (Rich.run domain root schedule (Rich.start domain disk)))).
Proof.
  by destruct (RichFacts.rich_run_sound domain root schedule _
                 (RichFacts.rich_start_sound domain disk)) as ([Hnd _] & _).
Qed.

Lemma simple_fetched_once disk schedule :
  NoDup (fetched (trace (Simple.run domain schedule (Simple.start domain disk)))).
Proof.
  apply (advances_fetchedOnce never (Simple.start domain disk));
    [apply SimpleFacts.simple_run_advances|].
  apply (advances_fetchedOnce never (State ∅ ∅ disk [] [] []));
    [apply SimpleFacts.simple_start_advances|].
  split; [constructor|]. by intros p Hp%elem_of_nil.
Qed.

Lemma rich_nothing_escapes disk schedule :
  uncaught (Rich.run domain root schedule (Rich.start domain disk)) = [].
Proof.
  by destruct (RichFacts.rich_run_sound domain root schedule _
                 (RichFacts.rich_start_sound domain disk)) as (_ & _ & Hu).
Qed.

Lemma simple_nothing_escapes disk schedule :
  uncaught (Simple.run domain schedule (Simple.start domain disk)) = [].
Proof.
  destruct (SimpleFacts.simple_run_advances domain schedule (Simple.start domain disk))
    as (_ & _ & _ & -> & _).
  by destruct (SimpleFacts.simple_start_advances domain disk) as (_ & _ & _ & -> & _).
Qed.

Lemma rich_resume_returned t r (s : state Rich.task) :
  fst (Rich.resume domain root t r s) = Returned tt.
Proof. destruct (RichFacts.rich_resume_returns domain root t r s) as [[] Hr]. exact Hr. Qed.

Lemma simple_resume_returned t r (s : state Simple.task) :
  fst (Simple.resume domain t r s) = Returned tt.
Proof. destruct (SimpleFacts.simple_resume_returns domain t r s) as [[] Hr]. exact Hr. Qed.

(** C7, amended: in both programs, a continuation that receives a
    failure (a rejected request, or for an image a write stream that
    fails) returns without throwing, as every continuation does.  A
    failed image leaves one line on the console and is added to
    [imageDownloads] all the same, with no file written; the richer
    pipeline's loop over the images goes on with the next image, the
    simple pipeline's callback ends; and under no schedule is a request
    sent for that image again.  A failed page request leaves one line on
    the console, writes nothing and leaves nothing waiting for the page's
    content, and no page is requested for download twice in a run; but
    [crawl] sends its second request to the same URL and waits for it.
    When that request succeeds, and the domain makes a regular
    expression, [crawl] is called on every link of the response that
    matches it; when the request fails too, one more line is logged and
    nothing else happens.  A turn of the event
    loop takes its continuation out of the queue and leaves every other
    one waiting, in its place; and in no run does an exception escape. *)
Theorem fetch_failure_is_caught_and_logged :
  (∀ t r (s : state Rich.task),
     fst (Rich.resume domain root t r s) = Returned tt) ∧
  (∀ t r (s : state Simple.task),
     fst (Simple.resume domain t r s) = Returned tt) ∧
  (∀ url p filename dollar element rest imgSrc localImgPath message
     (s : state Rich.task),
     Rich.onImageResponded domain root url p filename dollar element rest
       imgSrc localImgPath (Failed message) s =
     Rich.imagesLoop domain root (Rich.updateImage dollar element imgSrc) rest
       url p filename (imageFailed imgSrc message s)) ∧
  (∀ url p filename dollar element rest imgSrc localImgPath data message
     (s : state Rich.task),
     Rich.onImageSettled domain root url p filename dollar element rest
       imgSrc localImgPath data (Failed message) s =
     Rich.imagesLoop domain root (Rich.updateImage dollar element imgSrc) rest
       url p filename (imageFailed imgSrc message s)) ∧
  (∀ imgSrc localImgPath message (s : state Simple.task),
     Simple.onImageResponded imgSrc localImgPath (Failed message) s =
     (Returned tt, imageFailed imgSrc message s)) ∧
  (∀ imgSrc localImgPath data message (s : state Simple.task),
     Simple.onImageSettled imgSrc localImgPath data (Failed message) s =
     (Returned tt, imageFailed imgSrc message s)) ∧
  (∀ i t imgSrc message schedule (s : state Rich.task),
     pending s !! i = Some t → Rich.imageOf t = Some imgSrc →
     let s' := Rich.run domain root schedule
                 (Rich.deliver domain root i (Failed message) s) in
     imgSrc ∈ imageDownloads s' ∧
     occurrences imgSrc (imageRequests (trace s')) =
     occurrences imgSrc (imageRequests (trace s))) ∧
  (∀ i t imgSrc message schedule (s : state Simple.task),
     pending s !! i = Some t → Simple.imageOf t = Some imgSrc →
     let s' := Simple.run domain schedule
                 (Simple.deliver domain i (Failed message) s) in
     imgSrc ∈ imageDownloads s' ∧
     occurrences imgSrc (imageRequests (trace s')) =
     occurrences imgSrc (imageRequests (trace s))) ∧
  (∀ url p fileName message (s : state Rich.task),
     Rich.onPageSettled url p fileName (Failed message) s =
     (Returned tt, pageFailed (Rich.LinksGet url) url message s)) ∧
  (∀ url p fileName message (s : state Simple.task),
     Simple.onPageSettled url p fileName (Failed message) s =
     (Returned tt, pageFailed (Simple.LinksGet url) url message s)) ∧
  (∀ disk schedule,
     NoDup (fetched (trace (Rich.run domain root schedule
                              (Rich.start domain disk))))) ∧
  (∀ disk schedule,
     NoDup (fetched (trace (Simple.run domain schedule
                              (Simple.start domain disk))))) ∧
  (∀ url data domainRegex (s : state Rich.task),
     domainRegExp domain = Some domainRegex →
     Rich.onLinksSettled domain url (Ok data) s =
     eachAsync (select (load data) "a")
       (fun _ element =>
          match truthy (attr (load data) element "href") with
          | Some link =>
              if domainRegex link
              then Rich.crawl (absoluteUrlOf link) (path_join "results" domain)
              else ret tt
          | None => ret tt
          end) O s) ∧
  (∀ url data domainRegex (s : state Simple.task),
     domainRegExp domain = Some domainRegex →
     Simple.onLinksSettled domain url (Ok data) s =
     eachAsync (select (load data) "a")
       (fun _ element =>
          match truthy (attr (load data) element "href") with
          | Some link =>
              if domainRegex link
              then Simple.crawl (absoluteUrlOf link) (path_join "results" domain)
              else ret tt
          | None => ret tt
          end) O s) ∧
  (∀ url message (s : state Rich.task),
     Rich.onLinksSettled domain url (Failed message) s =
     (Returned tt,
      logTo [ConsoleError ("Failed to crawl " +:+ url +:+ ": " +:+ message)] s)) ∧
  (∀ url message (s : state Simple.task),
     Simple.onLinksSettled domain url (Failed message) s =
     (Returned tt,
      logTo [ConsoleError ("Failed to crawl " +:+ url +:+ ": " +:+ message)] s)) ∧
  (∀ i r (s : state Rich.task),
     ∃ new, pending (Rich.deliver domain root i r s) =
            delete i (pending s) ++ new) ∧
  (∀ i r (s : state Simple.task),
     ∃ new, pending (Simple.deliver domain i r s) =
            delete i (pending s) ++ new) ∧
  (∀ disk schedule,
     uncaught (Rich.run domain root schedule (Rich.start domain disk)) = []) ∧
  (∀ disk schedule,
     uncaught (Simple.run domain schedule (Simple.start domain disk)) = []).
Proof.
  split; [apply rich_resume_returned|].
  split; [apply simple_resume_returned|].
  split; [apply rich_image_rejected|].
  split; [apply rich_image_write_failed|].
  split; [apply simple_image_rejected|].
  split; [apply simple_image_write_failed|].
  split; [apply rich_failed_image_settled|].
  split; [apply simple_failed_image_settled|].
  split; [done|]. split; [done|].
  split; [apply rich_fetched_once|].
  split; [apply simple_fetched_once|].
  split; [apply rich_links_crawled|].
  split; [apply simple_links_crawled|].
  split; [done|]. split; [done|].
  split; [apply RichAppendFacts.rich_deliver_appended|].
  split; [apply SimpleAppendFacts.simple_deliver_appended|].
  split; [apply rich_nothing_escapes|apply simple_nothing_escapes].
Qed.

End General.
End Failures.

Module FailureExamples.
Import Mini Examples MoreExamples.

(** C7 where the request for the image of a page fails in the richer
    pipeline, and in the simple pipeline the request for one occurrence
    of the image fails and the write stream of the other *)
Lemma fetch_failure_is_caught_and_logged_witness :
  (let s' := Rich.run domain None [(0, Ok imageTwicePage)]%nat
               (Rich.deliver domain None 1 (Failed "timeout") richImageAwaited) in
   "https://example.com/a.png" ∈ imageDownloads s' ∧
   occurrences "https://example.com/a.png" (imageRequests (trace s')) =
   occurrences "https://example.com/a.png"
               (imageRequests (trace richImageAwaited))) ∧
  (let s' := Simple.run domain [(1, Ok image); (1, Failed "disk full")]%nat
               (Simple.deliver domain 1 (Failed "timeout") simpleImageAwaited) in
   "https://example.com/a.png" ∈ imageDownloads s' ∧
   occurrences "https://example.com/a.png" (imageRequests (trace s')) =
   occurrences "https://example.com/a.png"
               (imageRequests (trace simpleImageAwaited))).
Proof.
  destruct (@Failures.fetch_failure_is_caught_and_logged cheerio platform
              domain None)
    as (_ & _ & _ & _ & _ & _ & Hrich & Hsimple & _).
  split.
  - eapply Hrich; [vm_compute; reflexivity|reflexivity].
  - eapply Hsimple; [vm_compute; reflexivity|reflexivity].
Defined.

(** the runs of that example: one line on the console for each failure,
    the image requested once in the richer pipeline and once for each
    occurrence in the simple one, the page saved, nothing uncaught and
    the second request of the page still waiting *)
Lemma failed_image_example :
  trace (Rich.deliver domain None 1 (Failed "timeout") richImageAwaited) =
    [WritePage "index.md" "results/example.com/index.md" "![](a.png)![](a.png)";
     ConsoleLog
       "Downloaded and saved https://example.com as results/example.com/index.md";
     ConsoleError "Failed to download image https://example.com/a.png: timeout";
     GetImage "https://example.com/a.png" "results/example.com/a.png";
     GetLinks "https://example.com";
     GetPage "https://example.com" "index.md" "results/example.com/index.md"] ∧
  pending (Rich.deliver domain None 1 (Failed "timeout") richImageAwaited) =
    [Rich.LinksGet "https://example.com"] ∧
  uncaught (Rich.deliver domain None 1 (Failed "timeout") richImageAwaited) = [] ∧
  let s' := Simple.run domain [(1, Ok image); (1, Failed "disk full")]%nat
              (Simple.deliver domain 1 (Failed "timeout") simpleImageAwaited) in
  firstn 2 (trace s') =
    [ConsoleError "Failed to download image https://example.com/a.png: disk full";
     ConsoleError "Failed to download image https://example.com/a.png: timeout"] ∧
  pending s' = [Simple.LinksGet "https://example.com"] ∧
  uncaught s' = [] ∧
  files s' !! "results/example.com/a.png" = None.
Proof. repeat split; vm_compute; reflexivity. Qed.

End FailureExamples.


(** * The rewrite of the links

    What [linkTag.replace(link, linkFilename)] does to an anchor of the
    richer pipeline. *)

Module LinkRewriting.

Section General.
Context `{Cheerio} `{Platform}.
Variable domain : string.

Lemma includes_behind before behind pat :
  includes behind pat = true → includes (before +:+ behind) pat = true.
Proof.
  intros Hb. induction before as [|c before IH]; [done|].
  change (String c before +:+ behind) with (String c (before +:+ behind)).
  cbn [includes]. rewrite IH. apply orb_true_r.
Qed.

(** a replacement text without a dollar sign is taken as it is *)
Lemma getSubstitution_plain matched before rest replacement :
  allChars (notChar "$") replacement = true →
  getSubstitution matched before rest replacement = replacement.
Proof.
  induction replacement as [|c t IH]; [done|]. cbn [allChars getSubstitution].
  intros [Hc Ht]%andb_prop. unfold notChar in Hc. apply negb_true_iff in Hc.
  rewrite Hc. by rewrite IH.
Qed.

Lemma richNameChar_plain c : richNameChar c = true → notChar "$" c = true.
Proof.
  unfold richNameChar, notChar. destruct (Ascii.eqb_spec c "$") as [->|]; [|done].
  vm_compute. discriminate.
Qed.

Lemma allChars_app P a b :
  allChars P a = true → allChars P b = true → allChars P (a +:+ b) = true.
Proof.
  intros Ha Hb. induction a as [|c a IH]; [done|].
  change (String c a +:+ b) with (String c (a +:+ b)).
  cbn [allChars] in *. apply andb_prop in Ha as [-> Ha]. by apply IH.
Qed.

(** the filename that replaces a link holds no dollar sign *)
Lemma linkFilename_plain linkPath :
  allChars (notChar "$") (Rich.pathSegmentToFilename linkPath +:+ ".md") = true.
Proof.
  apply allChars_app; [|done].
  apply (NameFacts.allChars_impl richNameChar); [apply richNameChar_plain|].
  apply NameFacts.allChars_richName.
Qed.

(** the step of the loop at an anchor whose href holds the domain and
    parses *)
Lemma rich_linksLoop_rewrites dollar element rest link linkPath
    (s : state Rich.task) :
  truthy (attr dollar element "href") = Some link →
  includes link domain = true →
  url_pathname link = Some linkPath →
  linkPath ≠ EmptyString →
  Rich.linksLoop domain dollar (element :: rest) s =
  Rich.linksLoop domain
    (replaceWith dollar element
       (replace (outerHTML dollar element) link
                (Rich.pathSegmentToFilename linkPath +:+ ".md")))
    rest s.
Proof.
  intros Hhref Hdomain Hurl Hpath. cbn [Rich.linksLoop].
  rewrite Hhref, Hdomain.
  unfold bind, extractLocalPathFromUrl, newURL_pathname, tryCatch.
  rewrite Hurl. cbn [ret bind]. unfold ret.
  by destruct linkPath.
Qed.

(** C2: the richer pipeline rewrites a link by replacing the first
    occurrence of the link's text in the anchor's outer HTML.  Where the
    text stands in the tag a second time, as it does when another
    attribute in front of the href holds the URL too, the tag the loop
    puts back into the document still holds the link: the filename stands
    where the first occurrence was, and what was behind it, the second
    occurrence included, is as it was. *)
Theorem rich_rewrites_first_occurrence_only dollar element rest link linkPath
    before behind (s : state Rich.task) :
  truthy (attr dollar element "href") = Some link →
  includes link domain = true →
  url_pathname link = Some linkPath →
  linkPath ≠ EmptyString →
  splitFirst (outerHTML dollar element) link = Some (before, behind) →
  includes behind link = true →
  let updatedLinkTag :=
    before +:+ (Rich.pathSegmentToFilename linkPath +:+ ".md") +:+ behind in
  Rich.linksLoop domain dollar (element :: rest) s =
    Rich.linksLoop domain (replaceWith dollar element updatedLinkTag) rest s ∧
  includes updatedLinkTag link = true.
Proof.
  intros Hhref Hdomain Hurl Hpath Hsplit Hbehind updatedLinkTag. split.
  - rewrite (rich_linksLoop_rewrites _ _ _ link linkPath) by done.
    unfold replace. rewrite Hsplit.
    by rewrite getSubstitution_plain by apply linkFilename_plain.
  - subst updatedLinkTag. apply includes_behind. by apply includes_behind.
Qed.

End General.
End LinkRewriting.

Module LinkExamples.
Import Mini Examples MoreExamples.

(** C2 at the anchor whose title holds the URL too *)
Lemma rich_rewrites_first_occurrence_only_witness :
  let dollar := load titledLinkPage in
  let element :=
    Element 1 "a" [("title", "https://example.com/Foo-Bar");
                   ("href", "https://example.com/Foo-Bar")] [Text "x"] in
  let updatedLinkTag :=
    "<a title=" +:+ quoted "Foo-Bar.md" +:+
    " href=" +:+ quoted "https://example.com/Foo-Bar" +:+ ">x</a>" in
  Rich.linksLoop domain dollar [element] (Rich.start domain ∅) =
    Rich.linksLoop domain (replaceWith dollar element updatedLinkTag) []
                   (Rich.start domain ∅) ∧
  includes updatedLinkTag "https://example.com/Foo-Bar" = true.
Proof.
  apply (@LinkRewriting.rich_rewrites_first_occurrence_only cheerio platform
           domain (load titledLinkPage) _ [] "https://example.com/Foo-Bar"
           "/Foo-Bar" ("<a title=" +:+ String "034" EmptyString)
           (String "034" (" href=" +:+ quoted "https://example.com/Foo-Bar" +:+
                          ">x</a>"))).
  - vm_compute. reflexivity.
  - vm_compute. reflexivity.
  - vm_compute. reflexivity.
  - discriminate.
  - vm_compute. reflexivity.
  - vm_compute. reflexivity.
Defined.

End LinkExamples.


(** * Further properties of the two programs

    ** The URL Normalizers *)

Module Further.

(** X1: whatever the path, the filename stem of the richer pipeline is
    not empty, holds no two dashes in a row, and neither starts nor ends
    with a dash. *)
Theorem rich_name_is_clean pathSegment :
  cleanName (Rich.pathSegmentToFilename pathSegment).
Proof. apply NormalizerFacts.pathSegmentToFilename_clean. Qed.

(** X2: whatever the path, the filename stem of the richer pipeline is
    made of characters of the expression's class and of dashes: no slash,
    dot, blank or other separator gets into a filename. *)
Theorem rich_name_characters pathSegment :
  allChars richNameChar (Rich.pathSegmentToFilename pathSegment) = true.
Proof. apply NameFacts.allChars_richName. Qed.

(** X3: the loop of [toMekanismiURI] that splits at two dashes and joins
    with one, for as long as two dashes are found, ends within as many
    rounds as the text has characters and leaves what one pass that keeps
    one dash of every run of dashes leaves. *)
Theorem rich_dash_loop_is_one_pass r :
  Rich.collapseLoop (String.length r) r = collapseDashRuns r ∧
  includes (Rich.collapseLoop (String.length r) r) "--" = false.
Proof.
  split; [apply NameFacts.collapseLoop_spec|].
  apply NormalizerFacts.collapseLoop_done. lia.
Qed.

(** X4: the richer pipeline's normalizer leaves its own results alone:
    the name of a name is that name. *)
Theorem rich_name_of_a_name pathSegment :
  Rich.pathSegmentToFilename (Rich.pathSegmentToFilename pathSegment) =
  Rich.pathSegmentToFilename pathSegment.
Proof.
  apply NameFacts.richName_fixed.
  - apply NormalizerFacts.pathSegmentToFilename_clean.
  - apply NameFacts.allChars_richName.
Qed.

(** X5: a path that is a clean name already (characters of the class and
    single dashes inside) is its own filename stem in the richer
    pipeline. *)
Theorem rich_clean_name_is_kept w :
  cleanName w → allChars richNameChar w = true →
  Rich.pathSegmentToFilename w = w.
Proof. apply NameFacts.richName_fixed. Qed.

(** X6: a path without any character of the class (separators only, or
    nothing) is named index by the richer pipeline. *)
Theorem rich_separators_give_index pathSegment :
  allOutside Rich.mekanismiChar pathSegment = true →
  Rich.pathSegmentToFilename pathSegment = "index".
Proof. apply NormalizerFacts.rich_separators_only_is_index. Qed.

(** X7: in the richer pipeline a separator in front of a path or behind
    it does not change the filename: a leading slash, a trailing slash. *)
Theorem rich_edge_separator_is_dropped c pathSegment :
  Rich.mekanismiChar c = false →
  Rich.pathSegmentToFilename (String c pathSegment) =
    Rich.pathSegmentToFilename pathSegment ∧
  Rich.pathSegmentToFilename (pathSegment +:+ String c EmptyString) =
    Rich.pathSegmentToFilename pathSegment.
Proof.
  intros Hc. split; [by apply NameFacts.richName_lead|].
  unfold Rich.pathSegmentToFilename. by rewrite NameFacts.toMekanismiURI_trail.
Qed.

(** X8: whatever the path, the filename stem of the simple pipeline is
    made of letters and dashes. *)
Theorem simple_name_characters pathSegment :
  allChars simpleNameChar (Simple.pathSegmentToFilename pathSegment) = true.
Proof. apply NameFacts.allChars_simpleName. Qed.

(** X9: in the simple pipeline a path of one separator and a word of
    letters is named by that word. *)
Theorem simple_plain_name_is_kept c w :
  Simple.letterChar c = false → w ≠ EmptyString →
  allChars Simple.letterChar w = true →
  Simple.pathSegmentToFilename (String c w) = w.
Proof. apply NameFacts.simpleName_plain. Qed.

(** X10: in the simple pipeline two paths without dashes that differ in
    characters other than letters only (a digit for a digit, say) get the
    same filename. *)
Theorem simple_names_collide p q :
  allChars notDash p = true → allChars notDash q = true →
  replaceOutside Simple.letterChar p = replaceOutside Simple.letterChar q →
  Simple.pathSegmentToFilename p = Simple.pathSegmentToFilename q.
Proof. apply NameFacts.simpleName_collide. Qed.

(** ** The image-title pass *)

(** X12: an image with a title, between a text without exclamation mark
    and a text without quote, loses its title and nothing else: alt text
    without closing bracket, target and title without closing parenthesis,
    title without quote, one white space before the title's quote. *)
Theorem image_title_is_dropped before alt target sp title rest :
  allChars (notChar "!") before = true →
  allChars (notChar "]") alt = true →
  allChars (notChar ")") target = true →
  allChars (λ c, notChar ")" c && notChar "034" c) title = true →
  isSpace sp = true →
  allChars (notChar "034") rest = true →
  stripImageTitles
    (before +:+ "![" +:+ alt +:+ "](" +:+ target +:+
     String sp (String "034" (title +:+ String "034" (String ")" rest)))) =
  before +:+ "![" +:+ alt +:+ "](" +:+ target +:+ ")" +:+ rest.
Proof.
  intros Hbefore Halt Htarget Htitle Hsp Hrest.
  apply TitleFacts.stripImageTitles_titled; try done.
Qed.

Section General.
Context `{Cheerio} `{Platform}.
Variable domain : string.
Variable root : option string.

(** X11: when turndown's Markdown of the root element holds no quote,
    [elementToMDX] returns it as it is. *)
Theorem markdown_without_quotes_is_kept htmlContent content :
  truthy (selectHtml (load htmlContent) (default "body" root)) = Some content →
  allChars (notChar "034") (turndown content) = true →
  Rich.elementToMDX htmlContent root = turndown content.
Proof.
  intros Hroot Hquote. unfold Rich.elementToMDX. rewrite Hroot.
  by apply TitleFacts.stripImageTitles_without_quote.
Qed.

(** ** Runs of the richer pipeline *)

(** X14: along every run of the richer pipeline, from any state, the set
    of visited pages, the set of downloaded images and the set of files
    on disk only grow, and the trace is only added to. *)
Theorem rich_run_only_grows schedule (s : state Rich.task) :
  let s' := Rich.run domain root schedule s in
  visitedPages s ⊆ visitedPages s' ∧
  imageDownloads s ⊆ imageDownloads s' ∧
  dom (files s) ⊆ dom (files s') ∧
  ∃ l, trace s' = l ++ trace s.
Proof.
  destruct (RichFacts.rich_run_advances domain root schedule s)
    as (Hv & Hi & Hf & _ & _ & l & Hl & _).
  repeat split; try done. by exists l.
Qed.

(** X16: in every run of the richer pipeline the visited set never holds
    more pages than the ceiling allows, and no more pages are fetched than
    are visited. *)
Theorem rich_visited_within_ceiling disk schedule :
  let s := Rich.run domain root schedule (Rich.start domain disk) in
  (Z.of_nat (size (visitedPages s)) <= Rich.maxPages)%Z ∧
  length (fetched (trace s)) ≤ size (visitedPages s).
Proof.
  intros s. split.
  - apply (RichRunFacts.bounded_run domain root schedule), RichRunFacts.bounded_start.
  - destruct (RichFacts.rich_reachable_sound domain root s) as ([Hnd Hin] & _).
    { by exists disk, schedule. }
    rewrite <-(size_list_to_set (C := gset string)) by done.
    apply subseteq_size. intros p Hp. apply Hin. by apply elem_of_list_to_set in Hp.
Qed.

(** X17: in every run of the richer pipeline every request for a page,
    the first and the second, goes to the root URL or to a link that
    passed the test against the domain's expression. *)
Theorem rich_requests_stay_on_domain disk schedule :
  let s := Rich.run domain root schedule (Rich.start domain disk) in
  Forall (crawled domain)
         (pageRequests (trace s) ++ linkRequests (trace s)).
Proof.
  intros s.
  destruct (RichShapeFacts.shaped_reached domain root disk schedule) as (Ht & _).
  fold s in Ht. apply Forall_app. split.
  - induction Ht as [|e tr He _ IH]; [constructor|].
    destruct e; try exact IH. constructor; [apply He|exact IH].
  - induction Ht as [|e tr He _ IH]; [constructor|].
    destruct e; try exact IH. constructor; [apply He|exact IH].
Qed.

(** X18: in every run of the richer pipeline a page is requested under
    the filename that the normalizer gives its URL, with the extension
    md, for a file in the results folder of the domain, and no page with
    an ignore pattern in its filename is requested. *)
Theorem rich_page_requests_are_named disk schedule :
  let s := Rich.run domain root schedule (Rich.start domain disk) in
  Forall (λ e, match e with
               | GetPage url pageFileName fileName =>
                   pageFileName = Rich.pageFileNameOf url ∧
                   Rich.ignored pageFileName = false ∧
                   fileName = path_join (path_join "results" domain) pageFileName
               | _ => True
               end) (trace s).
Proof.
  intros s.
  destruct (RichShapeFacts.shaped_reached domain root disk schedule) as (Ht & _).
  fold s in Ht. eapply Forall_impl; [exact Ht|].
  intros [] He; try done. by destruct He as (_ & ? & ? & ?).
Qed.

(** X19: in every run of the richer pipeline a file on disk was there
    before the run, or is the file of a page that was crawled, or lies
    beside such a file under the last segment of an image source. *)
Theorem rich_files_stay_in_place disk schedule f :
  let s := Rich.run domain root schedule (Rich.start domain disk) in
  f ∈ dom (files s) →
  f ∈ dom disk ∨ RichRun.pagePath domain f ∨ RichRun.imagePath domain f.
Proof.
  intros s.
  destruct (RichShapeFacts.shaped_reached domain root disk schedule) as (_ & _ & Hf).
  apply Hf.
Qed.

(** X20: in every run of the richer pipeline the second requests sent,
    together with the page requests still awaited, are the page requests
    sent, URL by URL: once its page request has settled, well or badly,
    a page is requested a second time, and once only. *)
Theorem rich_second_request_per_page disk schedule :
  let s := Rich.run domain root schedule (Rich.start domain disk) in
  linkRequests (trace s) ++ RichRun.pagesAwaited (pending s) ≡ₚ
  pageRequests (trace s).
Proof.
  destruct (RichBalanceFacts.balanced_reached domain root disk schedule)
    as (l & Hl & Hr).
  cbn [trace pending] in Hl, Hr. cbv zeta.
  rewrite Hl, Hr. reflexivity.
Qed.

(** X21: in the richer pipeline an image that is in [imageDownloads]
    stays there and is not requested again, under any schedule. *)
Theorem rich_downloaded_image_is_not_requested_again src schedule
    (s : state Rich.task) :
  src ∈ imageDownloads s →
  let s' := Rich.run domain root schedule s in
  src ∈ imageDownloads s' ∧
  occurrences src (imageRequests (trace s')) =
  occurrences src (imageRequests (trace s)).
Proof. apply RichImageFacts.rich_imageSettled_run. Qed.

(** X23: when the root URL parses to the path of one slash, the crawl
    of the richer pipeline starts with one request, for the root URL,
    under the filename index.md in the results folder of the domain. *)
Theorem rich_crawl_starts_at_index disk :
  url_pathname ("https://" +:+ domain) = Some "/" →
  Rich.start domain disk =
  State {["index.md"]} ∅ disk
        [GetPage ("https://" +:+ domain) "index.md"
                 (path_join (path_join "results" domain) "index.md")]
        [Rich.PageGet ("https://" +:+ domain) "index.md"
                      (path_join (path_join "results" domain) "index.md")]
        [].
Proof.
  intros Hroot. unfold Rich.start, Rich.main, asyncCall.
  rewrite RichFacts.rich_crawl_eq. cbn [fst snd].
  unfold afterUrlCheck, Rich.pageFileNameOf. rewrite Hroot.
  change (Rich.pathSegmentToFilename (default EmptyString (Some "/")) +:+ ".md")
    with "index.md".
  cbn [visitedPages size]. rewrite size_empty.
  change (Rich.maxPages <=? Z.of_nat 0)%Z with false. cbv iota zeta.
  rewrite decide_False by set_solver.
  change (Rich.ignored "index.md") with false. cbv iota.
  cbn [imageDownloads files trace pending uncaught app].
  f_equal.
Qed.

(** X24: a URL that does not parse is crawled by the richer pipeline as
    the page index.md: once that page is visited, the crawl of such a URL
    leaves a line on the console and does nothing else. *)
Theorem rich_unparsable_link_is_index url baseFolder (s : state Rich.task) :
  url_pathname url = None →
  (Z.of_nat (size (visitedPages s)) < Rich.maxPages)%Z →
  "index.md" ∈ visitedPages s →
  Rich.crawl url baseFolder s =
  (Returned tt, logTo [ConsoleError ("Invalid URL: " +:+ url)] s).
Proof.
  intros Hurl Hopen Hin. rewrite RichFacts.rich_crawl_eq.
  apply Z.leb_gt in Hopen. rewrite Hopen. cbv zeta.
  unfold afterUrlCheck, Rich.pageFileNameOf. rewrite Hurl.
  change (Rich.pathSegmentToFilename (default EmptyString None) +:+ ".md")
    with "index.md".
  by rewrite decide_True.
Qed.

(** X25: the richer pipeline's loop over the links leaves the document
    and the state as they are when the text of the domain stands in no
    href.  The test of the loop is [link.includes(domain)], on the text
    of the link and not on its host. *)
Theorem rich_links_without_the_domain_are_kept dollar links (s : state Rich.task) :
  forallb (λ element,
             match truthy (attr dollar element "href") with
             | Some link => negb (includes link domain)
             | None => true
             end) links = true →
  Rich.linksLoop domain dollar links s = (Returned dollar, s).
Proof.
  induction links as [|element rest IH]; [done|]. cbn [forallb Rich.linksLoop].
  intros [He Hrest]%andb_prop.
  destruct (truthy _) as [link|]; [|by apply IH].
  apply negb_true_iff in He. rewrite He. by apply IH.
Qed.

(** X26: the last part of the richer pipeline's [end] handler rewrites
    the links, which leaves lines on the console only, then writes the
    page's file once, and writes what [elementToMDX] returns for the
    document as the loop over the links has left it. *)
Theorem rich_page_file_holds_markdown dollar url p filename
    (s : state Rich.task) :
  ∃ dollar' l,
    Rich.linksLoop domain dollar (select dollar "a") s =
      (Returned dollar', logTo l s) ∧
    Forall (λ e, isConsole e = true) l ∧
    let markdownContent := Rich.elementToMDX (html dollar') root in
    Rich.savePage domain root dollar url p filename s =
    (Returned tt,
     State (visitedPages s) (imageDownloads s)
           (<[filename := markdownContent]> (files s))
           (WritePage p filename markdownContent ::
            ConsoleLog ("Downloaded and saved " +:+ url +:+ " as " +:+ filename) ::
            l ++ trace s)
           (pending s) (uncaught s)).
Proof.
  destruct (RichWriteFacts.linksLoop_console_only domain (select dollar "a") dollar s)
    as (dollar' & l & Heq & Hl).
  exists dollar', l. split; [done|]. split; [done|].
  unfold Rich.savePage, bind. by rewrite Heq.
Qed.

(** ** Runs of the simple pipeline *)

(** X15: along every run of the simple pipeline, from any state, the set
    of visited pages, the set of downloaded images and the set of files
    on disk only grow, and the trace is only added to. *)
Theorem simple_run_only_grows schedule (s : state Simple.task) :
  let s' := Simple.run domain schedule s in
  visitedPages s ⊆ visitedPages s' ∧
  imageDownloads s ⊆ imageDownloads s' ∧
  dom (files s) ⊆ dom (files s') ∧
  ∃ l, trace s' = l ++ trace s.
Proof.
  destruct (SimpleFacts.simple_run_advances domain schedule s)
    as (Hv & Hi & Hf & _ & _ & l & Hl & _).
  repeat split; try done. by exists l.
Qed.

(** X22: in the simple pipeline too an image that is in
    [imageDownloads] stays there and is not requested again, under any
    schedule. *)
Theorem simple_downloaded_image_is_not_requested_again src schedule
    (s : state Simple.task) :
  src ∈ imageDownloads s →
  let s' := Simple.run domain schedule s in
  src ∈ imageDownloads s' ∧
  occurrences src (imageRequests (trace s')) =
  occurrences src (imageRequests (trace s)).
Proof. apply SimpleImageFacts.simple_imageSettled_run. Qed.

(** X27: in every run of the simple pipeline every request for a page,
    the first and the second, goes to the root URL or to a link that
    passed the test against the domain's expression. *)
Theorem simple_requests_stay_on_domain disk schedule :
  let s := Simple.run domain schedule (Simple.start domain disk) in
  Forall (crawled domain)
         (pageRequests (trace s) ++ linkRequests (trace s)).
Proof.
  intros s.
  destruct (SimpleShapeFacts.simple_shaped_reached domain disk schedule) as (Ht & _).
  fold s in Ht. apply Forall_app. split.
  - induction Ht as [|e tr He _ IH]; [constructor|].
    destruct e; try exact IH. constructor; [apply He|exact IH].
  - induction Ht as [|e tr He _ IH]; [constructor|].
    destruct e; try exact IH. constructor; [apply He|exact IH].
Qed.

(** X28: in every run of the simple pipeline a page is requested under
    the filename that the normalizer gives its URL, with the extension
    mdx, for a file in the results folder of the domain. *)
Theorem simple_page_requests_are_named disk schedule :
  let s := Simple.run domain schedule (Simple.start domain disk) in
  Forall (λ e, match e with
               | GetPage url pageFileName fileName =>
                   pageFileName = Simple.pageFileNameOf url ∧
                   fileName = path_join (path_join "results" domain) pageFileName
               | _ => True
               end) (trace s).
Proof.
  intros s.
  destruct (SimpleShapeFacts.simple_shaped_reached domain disk schedule) as (Ht & _).
  fold s in Ht. eapply Forall_impl; [exact Ht|].
  intros [] He; try done. by destruct He as (_ & ? & ?).
Qed.

(** X29: in every run of the simple pipeline a file on disk was there
    before the run, or is the file of a page that was crawled, or lies
    beside such a file under the last segment of an image source. *)
Theorem simple_files_stay_in_place disk schedule f :
  let s := Simple.run domain schedule (Simple.start domain disk) in
  f ∈ dom (files s) →
  f ∈ dom disk ∨ SimpleRun.pagePath domain f ∨ SimpleRun.imagePath domain f.
Proof.
  intros s.
  destruct (SimpleShapeFacts.simple_shaped_reached domain disk schedule)
    as (_ & _ & Hf).
  apply Hf.
Qed.

(** X30: in every run of the simple pipeline the second requests sent,
    together with the page requests still awaited, are the page requests
    sent, URL by URL. *)
Theorem simple_second_request_per_page disk schedule :
  let s := Simple.run domain schedule (Simple.start domain disk) in
  linkRequests (trace s) ++ SimpleRun.pagesAwaited (pending s) ≡ₚ
  pageRequests (trace s).
Proof.
  destruct (SimpleBalanceFacts.simple_balanced_reached domain disk schedule)
    as (l & Hl & Hr).
  cbn [trace pending] in Hl, Hr. cbv zeta.
  rewrite Hl, Hr. reflexivity.
Qed.

End General.
End Further.

(** ** The properties at concrete inputs *)

Module FurtherExamples.
Import Mini Examples MoreExamples.

(** X5 at Foo-Bar *)
Lemma rich_clean_name_is_kept_witness :
  Rich.pathSegmentToFilename "Foo-Bar" = "Foo-Bar".
Proof.
  apply Further.rich_clean_name_is_kept; [|reflexivity].
  repeat split; [discriminate|reflexivity..].
Defined.

(** X6 at a path of slashes and a question mark *)
Lemma rich_separators_give_index_witness :
  Rich.pathSegmentToFilename "/?/" = "index".
Proof. apply Further.rich_separators_give_index. reflexivity. Defined.

(** X7 at /docs and docs/ *)
Lemma rich_edge_separator_is_dropped_witness :
  Rich.pathSegmentToFilename "/docs" = Rich.pathSegmentToFilename "docs" ∧
  Rich.pathSegmentToFilename "docs/" = Rich.pathSegmentToFilename "docs".
Proof. apply (Further.rich_edge_separator_is_dropped "/" "docs"). reflexivity. Defined.

(** X9 at /about *)
Lemma simple_plain_name_is_kept_witness :
  Simple.pathSegmentToFilename "/about" = "about".
Proof.
  apply (Further.simple_plain_name_is_kept "/" "about");
    [reflexivity|discriminate|reflexivity].
Defined.

(** X10 at /page1 and /page2 *)
Lemma simple_names_collide_witness :
  Simple.pathSegmentToFilename "/page1" = Simple.pathSegmentToFilename "/page2".
Proof. apply Further.simple_names_collide; reflexivity. Defined.

(** X11 at the page that says Hello *)
Lemma markdown_without_quotes_is_kept_witness :
  Rich.elementToMDX helloPage None = turndown helloPage.
Proof.
  apply (@Further.markdown_without_quotes_is_kept cheerio platform None
           helloPage helloPage); reflexivity.
Defined.

(** X12 at the image with the title A Title *)
Lemma image_title_is_dropped_witness :
  stripImageTitles
    ("See ![alt](img.png " +:+
     String "034" ("A Title" +:+ String "034" ") here")) =
  "See ![alt](img.png) here".
Proof.
  apply (Further.image_title_is_dropped "See " "alt" "img.png" " " "A Title"
           " here"); reflexivity.
Defined.

(** X19 at the file of the root page *)
Lemma rich_files_stay_in_place_witness :
  "results/example.com/index.md" ∈ dom (files (richRun helloPage)) ∧
  ("results/example.com/index.md" ∈ dom (∅ : gmap string string) ∨
   RichRun.pagePath domain "results/example.com/index.md" ∨
   RichRun.imagePath domain "results/example.com/index.md").
Proof.
  assert (Hin : "results/example.com/index.md" ∈ dom (files (richRun helloPage))).
  { vm_compute. reflexivity. }
  split; [exact Hin|].
  exact (Further.rich_files_stay_in_place domain None ∅ _ _ Hin).
Defined.

(** X21 at a page that shows a downloaded image twice *)
Lemma rich_downloaded_image_is_not_requested_again_witness :
  "https://example.com/a.png" ∈ imageDownloads richImageKnown ∧
  let s' := Rich.run domain None [(0, Ok EmptyString)]%nat richImageKnown in
  "https://example.com/a.png" ∈ imageDownloads s' ∧
  occurrences "https://example.com/a.png" (imageRequests (trace s')) =
  occurrences "https://example.com/a.png" (imageRequests (trace richImageKnown)).
Proof.
  assert (Hin : "https://example.com/a.png" ∈ imageDownloads richImageKnown).
  { vm_compute. reflexivity. }
  split; [exact Hin|].
  apply Further.rich_downloaded_image_is_not_requested_again. exact Hin.
Defined.

(** X22 at the same page *)
Lemma simple_downloaded_image_is_not_requested_again_witness :
  "https://example.com/a.png" ∈ imageDownloads simpleImageKnown ∧
  let s' := Simple.run domain [(0, Ok EmptyString)]%nat simpleImageKnown in
  "https://example.com/a.png" ∈ imageDownloads s' ∧
  occurrences "https://example.com/a.png" (imageRequests (trace s')) =
  occurrences "https://example.com/a.png"
              (imageRequests (trace simpleImageKnown)).
Proof.
  assert (Hin : "https://example.com/a.png" ∈ imageDownloads simpleImageKnown).
  { vm_compute. reflexivity. }
  split; [exact Hin|].
  apply Further.simple_downloaded_image_is_not_requested_again. exact Hin.
Defined.

(** X23 at example.com *)
Lemma rich_crawl_starts_at_index_witness :
  Rich.start domain ∅ =
  State {["index.md"]} ∅ ∅
        [GetPage "https://example.com" "index.md" "results/example.com/index.md"]
        [Rich.PageGet "https://example.com" "index.md"
                      "results/example.com/index.md"]
        [].
Proof.
  apply (@Further.rich_crawl_starts_at_index cheerio platform domain ∅).
  reflexivity.
Defined.

(** X24 at a link that is no URL, found when the root page is visited *)
Lemma rich_unparsable_link_is_index_witness :
  Rich.crawl "nonsense" "results/example.com" (Rich.start domain ∅) =
  (Returned tt,
   logTo [ConsoleError "Invalid URL: nonsense"] (Rich.start domain ∅)).
Proof.
  apply (@Further.rich_unparsable_link_is_index cheerio platform).
  - reflexivity.
  - vm_compute. reflexivity.
  - vm_compute. reflexivity.
Defined.

(** X25 at a page with one link, in which the domain does not stand *)
Lemma rich_links_without_the_domain_are_kept_witness :
  Rich.linksLoop domain (load foreignLinkPage)
                 (select (load foreignLinkPage) "a") (Rich.start domain ∅) =
  (Returned (load foreignLinkPage), Rich.start domain ∅).
Proof.
  apply (@Further.rich_links_without_the_domain_are_kept cheerio platform).
  vm_compute. reflexivity.
Defined.

(** X29 at the file of the root page *)
Lemma simple_files_stay_in_place_witness :
  "results/example.com/.mdx" ∈ dom (files (simpleRun helloPage)) ∧
  ("results/example.com/.mdx" ∈ dom (∅ : gmap string string) ∨
   SimpleRun.pagePath domain "results/example.com/.mdx" ∨
   SimpleRun.imagePath domain "results/example.com/.mdx").
Proof.
  assert (Hin : "results/example.com/.mdx" ∈ dom (files (simpleRun helloPage))).
  { vm_compute. reflexivity. }
  split; [exact Hin|].
  exact (Further.simple_files_stay_in_place domain ∅ _ _ Hin).
Defined.

(** a link to another site in which the domain stands, here in the
    query, is rewritten like a link of the site: its path is the root, so
    it becomes index.md *)
Lemma rich_rewrites_a_link_that_names_the_domain :
  linksRewritten foreignReferrerPage =
    "<html><head></head><body><a href=" +:+ quoted "index.md" +:+
    ">x</a></body></html>" ∧
  pageWrites (trace (richRun foreignReferrerPage)) =
    [("results/example.com/index.md", "[x](index.md)")].
Proof. split; vm_compute; reflexivity. Qed.

End FurtherExamples.
